(** * Tutorial notebooks of the LlamaIndex documentation corpus

    A shallow embedding of the code that the notebooks define themselves:

    - [relative_score_fusion] (vector_stores/qdrant_hybrid.ipynb), the
      custom hybrid fusion callback;
    - [GetTrustworthinessScore.handle] (cookbooks/cleanlab_tlm_rag.ipynb);
    - the index-loading cell, [magic_formula] and
      [get_agent_with_context_awareness]
      (agent/openai_agent_context_retrieval.ipynb);
    - [main] (embeddings/deepinfra.ipynb).

    Python exceptions are values of [exn]; code that can raise returns a
    [result].  Python floats are modelled by exact rationals kept in lowest
    terms: rounding, infinities and NaN are outside the model, and a division
    whose divisor is zero raises [ZeroDivisionError] as in Python. *)

From Stdlib Require Import Ascii QArith Qminmax Lqa Qround Qabs.
From stdpp Require Import gmap strings list fin_maps sorting.

Open Scope string_scope.
Set Warnings "-clear-no-such-hyp".

(** ** Python exceptions and fallible computations *)

Inductive exn : Type :=
  | AssertionError
  | ValueError
  | ZeroDivisionError
  | KeyError (key : string)
  | NameError (name : string)
  | SdkError (name : string).

Inductive result (A : Type) : Type :=
  | Ok (a : A)
  | Raise (e : exn).
Arguments Ok {A} a.
Arguments Raise {A} e.

#[global] Instance result_ret : MRet result := @Ok.
#[global] Instance result_bind : MBind result :=
  λ A B f m, match m with Ok a => f a | Raise e => Raise e end.

#[global] Instance result_fmap : FMap result :=
  λ A B f m, match m with Ok a => Ok (f a) | Raise e => Raise e end.

(** Code that also reads and writes a store [S] (the notebook's globals, the
    attributes of an object): the store outlives an exception. *)
Definition stateful (S A : Type) : Type := S → result A * S.

#[global] Instance stateful_ret {S} : MRet (stateful S) := λ A a σ, (Ok a, σ).
#[global] Instance stateful_bind {S} : MBind (stateful S) :=
  λ A B f m σ, match m σ with
               | (Ok a, σ') => f a σ'
               | (Raise e, σ') => (Raise e, σ')
               end.

(** A call that can raise but does not touch the store. *)
Definition call {S A} (r : result A) : stateful S A := λ σ, (r, σ).

(** An assignment. *)
Definition modify {S} (f : S → S) : stateful S unit := λ σ, (Ok (), f σ).

(** [try: body except: handler]: a bare [except] catches every exception;
    what the body assigned before it raised stays assigned. *)
Definition try_except {S A} (body handler : stateful S A) : stateful S A :=
  λ σ, match body σ with
       | (Ok a, σ') => (Ok a, σ')
       | (Raise _, σ') => handler σ'
       end.

(** ** Python floats, [max], [min], [list.sort] and slices *)

Module Py.

Definition sub (x y : Q) : Q := Qred (x - y).
Definition add (x y : Q) : Q := Qred (x + y).
Definition mul (x y : Q) : Q := Qred (x * y).

(** [x / y]: true division raises on a zero divisor. *)
Definition truediv (x y : Q) : result Q :=
  if Qeq_bool y 0 then Raise ZeroDivisionError else Ok (Qred (x / y)).

(** [x < y] *)
Definition lt (x y : Q) : bool := negb (Qle_bool y x).

(** [max(l)]: the first largest element; [ValueError] on an empty list. *)
Definition max (l : list Q) : result Q :=
  match l with
  | [] => Raise ValueError
  | x :: l' => Ok (foldl (λ m y, if lt m y then y else m) x l')
  end.

(** [min(l)]: the first smallest element; [ValueError] on an empty list. *)
Definition min (l : list Q) : result Q :=
  match l with
  | [] => Raise ValueError
  | x :: l' => Ok (foldl (λ m y, if lt y m then y else m) x l')
  end.

(** [l.sort(key=lambda x: x[0], reverse=True)]: the sort is stable, so pairs
    with equal keys keep their original order; an element is therefore put in
    front of the first element whose key is not greater than its own. *)
Fixpoint insert_reverse {A} (x : Q * A) (l : list (Q * A)) : list (Q * A) :=
  match l with
  | [] => [x]
  | y :: l' => if lt x.1 y.1 then y :: insert_reverse x l' else x :: l
  end.

Definition sort_reverse {A} (l : list (Q * A)) : list (Q * A) :=
  foldr insert_reverse [] l.

(** The order in which [sort(reverse=True)] leaves a list of pairs. *)
Definition descending {A} : relation (Q * A) := λ x y, (y.1 <= x.1)%Q.

(** [l[:k]]: a negative [k] counts from the end of the list. *)
Definition slice_to {A} (k : Z) (l : list A) : list A :=
  if (k <? 0)%Z then take (length l - Z.to_nat (- k)) l
  else take (Z.to_nat k) l.

(** [assert o is not None] *)
Definition assert_not_none {A} (o : option A) : result A :=
  match o with
  | Some a => Ok a
  | None => Raise AssertionError
  end.

(** A [dict] whose iteration order is observed: keys in insertion order.
    [d[k] = v] keeps the position of a key that is already present. *)
Definition dict (V : Type) : Type := list (string * V).

Fixpoint setitem {V} (k : string) (v : V) (d : dict V) : dict V :=
  match d with
  | [] => [(k, v)]
  | (k', v') :: d' =>
      if decide (k' = k) then (k', v) :: d' else (k', v') :: setitem k v d'
  end.

(** [k in d] *)
Definition contains {V} (k : string) (d : dict V) : bool :=
  bool_decide (k ∈ d.*1).

End Py.

(** ** vector_stores/qdrant_hybrid.ipynb: [relative_score_fusion] *)

Module Fusion.

(** The framework objects the callback receives.  Of a node only [node_id]
    is read; [text] stands for the rest of its content. *)
Record BaseNode : Type := {
  node_id : string;
  text : string
}.

Record VectorStoreQueryResult : Type := {
  nodes : option (list BaseNode);
  similarities : option (list Q);
  ids : option (list string)
}.

(** [# track nodes in both results]: the dict comprehension over the dense
    nodes, then the sparse nodes whose id is not yet a key. *)
Definition all_nodes_dict (dense_nodes sparse_nodes : list BaseNode)
  : Py.dict BaseNode :=
  let d := foldl (λ d x, Py.setitem (node_id x) x d) [] dense_nodes in
  foldl (λ d node,
           if Py.contains (node_id node) d then d
           else Py.setitem (node_id node) node d)
        d sparse_nodes.

(** [(x - min_sim) / (max_sim - min_sim)] *)
Definition normalize (min_sim max_sim x : Q) : result Q :=
  Py.truediv (Py.sub x min_sim) (Py.sub max_sim min_sim).

(** [{result_tuples[i][1].node_id: x for i, x in enumerate(similarities)}]:
    position [i] of the normalised list is paired with the node of
    [result_tuples[i]] (the two lists have the same length, so the index is
    always in range); a later pair overwrites an earlier one with its key. *)
Definition per_node (result_tuples : list (Q * BaseNode))
    (similarities : list Q) : gmap string Q :=
  foldl (λ m kv, <[kv.1 := kv.2]> m) ∅
        (zip ((λ t, node_id t.2) <$> result_tuples) similarities).

(** [# normalize sparse similarities from 0 to 1] and its dense twin. *)
Definition normalized_per_node (result_tuples : list (Q * BaseNode))
  : result (gmap string Q) :=
  let similarities := result_tuples.*1 in
  max_sim ← Py.max similarities;
  min_sim ← Py.min similarities;
  similarities ← mapM (normalize min_sim max_sim) similarities;
  mret (per_node result_tuples similarities).

(** [fused_sim = alpha * (sparse_sim + dense_sim)] *)
Definition fused_sim (alpha sparse_sim dense_sim : Q) : Q :=
  Py.mul alpha (Py.add sparse_sim dense_sim).

(** [# fuse the scores]: one pair per key of [all_nodes_dict], in its
    iteration order; [d.get(node_id, 0)] is [default 0 (d !! node_id)]. *)
Definition fuse_the_scores (alpha : Q) (all_nodes : Py.dict BaseNode)
    (sparse_per_node dense_per_node : gmap string Q) : list (Q * BaseNode) :=
  (λ kv, (fused_sim alpha (default 0%Q (sparse_per_node !! kv.1))
                          (default 0%Q (dense_per_node !! kv.1)), kv.2))
  <$> all_nodes.

(** The list [fused_similarities] as it is when the loop ends, before it is
    sorted and cut. *)
Definition fused_similarities (dense_nodes : list BaseNode)
    (dense_sims : list Q) (sparse_nodes : list BaseNode)
    (sparse_sims : list Q) (alpha : Q) : result (list (Q * BaseNode)) :=
  let sparse_result_tuples := Py.sort_reverse (zip sparse_sims sparse_nodes) in
  let dense_result_tuples := Py.sort_reverse (zip dense_sims dense_nodes) in
  let all_nodes := all_nodes_dict dense_nodes sparse_nodes in
  sparse_per_node ← normalized_per_node sparse_result_tuples;
  dense_per_node ← normalized_per_node dense_result_tuples;
  mret (fuse_the_scores alpha all_nodes sparse_per_node dense_per_node).

(** [# create final response object] *)
Definition make_result (fused : list (Q * BaseNode)) : VectorStoreQueryResult :=
  {| nodes := Some (fused.*2);
     similarities := Some (fused.*1);
     ids := Some ((λ x, node_id x.2) <$> fused) |}.

Definition relative_score_fusion (dense_result sparse_result : VectorStoreQueryResult)
    (alpha : Q) (top_k : Z) : result VectorStoreQueryResult :=
  dense_nodes ← Py.assert_not_none (nodes dense_result);
  dense_sims ← Py.assert_not_none (similarities dense_result);
  sparse_nodes ← Py.assert_not_none (nodes sparse_result);
  sparse_sims ← Py.assert_not_none (similarities sparse_result);
  fused ← fused_similarities dense_nodes dense_sims sparse_nodes sparse_sims alpha;
  let fused := Py.sort_reverse fused in
  let fused := Py.slice_to top_k fused in
  mret (make_result fused).

(** *** Notions in which the properties are stated *)

(** What [normalize] answers when it does not raise. *)
Definition normalized_value (min_sim max_sim x : Q) : Q :=
  Qred (Py.sub x min_sim / Py.sub max_sim min_sim).

(** Keys are pairwise distinct, and every key is the id of its node, which
    is one of [pool]. *)
Definition node_dict_ok (pool : list BaseNode) (d : Py.dict BaseNode) : Prop :=
  NoDup d.*1 ∧ ∀ k v, (k, v) ∈ d → node_id v = k ∧ v ∈ pool.

(** [id] was retrieved with similarity [x]: some pair of
    [zip(similarities, nodes)] has this similarity and a node of this id. *)
Definition retrieved (sims : list Q) (ns : list BaseNode) (id : string) (x : Q) : Prop :=
  ∃ n, (x, n) ∈ zip sims ns ∧ node_id n = id.

Definition maximum (l : list Q) : Q := foldr Qmax (hd 0%Q l) l.
Definition minimum (l : list Q) : Q := foldr Qmin (hd 0%Q l) l.

(** Min-max normalisation of [x] among the similarities [l]. *)
Definition min_max_normalized (l : list Q) (x : Q) : Q :=
  ((x - minimum l) / (maximum l - minimum l))%Q.

(** [v] is the normalised similarity of [id] on one side of the search:
    [0] for an id that was not retrieved there, else the min-max normalised
    similarity it was retrieved with (the lowest one, should the id have been
    retrieved more than once). *)
Definition side_score (sims : list Q) (ns : list BaseNode) (id : string) (v : Q) : Prop :=
  (¬ (∃ x, retrieved sims ns id x) ∧ v == 0)%Q
  ∨ ∃ x, retrieved sims ns id x
        ∧ (∀ x', retrieved sims ns id x' → x <= x')%Q
        ∧ (v == min_max_normalized (zip sims ns).*1 x)%Q.

Definition two_distinct (l : list Q) : Prop := ∃ x y, x ∈ l ∧ y ∈ l ∧ ¬ (x == y)%Q.
Definition all_equal (l : list Q) : Prop := ∀ x y, x ∈ l → y ∈ l → (x == y)%Q.

Definition non_increasing (l : list Q) : Prop :=
  StronglySorted (λ x y, y <= x)%Q l.

(** A well-formed answer to a query for the [top_k] best nodes. *)
Definition well_formed (top_k : Z) (r : VectorStoreQueryResult) : Prop :=
  ∃ ns sims idl,
    nodes r = Some ns ∧ similarities r = Some sims ∧ ids r = Some idl
    ∧ length ns = length sims ∧ length idl = length sims
    ∧ (Z.of_nat (length ns) ≤ top_k)%Z
    ∧ non_increasing sims
    ∧ idl = node_id <$> ns
    ∧ NoDup idl.

(** Sample inputs: three nodes, two of them found by both searches. *)
Definition node_a : BaseNode := {| node_id := "a"; text := "alpha" |}.
Definition node_b : BaseNode := {| node_id := "b"; text := "beta" |}.
Definition node_c : BaseNode := {| node_id := "c"; text := "gamma" |}.

Definition query_result (ns : list BaseNode) (sims : list Q)
  : VectorStoreQueryResult :=
  {| nodes := Some ns; similarities := Some sims;
     ids := Some (node_id <$> ns) |}.

Definition sample_dense : VectorStoreQueryResult :=
  query_result [node_a; node_b] [3; 1]%Q.
Definition sample_sparse : VectorStoreQueryResult :=
  query_result [node_b; node_c; node_a] [4; 2; 0]%Q.

(** A search that found a single node. *)
Definition single_hit : VectorStoreQueryResult := query_result [node_a] [3]%Q.

(** A result whose [nodes] were never filled in. *)
Definition no_nodes : VectorStoreQueryResult :=
  {| nodes := None; similarities := Some [3; 1]%Q; ids := None |}.

(** Two similarities but a single node: [zip] pairs only the first. *)
Definition unpaired : VectorStoreQueryResult :=
  {| nodes := Some [node_a]; similarities := Some [3; 1]%Q; ids := Some ["a"] |}.

(** Both searches rank [node_a] above [node_b]. *)
Definition agreeing_dense : VectorStoreQueryResult :=
  query_result [node_a; node_b] [3; 1]%Q.
Definition agreeing_sparse : VectorStoreQueryResult :=
  query_result [node_a; node_b] [4; 2]%Q.

(** The same result on another scale: every similarity [x] becomes
    [a * x + b]. *)
Definition rescale (a b : Q) (r : VectorStoreQueryResult) : VectorStoreQueryResult :=
  {| nodes := nodes r;
     similarities := (λ l : list Q, (λ x, a * x + b)%Q <$> l) <$> similarities r;
     ids := ids r |}.

(** Dense similarities reported on another scale. *)
Definition agreeing_dense_in_percent : VectorStoreQueryResult :=
  rescale 100 (-50) agreeing_dense.

End Fusion.

(** ** Python floats *)

Module Float.

(** A float is NaN, an infinity, or a finite number.  Every finite binary64
    number is a whole multiple of 2^-1074, the smallest positive float:
    [Fin n] is the number n * 2^-1074.  (The two zeros, which Python's
    comparisons do not tell apart, are one value here.) *)
Inductive float : Type :=
  | NaN
  | Inf (negative : bool)
  | Fin (n : Z).

(** 1.0, counted in multiples of 2^-1074. *)
Definition one : Z := 2 ^ 1074.

(** The nearest integer, ties to the even one. *)
Definition rne (q : Q) : Z :=
  let f := Qfloor q in
  match (q - inject_Z f ?= 1 # 2)%Q with
  | Lt => f
  | Eq => if Z.even f then f else (f + 1)%Z
  | Gt => (f + 1)%Z
  end.

(** A magnitude [q] (in multiples of 2^-1074) rounded to 53 significant
    bits: up to 2^53 the floats are the integers, and from there on the
    multiples of [2 ^ k], where [k] is the number of bits beyond 53. *)
Definition round_pos (q : Q) : Z :=
  let k := Z.max (Z.log2 (Qfloor q) - 52) 0 in
  (rne (q / inject_Z (2 ^ k)) * 2 ^ k)%Z.

(** IEEE 754 rounding to nearest, ties to even: what an operation answers
    whose exact result is [q]; from 2^1024 on, an infinity. *)
Definition round (q : Q) : float :=
  let n := round_pos (Qabs q) in
  if (2 ^ 2098 <=? n)%Z then Inf (Qnum q <? 0)%Z
  else Fin (if (Qnum q <? 0)%Z then - n else n).

(** The float that a literal denotes. *)
Definition of_Q (q : Q) : float := round (q * inject_Z one).

Definition neg (x : float) : float :=
  match x with NaN => NaN | Inf s => Inf (negb s) | Fin n => Fin (- n) end.

(** [x + y] *)
Definition add (x y : float) : float :=
  match x, y with
  | NaN, _ | _, NaN => NaN
  | Inf s, Inf s' => if Bool.eqb s s' then Inf s else NaN
  | Inf s, Fin _ | Fin _, Inf s => Inf s
  | Fin a, Fin b => round (inject_Z (a + b))
  end.

(** [x - y] *)
Definition sub (x y : float) : float := add x (neg y).

(** [x * y] *)
Definition mul (x y : float) : float :=
  match x, y with
  | NaN, _ | _, NaN => NaN
  | Inf s, Inf s' => Inf (xorb s s')
  | Inf s, Fin n | Fin n, Inf s =>
      if (n =? 0)%Z then NaN else Inf (xorb s (n <? 0)%Z)
  | Fin a, Fin b => round (inject_Z (a * b) / inject_Z one)
  end.

(** The quotient by a divisor that is not zero. *)
Definition div (x y : float) : float :=
  match x, y with
  | NaN, _ | _, NaN => NaN
  | Inf _, Inf _ => NaN
  | Inf s, Fin b => Inf (xorb s (b <? 0)%Z)
  | Fin _, Inf _ => Fin 0
  | Fin a, Fin b => round (inject_Z (a * one) / inject_Z b)
  end.

Definition is_zero (x : float) : bool :=
  match x with Fin 0 => true | _ => false end.

(** [x / y]: Python raises on a zero divisor, whatever the dividend. *)
Definition truediv (x y : float) : result float :=
  if is_zero y then Raise ZeroDivisionError else Ok (div x y).

(** [x < y]: false as soon as one side is NaN. *)
Definition lt (x y : float) : bool :=
  match x, y with
  | NaN, _ | _, NaN => false
  | Inf s, Inf s' => s && negb s'
  | Inf s, Fin _ => s
  | Fin _, Inf s => negb s
  | Fin a, Fin b => (a <? b)%Z
  end.

(** [x <= y] *)
Definition le (x y : float) : bool :=
  match x, y with
  | NaN, _ | _, NaN => false
  | Inf s, Inf s' => s || negb s'
  | Inf s, Fin _ => s
  | Fin _, Inf s => negb s
  | Fin a, Fin b => (a <=? b)%Z
  end.

Definition finite (x : float) : Prop := ∃ n, x = Fin n.

#[global] Instance float_eq_dec : EqDecision float.
Proof. solve_decision. Defined.

(** [max(l)]: the first largest element; [ValueError] on an empty list. *)
Definition max (l : list float) : result float :=
  match l with
  | [] => Raise ValueError
  | x :: l' => Ok (foldl (λ m y, if lt m y then y else m) x l')
  end.

(** [min(l)]: the first smallest element; [ValueError] on an empty list. *)
Definition min (l : list float) : result float :=
  match l with
  | [] => Raise ValueError
  | x :: l' => Ok (foldl (λ m y, if lt y m then y else m) x l')
  end.

(** [l.sort(key=lambda x: x[0], reverse=True)] for keys none of which is
    NaN: the sort is stable, so an element is put in front of the first
    element whose key is not greater than its own.  (With a NaN among the
    keys the comparisons are not an order, and where CPython's merge sort
    leaves the elements is not modelled: it returns some rearrangement of
    the list.) *)
Fixpoint insert_reverse {A} (x : float * A) (l : list (float * A))
  : list (float * A) :=
  match l with
  | [] => [x]
  | y :: l' => if lt x.1 y.1 then y :: insert_reverse x l' else x :: l
  end.

Definition sort_reverse {A} (l : list (float * A)) : list (float * A) :=
  foldr insert_reverse [] l.

(** The order in which [sort(reverse=True)] leaves a list of pairs. *)
Definition descending {A} : relation (float * A) := λ x y, le y.1 x.1 = true.

End Float.

Arguments Float.round : simpl never.
Arguments Float.one : simpl never.

(** ** [relative_score_fusion] on binary64 floats *)

Module Fusion64.

Import Fusion Float.

Record VectorStoreQueryResult : Type := {
  nodes : option (list BaseNode);
  similarities : option (list float);
  ids : option (list string)
}.

(** [(x - min_sim) / (max_sim - min_sim)] *)
Definition normalize (min_sim max_sim x : float) : result float :=
  truediv (sub x min_sim) (sub max_sim min_sim).

(** [{result_tuples[i][1].node_id: x for i, x in enumerate(similarities)}] *)
Definition per_node (result_tuples : list (float * BaseNode))
    (similarities : list float) : gmap string float :=
  foldl (λ m kv, <[kv.1 := kv.2]> m) ∅
        (zip ((λ t, node_id t.2) <$> result_tuples) similarities).

(** [# normalize sparse similarities from 0 to 1] and its dense twin. *)
Definition normalized_per_node (result_tuples : list (float * BaseNode))
  : result (gmap string float) :=
  let similarities := result_tuples.*1 in
  max_sim ← Float.max similarities;
  min_sim ← Float.min similarities;
  similarities ← mapM (normalize min_sim max_sim) similarities;
  mret (per_node result_tuples similarities).

(** [fused_sim = alpha * (sparse_sim + dense_sim)] *)
Definition fused_sim (alpha sparse_sim dense_sim : float) : float :=
  mul alpha (add sparse_sim dense_sim).

(** [# fuse the scores]: one pair per key of [all_nodes_dict], in its
    iteration order; the default of [d.get(node_id, 0)] is the number 0. *)
Definition fuse_the_scores (alpha : float) (all_nodes : Py.dict BaseNode)
    (sparse_per_node dense_per_node : gmap string float)
  : list (float * BaseNode) :=
  (λ kv, (fused_sim alpha (default (Fin 0) (sparse_per_node !! kv.1))
                          (default (Fin 0) (dense_per_node !! kv.1)), kv.2))
  <$> all_nodes.

(** The list [fused_similarities] as it is when the loop ends, before it is
    sorted and cut. *)
Definition fused_similarities (dense_nodes : list BaseNode)
    (dense_sims : list float) (sparse_nodes : list BaseNode)
    (sparse_sims : list float) (alpha : float)
  : result (list (float * BaseNode)) :=
  let sparse_result_tuples := sort_reverse (zip sparse_sims sparse_nodes) in
  let dense_result_tuples := sort_reverse (zip dense_sims dense_nodes) in
  let all_nodes := all_nodes_dict dense_nodes sparse_nodes in
  sparse_per_node ← normalized_per_node sparse_result_tuples;
  dense_per_node ← normalized_per_node dense_result_tuples;
  mret (fuse_the_scores alpha all_nodes sparse_per_node dense_per_node).

(** [# create final response object] *)
Definition make_result (fused : list (float * BaseNode))
  : VectorStoreQueryResult :=
  {| nodes := Some (fused.*2);
     similarities := Some (fused.*1);
     ids := Some ((λ x, node_id x.2) <$> fused) |}.

Definition relative_score_fusion
    (dense_result sparse_result : VectorStoreQueryResult)
    (alpha : float) (top_k : Z) : result VectorStoreQueryResult :=
  dense_nodes ← Py.assert_not_none (nodes dense_result);
  dense_sims ← Py.assert_not_none (similarities dense_result);
  sparse_nodes ← Py.assert_not_none (nodes sparse_result);
  sparse_sims ← Py.assert_not_none (similarities sparse_result);
  fused ← fused_similarities dense_nodes dense_sims sparse_nodes sparse_sims alpha;
  let fused := sort_reverse fused in
  let fused := Py.slice_to top_k fused in
  mret (make_result fused).

(** *** Notions in which the properties are stated *)

(** What [normalize] answers when it does not raise. *)
Definition normalized_value (min_sim max_sim x : float) : float :=
  div (sub x min_sim) (sub max_sim min_sim).

(** [id] was retrieved with similarity [x]: some pair of
    [zip(similarities, nodes)] has this similarity and a node of this id. *)
Definition retrieved (sims : list float) (ns : list BaseNode) (id : string)
    (x : float) : Prop :=
  ∃ n, (x, n) ∈ zip sims ns ∧ node_id n = id.

(** The similarities that [zip] pairs with a node. *)
Definition paired (sims : list float) (ns : list BaseNode) : list float :=
  (zip sims ns).*1.

Definition greatest (l : list float) (m : float) : Prop :=
  m ∈ l ∧ ∀ x, x ∈ l → le x m = true.
Definition least (l : list float) (m : float) : Prop :=
  m ∈ l ∧ ∀ x, x ∈ l → le m x = true.

(** [v] is the min-max normalised [x] among the similarities [l], as the
    floats compute it. *)
Definition min_max_normalized (l : list float) (x v : float) : Prop :=
  ∃ mn mx, least l mn ∧ greatest l mx
           ∧ truediv (sub x mn) (sub mx mn) = Ok v.

(** [v] is the normalised similarity of [id] on one side of the search:
    [0] for an id that was not retrieved there, else the min-max normalised
    similarity it was retrieved with (the lowest one, should the id have been
    retrieved more than once). *)
Definition side_score (sims : list float) (ns : list BaseNode) (id : string)
    (v : float) : Prop :=
  (¬ (∃ x, retrieved sims ns id x) ∧ v = Fin 0)
  ∨ ∃ x, retrieved sims ns id x
        ∧ (∀ x', retrieved sims ns id x' → le x x' = true)
        ∧ min_max_normalized (paired sims ns) x v.

(** A number between 0 and 1. *)
Definition unit_interval (x : float) : Prop :=
  ∃ n, x = Fin n ∧ (0 ≤ n ≤ one)%Z.

Definition no_nan (l : list float) : Prop := Forall (λ x, x ≠ NaN) l.
Definition all_finite (l : list float) : Prop := Forall finite l.

Definition two_distinct (l : list float) : Prop :=
  ∃ x y, x ∈ l ∧ y ∈ l ∧ x ≠ y.

(** No difference of two of the numbers is too large for a float. *)
Definition no_overflow (l : list float) : Prop :=
  ∀ x y, x ∈ l → y ∈ l → finite (sub x y).

Definition non_increasing (l : list float) : Prop :=
  StronglySorted (λ x y, le y x = true) l.

(** A well-formed answer to a query for the [top_k] best nodes. *)
Definition well_formed (top_k : Z) (r : VectorStoreQueryResult) : Prop :=
  ∃ ns sims idl,
    nodes r = Some ns ∧ similarities r = Some sims ∧ ids r = Some idl
    ∧ length ns = length sims ∧ length idl = length sims
    ∧ (Z.of_nat (length ns) ≤ top_k)%Z
    ∧ non_increasing sims
    ∧ idl = node_id <$> ns
    ∧ NoDup idl.

(** Sample inputs: three nodes, two of them found by both searches. *)
Definition query_result (ns : list BaseNode) (sims : list Q)
  : VectorStoreQueryResult :=
  {| nodes := Some ns; similarities := Some (of_Q <$> sims);
     ids := Some (node_id <$> ns) |}.

Definition sample_dense : VectorStoreQueryResult :=
  query_result [node_a; node_b] [3; 1]%Q.
Definition sample_sparse : VectorStoreQueryResult :=
  query_result [node_b; node_c; node_a] [4; 2; 0]%Q.

(** Both searches rank [node_a] first. *)
Definition agreeing_dense : VectorStoreQueryResult :=
  query_result [node_a; node_b; node_c] [3; 2; 1]%Q.
Definition agreeing_sparse : VectorStoreQueryResult :=
  query_result [node_a; node_c; node_b] [4; 2; 0]%Q.

(** Finite scores [1.5e308], [0.0] and [-1.5e308]: the difference of the
    first and the last is too large for a float. *)
Definition wide_dense : VectorStoreQueryResult :=
  query_result [node_a; node_b; node_c]
    [15 * 10 ^ 307; 0; - (15 * 10 ^ 307)]%Q.

(** Scores whose normalised values are 0.1 and 0.2 for [node_b], against
    0.3 and 0.0 for [node_c]. *)
Definition node_d : BaseNode := {| node_id := "d"; text := "delta" |}.
Definition tenths_dense : VectorStoreQueryResult :=
  query_result [node_c; node_a; node_b] [0; 1; 2 # 10]%Q.
Definition tenths_sparse : VectorStoreQueryResult :=
  query_result [node_a; node_b; node_c; node_d] [1; 1 # 10; 3 # 10; 0]%Q.

End Fusion64.

(** ** [relative_score_fusion] and the objects it is given

    Python lists and dicts are objects.  An attribute or a variable holds a
    reference to one; [l.sort()], [l.append(x)] and [d[k] = v] change the
    object in place, for all that refer to it; [list(...)], a comprehension
    and a slice make a new object.  Here the function runs on a heap of such
    objects.  The objects that it makes and never changes afterwards (the
    lists of normalised similarities, the per-node dicts, the lists of the
    answer) are given by their values. *)

Module Objects.

Import Fusion Float.
Local Open Scope list_scope.

Inductive object : Type :=
  | list_of_floats (l : list float)
  | list_of_nodes (l : list BaseNode)
  | list_of_tuples (l : list (float * BaseNode))
  | dict_of_nodes (d : Py.dict BaseNode).

(** Object number [i] is at position [i]; a new object gets the next
    number. *)
Definition ref : Type := nat.
Definition heap : Type := list object.

(** A [VectorStoreQueryResult] refers to its lists. *)
Record VectorStoreQueryResult : Type := {
  nodes : option ref;
  similarities : option ref;
  ids : option ref
}.

Definition floats_at (h : heap) (r : ref) : list float :=
  match h !! r with Some (list_of_floats l) => l | _ => [] end.
Definition nodes_at (h : heap) (r : ref) : list BaseNode :=
  match h !! r with Some (list_of_nodes l) => l | _ => [] end.
Definition tuples_at (h : heap) (r : ref) : list (float * BaseNode) :=
  match h !! r with Some (list_of_tuples l) => l | _ => [] end.
Definition dict_at (h : heap) (r : ref) : Py.dict BaseNode :=
  match h !! r with Some (dict_of_nodes d) => d | _ => [] end.

(** Reading through a reference. *)
Definition get {A} (at_ : heap → ref → A) (r : ref) : stateful heap A :=
  λ h, (Ok (at_ h r), h).

(** A new object. *)
Definition new (o : object) : stateful heap ref :=
  λ h, (Ok (length h), h ++ [o]).

(** [r.sort(key=lambda x: x[0], reverse=True)] *)
Definition sort (r : ref) : stateful heap unit :=
  modify (λ h, <[r := list_of_tuples (sort_reverse (tuples_at h r))]> h).

(** [r.append(x)] *)
Definition append (r : ref) (x : float * BaseNode) : stateful heap unit :=
  modify (λ h, <[r := list_of_tuples (tuples_at h r ++ [x])]> h).

(** [r[k] = v] *)
Definition setitem (r : ref) (k : string) (v : BaseNode) : stateful heap unit :=
  modify (λ h, <[r := dict_of_nodes (Py.setitem k v (dict_at h r))]> h).

(** [for x in l: body] *)
Fixpoint for_each {A} (l : list A) (body : A → stateful heap unit)
  : stateful heap unit :=
  match l with
  | [] => mret ()
  | x :: l' => _ ← body x; for_each l' body
  end.

Definition relative_score_fusion
    (dense_result sparse_result : VectorStoreQueryResult)
    (alpha : float) (top_k : Z)
  : stateful heap Fusion64.VectorStoreQueryResult :=
  (* sanity check *)
  dense_nodes ← call (Py.assert_not_none (nodes dense_result));
  dense_similarities ← call (Py.assert_not_none (similarities dense_result));
  sparse_nodes ← call (Py.assert_not_none (nodes sparse_result));
  sparse_similarities ← call (Py.assert_not_none (similarities sparse_result));
  (* deconstruct results *)
  sims ← get floats_at sparse_similarities;
  ns ← get nodes_at sparse_nodes;
  sparse_result_tuples ← new (list_of_tuples (zip sims ns));
  _ ← sort sparse_result_tuples;
  sims ← get floats_at dense_similarities;
  ns ← get nodes_at dense_nodes;
  dense_result_tuples ← new (list_of_tuples (zip sims ns));
  _ ← sort dense_result_tuples;
  (* track nodes in both results *)
  ns ← get nodes_at dense_nodes;
  all_nodes_dict ← new (dict_of_nodes
                          (foldl (λ d x, Py.setitem (node_id x) x d) [] ns));
  ns ← get nodes_at sparse_nodes;
  _ ← for_each ns (λ node,
        d ← get dict_at all_nodes_dict;
        if Py.contains (node_id node) d then mret ()
        else setitem all_nodes_dict (node_id node) node);
  (* normalize sparse similarities from 0 to 1 *)
  tuples ← get tuples_at sparse_result_tuples;
  sparse_per_node ← call (Fusion64.normalized_per_node tuples);
  (* normalize dense similarities from 0 to 1 *)
  tuples ← get tuples_at dense_result_tuples;
  dense_per_node ← call (Fusion64.normalized_per_node tuples);
  (* fuse the scores *)
  fused_similarities ← new (list_of_tuples []);
  d ← get dict_at all_nodes_dict;
  _ ← for_each d (λ kv,
        let sparse_sim := default (Fin 0) (sparse_per_node !! kv.1) in
        let dense_sim := default (Fin 0) (dense_per_node !! kv.1) in
        let fused_sim := Fusion64.fused_sim alpha sparse_sim dense_sim in
        append fused_similarities (fused_sim, kv.2));
  _ ← sort fused_similarities;
  fused ← get tuples_at fused_similarities;
  let fused := Py.slice_to top_k fused in
  (* create final response object *)
  mret (Fusion64.make_result fused).

(** *** Notions in which the properties are stated *)

(** What a result holds, read through its references ([ids] is never
    read). *)
Definition contents (h : heap) (r : VectorStoreQueryResult)
  : Fusion64.VectorStoreQueryResult :=
  {| Fusion64.nodes := nodes_at h <$> nodes r;
     Fusion64.similarities := floats_at h <$> similarities r;
     Fusion64.ids := None |}.

(** The references of a result are to objects of the heap. *)
Definition valid (h : heap) (r : VectorStoreQueryResult) : Prop :=
  (∀ n, nodes r = Some n → n < length h)
  ∧ (∀ n, similarities r = Some n → n < length h).

(** A heap with the lists of two results. *)
Definition sample_heap : heap :=
  [ list_of_nodes [node_a; node_b];
    list_of_floats (of_Q <$> [3; 1]%Q);
    list_of_nodes [node_b; node_c; node_a];
    list_of_floats (of_Q <$> [4; 2; 0]%Q) ].
Definition sample_dense : VectorStoreQueryResult :=
  {| nodes := Some 0; similarities := Some 1; ids := None |}.
Definition sample_sparse : VectorStoreQueryResult :=
  {| nodes := Some 2; similarities := Some 3; ids := None |}.

End Objects.

(** ** cookbooks/cleanlab_tlm_rag.ipynb: [GetTrustworthinessScore] *)

Module Handler.

(** What a [Dict[str, Any]] holds. *)
Inductive value : Type :=
  | Float (x : Q)
  | Str (s : string)
  | NoneValue.

Record CompletionResponse : Type := {
  text : string;
  additional_kwargs : gmap string value
}.

(** The instrumentation events; [isinstance(event, LLMCompletionEndEvent)]
    holds for the second constructor only. *)
Inductive BaseEvent : Type :=
  | LLMCompletionStartEvent (prompt : string)
  | LLMCompletionEndEvent (prompt : string) (response : CompletionResponse)
  | QueryEndEvent (query : string).

(** [events] is a [ClassVar]: one list shared by all instances of the
    handler.  [trustworthiness_score] is a field of each instance; instances
    are told apart by their identity. *)
Record store : Type := {
  events : list BaseEvent;
  trustworthiness_score : gmap nat value
}.

(** [GetTrustworthinessScore()]: the field starts at its default [0.0]. *)
Definition new (self : nat) : stateful store unit :=
  modify (λ σ, {| events := events σ;
                  trustworthiness_score := <[self := Float 0]> (trustworthiness_score σ) |}).

(** [d[k]] *)
Definition getitem (d : gmap string value) (k : string) : result value :=
  match d !! k with
  | Some v => Ok v
  | None => Raise (KeyError k)
  end.

Definition set_trustworthiness_score (self : nat) (v : value) : stateful store unit :=
  modify (λ σ, {| events := events σ;
                  trustworthiness_score := <[self := v]> (trustworthiness_score σ) |}).

Definition events_append (event : BaseEvent) : stateful store unit :=
  modify (λ σ, {| events := events σ ++ [event];
                  trustworthiness_score := trustworthiness_score σ |}).

Definition handle (self : nat) (event : BaseEvent) : stateful store unit :=
  match event with
  | LLMCompletionEndEvent _ response =>
      score ← call (getitem (additional_kwargs response) "trustworthiness_score");
      _ ← set_trustworthiness_score self score;
      events_append event
  | _ => mret ()
  end.

(** Sample events: a completion of the Cleanlab model, and one of a model
    that reports no score. *)
Definition tlm_event : BaseEvent :=
  LLMCompletionEndEvent "What is NVIDIA's revenue?"
    {| text := "$7.19 billion";
       additional_kwargs := {[ "trustworthiness_score" := Float (99 # 100) ]} |}.

Definition plain_event : BaseEvent :=
  LLMCompletionEndEvent "What is NVIDIA's revenue?"
    {| text := "$7.19 billion"; additional_kwargs := ∅ |}.

Definition sample_store : store :=
  {| events := [QueryEndEvent "earlier"];
     trustworthiness_score := {[ 0%nat := Float 0; 1%nat := Float (1 # 2) ]} |}.

End Handler.

(** ** agent/openai_agent_context_retrieval.ipynb and embeddings/deepinfra.ipynb *)

Module Agent.

(** *** The index-loading cell and the index-building cell *)

(** Framework objects are opaque; a name stands for the object. *)
Record StorageContext : Type := { persist_dir : string }.
Record VectorStoreIndex : Type := { index_name : string }.
Record Document : Type := { doc_text : string }.

(** The SDK calls of the two cells.  Each either answers or raises. *)
Record sdk : Type := {
  StorageContext_from_defaults : string → result StorageContext;
  load_index_from_storage : StorageContext → result VectorStoreIndex;
  SimpleDirectoryReader_load_data : list string → result (list Document);
  VectorStoreIndex_from_documents : list Document → result VectorStoreIndex;
  storage_context_persist : VectorStoreIndex → string → result unit
}.

(** The notebook's global variables; [None] is a name not yet bound. *)
Record globals : Type := {
  storage_context : option StorageContext;
  march_index : option VectorStoreIndex;
  june_index : option VectorStoreIndex;
  sept_index : option VectorStoreIndex;
  index_loaded : option bool;
  march_docs : option (list Document);
  june_docs : option (list Document);
  sept_docs : option (list Document)
}.

Definition unbound : globals :=
  {| storage_context := None; march_index := None; june_index := None;
     sept_index := None; index_loaded := None; march_docs := None;
     june_docs := None; sept_docs := None |}.

Definition set_storage_context (v : StorageContext) (g : globals) : globals :=
  {| storage_context := Some v; march_index := march_index g;
     june_index := june_index g; sept_index := sept_index g;
     index_loaded := index_loaded g; march_docs := march_docs g;
     june_docs := june_docs g; sept_docs := sept_docs g |}.
Definition set_march_index (v : VectorStoreIndex) (g : globals) : globals :=
  {| storage_context := storage_context g; march_index := Some v;
     june_index := june_index g; sept_index := sept_index g;
     index_loaded := index_loaded g; march_docs := march_docs g;
     june_docs := june_docs g; sept_docs := sept_docs g |}.
Definition set_june_index (v : VectorStoreIndex) (g : globals) : globals :=
  {| storage_context := storage_context g; march_index := march_index g;
     june_index := Some v; sept_index := sept_index g;
     index_loaded := index_loaded g; march_docs := march_docs g;
     june_docs := june_docs g; sept_docs := sept_docs g |}.
Definition set_sept_index (v : VectorStoreIndex) (g : globals) : globals :=
  {| storage_context := storage_context g; march_index := march_index g;
     june_index := june_index g; sept_index := Some v;
     index_loaded := index_loaded g; march_docs := march_docs g;
     june_docs := june_docs g; sept_docs := sept_docs g |}.
Definition set_index_loaded (v : bool) (g : globals) : globals :=
  {| storage_context := storage_context g; march_index := march_index g;
     june_index := june_index g; sept_index := sept_index g;
     index_loaded := Some v; march_docs := march_docs g;
     june_docs := june_docs g; sept_docs := sept_docs g |}.
Definition set_march_docs (v : list Document) (g : globals) : globals :=
  {| storage_context := storage_context g; march_index := march_index g;
     june_index := june_index g; sept_index := sept_index g;
     index_loaded := index_loaded g; march_docs := Some v;
     june_docs := june_docs g; sept_docs := sept_docs g |}.
Definition set_june_docs (v : list Document) (g : globals) : globals :=
  {| storage_context := storage_context g; march_index := march_index g;
     june_index := june_index g; sept_index := sept_index g;
     index_loaded := index_loaded g; march_docs := march_docs g;
     june_docs := Some v; sept_docs := sept_docs g |}.
Definition set_sept_docs (v : list Document) (g : globals) : globals :=
  {| storage_context := storage_context g; march_index := march_index g;
     june_index := june_index g; sept_index := sept_index g;
     index_loaded := index_loaded g; march_docs := march_docs g;
     june_docs := june_docs g; sept_docs := Some v |}.

(** Reading a global: [NameError] when the name is not bound. *)
Definition read {A} (name : string) (field : globals → option A) : stateful globals A :=
  λ g, match field g with
       | Some v => (Ok v, g)
       | None => (Raise (NameError name), g)
       end.

(** [storage_context = StorageContext.from_defaults(persist_dir=dir)] and
    [x_index = load_index_from_storage(storage_context)] *)
Definition load_index (api : sdk) (dir : string)
    (set_index : VectorStoreIndex → globals → globals) : stateful globals unit :=
  sc ← call (StorageContext_from_defaults api dir);
  _ ← modify (set_storage_context sc);
  sc ← read "storage_context" storage_context;
  index ← call (load_index_from_storage api sc);
  modify (set_index index).

Definition index_loading_cell (api : sdk) : stateful globals unit :=
  try_except
    (_ ← load_index api "./storage/march" set_march_index;
     _ ← load_index api "./storage/june" set_june_index;
     _ ← load_index api "./storage/sept" set_sept_index;
     modify (set_index_loaded true))
    (modify (set_index_loaded false)).

(** [# build indexes across the three data sources] *)
Definition index_building_cell (api : sdk) : stateful globals unit :=
  loaded ← read "index_loaded" index_loaded;
  if negb loaded then
    (* load data *)
    docs ← call (SimpleDirectoryReader_load_data api ["./data/10q/uber_10q_march_2022.pdf"]);
    _ ← modify (set_march_docs docs);
    docs ← call (SimpleDirectoryReader_load_data api ["./data/10q/uber_10q_june_2022.pdf"]);
    _ ← modify (set_june_docs docs);
    docs ← call (SimpleDirectoryReader_load_data api ["./data/10q/uber_10q_sept_2022.pdf"]);
    _ ← modify (set_sept_docs docs);
    (* build index *)
    docs ← read "march_docs" march_docs;
    index ← call (VectorStoreIndex_from_documents api docs);
    _ ← modify (set_march_index index);
    docs ← read "june_docs" june_docs;
    index ← call (VectorStoreIndex_from_documents api docs);
    _ ← modify (set_june_index index);
    docs ← read "sept_docs" sept_docs;
    index ← call (VectorStoreIndex_from_documents api docs);
    _ ← modify (set_sept_index index);
    (* persist index *)
    index ← read "march_index" march_index;
    _ ← call (storage_context_persist api index "./storage/march");
    index ← read "june_index" june_index;
    _ ← call (storage_context_persist api index "./storage/june");
    index ← read "sept_index" sept_index;
    call (storage_context_persist api index "./storage/sept")
  else mret ().

(** A storage directory that does not exist yet, as on a first run. *)
Definition first_run : sdk :=
  {| StorageContext_from_defaults := λ _, Raise (SdkError "FileNotFoundError");
     load_index_from_storage := λ sc, Ok {| index_name := persist_dir sc |};
     SimpleDirectoryReader_load_data := λ files, Ok ((λ f, {| doc_text := f |}) <$> files);
     VectorStoreIndex_from_documents := λ docs, Ok {| index_name := "built" |};
     storage_context_persist := λ _ _, Ok () |}.

(** Persisted indexes are there, as on a later run. *)
Definition later_run : sdk :=
  {| StorageContext_from_defaults := λ dir, Ok {| persist_dir := dir |};
     load_index_from_storage := λ sc, Ok {| index_name := persist_dir sc |};
     SimpleDirectoryReader_load_data := λ files, Ok ((λ f, {| doc_text := f |}) <$> files);
     VectorStoreIndex_from_documents := λ docs, Ok {| index_name := "built" |};
     storage_context_persist := λ _ _, Ok () |}.

(** The embedding service is down while the indexes are rebuilt. *)
Definition service_down : sdk :=
  {| StorageContext_from_defaults := λ _, Raise (SdkError "FileNotFoundError");
     load_index_from_storage := λ sc, Ok {| index_name := persist_dir sc |};
     SimpleDirectoryReader_load_data := λ files, Ok ((λ f, {| doc_text := f |}) <$> files);
     VectorStoreIndex_from_documents := λ docs, Raise (SdkError "APIConnectionError");
     storage_context_persist := λ _ _, Ok () |}.

(** *** [magic_formula] *)

Definition magic_formula (revenue cost : Z) : Z := (revenue - cost)%Z.

(** *** Asynchronous code *)

Record TextNode : Type := { node_text : string; node_id_ : string }.
Record NodeWithScore : Type := { node : TextNode; score : option Q }.
Record Retriever : Type := { retriever_index : string; similarity_top_k : nat }.
Record BaseTool : Type := { tool_name : string; tool_description : string }.

Record FunctionAgent : Type := {
  tools : list BaseTool;
  llm : string;
  system_prompt : string
}.

(** The awaitable calls of the SDKs that the notebooks use. *)
Inductive sdk_call : Type :=
  | aretrieve (retriever : Retriever) (query : string)
  | aget_text_embedding (text : string)
  | agent_run (agent : FunctionAgent) (query : string).

(** A coroutine: it returns, or awaits an SDK call and goes on with the
    answer, or prints and goes on. *)
Inductive coroutine (R : Type) : Type :=
  | Return (r : R)
  | Await_aretrieve (retriever : Retriever) (query : string)
      (k : list NodeWithScore → coroutine R)
  | Await_aget_text_embedding (text : string) (k : list Q → coroutine R)
  | Await_agent_run (agent : FunctionAgent) (query : string)
      (k : string → coroutine R)
  | Print_embedding (x : list Q) (k : unit → coroutine R)
  | Print_str (x : string) (k : unit → coroutine R).
Arguments Return {R} r.
Arguments Await_aretrieve {R} retriever query k.
Arguments Await_aget_text_embedding {R} text k.
Arguments Await_agent_run {R} agent query k.
Arguments Print_embedding {R} x k.
Arguments Print_str {R} x k.

Fixpoint coroutine_bind {A B} (f : A → coroutine B) (m : coroutine A) : coroutine B :=
  match m with
  | Return a => f a
  | Await_aretrieve r q k => Await_aretrieve r q (λ x, coroutine_bind f (k x))
  | Await_aget_text_embedding t k =>
      Await_aget_text_embedding t (λ x, coroutine_bind f (k x))
  | Await_agent_run a q k => Await_agent_run a q (λ x, coroutine_bind f (k x))
  | Print_embedding x k => Print_embedding x (λ u, coroutine_bind f (k u))
  | Print_str x k => Print_str x (λ u, coroutine_bind f (k u))
  end.

#[global] Instance coroutine_ret : MRet coroutine := @Return.
#[global] Instance coroutine_mbind : MBind coroutine := @coroutine_bind.

(** [await retriever.aretrieve(query)] and the like: the bare awaited call. *)
Definition await_aretrieve (r : Retriever) (q : string) : coroutine (list NodeWithScore) :=
  Await_aretrieve r q Return.
Definition await_aget_text_embedding (t : string) : coroutine (list Q) :=
  Await_aget_text_embedding t Return.
Definition await_agent_run (a : FunctionAgent) (q : string) : coroutine string :=
  Await_agent_run a q Return.
Definition print_embedding (x : list Q) : coroutine unit := Print_embedding x Return.
Definition print_str (x : string) : coroutine unit := Print_str x Return.

Definition nl : string := String "010"%char "".

(** [system_prompt_template.format(context=context)] *)
Definition system_prompt_template_format (context : string) : string :=
  "You are a helpful assistant. " ++ nl ++
  "Here is some context that you can use to answer the user's question and for help with picking the right tool:"
  ++ nl ++ nl ++ context ++ nl.

Definition get_agent_with_context_awareness (query : string)
    (context_retriever : Retriever) (tools : list BaseTool) : coroutine FunctionAgent :=
  context_nodes ← await_aretrieve context_retriever query;
  let context_text :=
    String.concat (nl ++ "----" ++ nl) ((λ n, node_text (node n)) <$> context_nodes) in
  mret {| tools := tools;
          llm := "gpt-4o";
          system_prompt := system_prompt_template_format context_text |}.

(** The cell [agent = await get_agent_with_context_awareness(...);
    response = await agent.run(query); print(str(response))]. *)
Definition agent_cell (query : string) (context_retriever : Retriever)
    (tools : list BaseTool) : coroutine unit :=
  agent ← get_agent_with_context_awareness query context_retriever tools;
  response ← await_agent_run agent query;
  print_str response.

(** embeddings/deepinfra.ipynb *)
Definition main : coroutine unit :=
  let text := "hello world" in
  async_response ← await_aget_text_embedding text;
  print_embedding async_response.

(** The hosted services: what each awaited call answers, or raises. *)
Record hosted : Type := {
  answer_aretrieve : Retriever → string → result (list NodeWithScore);
  answer_aget_text_embedding : string → result (list Q);
  answer_agent_run : FunctionAgent → string → result string
}.

Inductive printed : Type :=
  | printed_embedding (x : list Q)
  | printed_str (x : string).

(** What running a coroutine shows: its value or the exception it ends
    with, the SDK calls it made, and what it printed. *)
Record outcome (R : Type) : Type := {
  value : result R;
  calls : list sdk_call;
  stdout : list printed
}.
Arguments value {R} o.
Arguments calls {R} o.
Arguments stdout {R} o.

Definition after_call {R} (c : sdk_call) (o : outcome R) : outcome R :=
  {| value := value o; calls := c :: calls o; stdout := stdout o |}.
Definition after_print {R} (p : printed) (o : outcome R) : outcome R :=
  {| value := value o; calls := calls o; stdout := p :: stdout o |}.
Definition raised {R} (c : sdk_call) (e : exn) : outcome R :=
  {| value := Raise e; calls := [c]; stdout := [] |}.

Fixpoint run {R} (h : hosted) (p : coroutine R) : outcome R :=
  match p with
  | Return r => {| value := Ok r; calls := []; stdout := [] |}
  | Await_aretrieve r q k =>
      match answer_aretrieve h r q with
      | Ok x => after_call (aretrieve r q) (run h (k x))
      | Raise e => raised (aretrieve r q) e
      end
  | Await_aget_text_embedding t k =>
      match answer_aget_text_embedding h t with
      | Ok x => after_call (aget_text_embedding t) (run h (k x))
      | Raise e => raised (aget_text_embedding t) e
      end
  | Await_agent_run a q k =>
      match answer_agent_run h a q with
      | Ok x => after_call (agent_run a q) (run h (k x))
      | Raise e => raised (agent_run a q) e
      end
  | Print_embedding x k => after_print (printed_embedding x) (run h (k ()))
  | Print_str x k => after_print (printed_str x) (run h (k ()))
  end.

(** *** Notions in which the properties are stated *)

(** The persisted index of [dir] can be loaded. *)
Definition loads (api : sdk) (dir : string) : Prop :=
  ∃ sc index, StorageContext_from_defaults api dir = Ok sc
              ∧ load_index_from_storage api sc = Ok index.

(** The SDK calls of the index-building cell, in the order of the cell and
    with nothing around them: the first one that raises ends the sequence. *)
Definition build_calls (api : sdk) : result unit :=
  march_docs ← SimpleDirectoryReader_load_data api ["./data/10q/uber_10q_march_2022.pdf"];
  june_docs ← SimpleDirectoryReader_load_data api ["./data/10q/uber_10q_june_2022.pdf"];
  sept_docs ← SimpleDirectoryReader_load_data api ["./data/10q/uber_10q_sept_2022.pdf"];
  march_index ← VectorStoreIndex_from_documents api march_docs;
  june_index ← VectorStoreIndex_from_documents api june_docs;
  sept_index ← VectorStoreIndex_from_documents api sept_docs;
  _ ← storage_context_persist api march_index "./storage/march";
  _ ← storage_context_persist api june_index "./storage/june";
  storage_context_persist api sept_index "./storage/sept".

(** What a run shows depends on what the hosted services answer. *)
Definition depends_on_hosted_responses {R} (p : coroutine R) : Prop :=
  ∃ h h', run h p ≠ run h' p.

(** What the hosted services answer to a call. *)
Inductive answer : Type :=
  | answer_nodes (a : result (list NodeWithScore))
  | answer_embedding (a : result (list Q))
  | answer_str (a : result string).

Definition answer_of (h : hosted) (c : sdk_call) : answer :=
  match c with
  | aretrieve r q => answer_nodes (answer_aretrieve h r q)
  | aget_text_embedding t => answer_embedding (answer_aget_text_embedding h t)
  | agent_run a q => answer_str (answer_agent_run h a q)
  end.

(** In the words of the specification: awaiting [p] is a simple pass-through
    to the call [c] when running [p] makes the call [c] and no other, and
    what the run shows and what the call answers determine each other. *)
Definition simple_pass_through {R} (p : coroutine R) (c : sdk_call) : Prop :=
  (∀ h, calls (run h p) = [c])
  ∧ ∀ h h', run h p = run h' p ↔ answer_of h c = answer_of h' c.

(** Sample services: the same two abbreviations retrieved with different
    scores, and a service that is down. *)
Definition abbreviations (s1 s2 : Q) : list NodeWithScore :=
  [ {| node := {| node_text := "Abbreviation: 'X' = Risk Factors"; node_id_ := "n1" |};
       score := Some s1 |};
    {| node := {| node_text := "Abbreviation: 'Y' = Revenue"; node_id_ := "n2" |};
       score := Some s2 |} ].

Definition hosted_a : hosted :=
  {| answer_aretrieve := λ _ _, Ok (abbreviations (9 # 10) (8 # 10));
     answer_aget_text_embedding := λ _, Ok [1 # 2; 1 # 4]%Q;
     answer_agent_run := λ _ _, Ok "The risk factors are ..." |}.

Definition hosted_b : hosted :=
  {| answer_aretrieve := λ _ _, Ok (abbreviations (7 # 10) (6 # 10));
     answer_aget_text_embedding := λ _, Ok [1 # 2; 1 # 4]%Q;
     answer_agent_run := λ _ _, Ok "The risk factors are ..." |}.

Definition hosted_down : hosted :=
  {| answer_aretrieve := λ _ _, Raise (SdkError "APIConnectionError");
     answer_aget_text_embedding := λ _, Raise (SdkError "APIConnectionError");
     answer_agent_run := λ _ _, Raise (SdkError "APIConnectionError") |}.

Definition hosted_c : hosted :=
  {| answer_aretrieve := λ _ _, Ok [];
     answer_aget_text_embedding := λ _, Ok [3 # 4]%Q;
     answer_agent_run := λ _ _, Ok "I do not know." |}.

Definition sample_query : string := "What is the 'X' of March 2022?".
Definition sample_retriever : Retriever :=
  {| retriever_index := "context_index"; similarity_top_k := 2 |}.
Definition sample_tools : list BaseTool :=
  [ {| tool_name := "uber_march_10q";
       tool_description := "Provides information about Uber 10Q filings for March 2022. Use a detailed plain text question as input to the tool." |} ].

End Agent.

(** ** vector_stores/qdrant_hybrid.ipynb: the loop of [sparse_doc_vectors]
    and [sparse_query_vectors]

    Both functions end with the same loop over the rows of [tvecs], the
    tensor that the SPLADE model and the [torch] operations before the loop
    produce.  A row is a list of numbers; [None] stands for the [IndexError]
    of an index out of range. *)

Module SparseVectors.

(** [batch.nonzero(as_tuple=True)[0].tolist()]: the positions of the entries
    that are not zero, in ascending order. *)
Fixpoint nonzero_from (i : nat) (batch : list Q) : list nat :=
  match batch with
  | [] => []
  | x :: batch' =>
      if Qeq_bool x 0 then nonzero_from (S i) batch'
      else i :: nonzero_from (S i) batch'
  end.

Definition nonzero (batch : list Q) : list nat := nonzero_from 0 batch.

(** [batch[indices].tolist()]: the entries at the positions [indices]. *)
Definition index_select (batch : list Q) (indices : list nat) : option (list Q) :=
  mapM (λ i, batch !! i) indices.

(** The body of the loop: [indices.append(...)], then
    [vecs.append(batch[indices[-1]].tolist())]. *)
Definition append_row (indices : list (list nat)) (vecs : list (list Q))
    (batch : list Q) : option (list (list nat) * list (list Q)) :=
  let indices := (indices ++ [nonzero batch])%list in
  last_indices ← last indices;
  vec ← index_select batch last_indices;
  Some (indices, (vecs ++ [vec])%list).

Fixpoint extract_from (indices : list (list nat)) (vecs : list (list Q))
    (tvecs : list (list Q)) : option (list (list nat) * list (list Q)) :=
  match tvecs with
  | [] => Some (indices, vecs)
  | batch :: tvecs' =>
      '(indices, vecs) ← append_row indices vecs batch;
      extract_from indices vecs tvecs'
  end.

(** [# extract the vectors that are non-zero and their indices], from
    [indices = []] and [vecs = []] to [return indices, vecs]. *)
Definition extract (tvecs : list (list Q)) : option (list (list nat) * list (list Q)) :=
  extract_from [] [] tvecs.

(** *** Notions in which the properties are stated *)

(** The dense vector of length [n] that a sparse vector stands for: the
    value at each listed position, zero elsewhere. *)
Definition densify (n : nat) (indices : list nat) (values : list Q) : list Q :=
  (λ i, default 0%Q ((list_to_map (zip indices values) : gmap nat Q) !! i))
  <$> seq 0 n.

Definition sample_tvecs : list (list Q) :=
  [ [0; 3 # 2; 0; 1 # 4]%Q; [0; 0; 0; 0]%Q; [2; 0; 0; 5]%Q ].

End SparseVectors.

(** ** cookbooks/cleanlab_tlm_rag.ipynb: [display_response] *)

Module Display.

Import Handler.

(** [f"{x}"] of a value that may be [None]. *)
Definition format_str (x : option string) : string :=
  match x with
  | Some s => s
  | None => "None"
  end.

(** [display_response(response)].  [event_handler] is the handler that the
    notebook registered; [response] is [response.response].  The text of
    [round(trustworthiness_score, 2)] is left to [round2], which raises when
    the score is not a number.  The answer is what the call raised, if
    anything, and the lines it printed. *)
Definition display_response (round2 : value → result string) (event_handler : nat)
    (response : option string) (σ : store) : result unit * list string :=
  let response_str := response in
  match trustworthiness_score σ !! event_handler with
  | None => (Raise (NameError "event_handler"), [])
  | Some trustworthiness_score =>
      let line := "Response: " ++ format_str response_str in
      match round2 trustworthiness_score with
      | Ok rounded => (Ok (), [line; "Trustworthiness score: " ++ rounded])
      | Raise e => (Raise e, [line])
      end
  end.

(** The handler called on one event after the other, as the dispatcher does
    during a query. *)
Fixpoint handle_each (self : nat) (events : list BaseEvent) : stateful store unit :=
  match events with
  | [] => mret ()
  | event :: events' => _ ← handle self event; handle_each self events'
  end.

(** *** Notions in which the properties are stated *)

(** The score that a completion-end event carries. *)
Definition score_of (event : BaseEvent) : option value :=
  match event with
  | LLMCompletionEndEvent _ response =>
      additional_kwargs response !! "trustworthiness_score"
  | _ => None
  end.

Definition is_completion_end (event : BaseEvent) : bool :=
  match event with
  | LLMCompletionEndEvent _ _ => true
  | _ => false
  end.

(** Every completion-end event of the list carries a score. *)
Definition all_scored (events : list BaseEvent) : Prop :=
  ∀ event, event ∈ events → is_completion_end event = true → is_Some (score_of event).

(** The score of the last completion-end event of the list, or [old] when
    the list has none. *)
Definition last_score (old : option value) (events : list BaseEvent) : option value :=
  foldl (λ acc event, if is_completion_end event then score_of event else acc)
        old events.

(** A stand-in for [round] and the formatting of its result. *)
Definition sample_round2 (v : value) : result string :=
  match v with
  | Float x => Ok (if Qeq_bool x (99 # 100) then "0.99" else "0.0")
  | _ => Raise (SdkError "TypeError")
  end.

Definition later_tlm_event : BaseEvent :=
  LLMCompletionEndEvent "What was the GAAP earnings per diluted share?"
    {| text := "$0.82";
       additional_kwargs := {[ "trustworthiness_score" := Float (3 # 4) ]} |}.

End Display.

(** * Properties *)

(** ** Facts about the Python primitives *)

Section PyFacts.

Local Open Scope Q_scope.

Lemma lt_iff (x y : Q) : Py.lt x y = true ↔ x < y.
Proof.
  unfold Py.lt. rewrite negb_true_iff. split.
  - intros H. apply Qnot_le_lt. intros Hle.
    apply Qle_bool_iff in Hle. congruence.
  - intros H. destruct (Qle_bool y x) eqn:E; [|done].
    apply Qle_bool_iff in E. lra.
Qed.

Lemma lt_false_iff (x y : Q) : Py.lt x y = false ↔ y <= x.
Proof.
  destruct (Py.lt x y) eqn:E.
  - apply lt_iff in E. split; [done | lra].
  - split; [|done]. intros _. apply Qnot_lt_le. intros H.
    apply lt_iff in H. congruence.
Qed.

Lemma sub_correct x y : Py.sub x y == x - y.
Proof. apply Qred_correct. Qed.

(** [max] answers with an element that bounds the list from above. *)
Lemma foldl_max_spec (l : list Q) (a : Q) :
  let m := foldl (λ m y, if Py.lt m y then y else m) a l in
  (m = a ∨ m ∈ l) ∧ a <= m ∧ ∀ x, x ∈ l → x <= m.
Proof.
  revert a. induction l as [|y l IH]; intros a; simpl.
  - split; [by left|]. split; [lra|]. intros x Hx. by apply elem_of_nil in Hx.
  - destruct (Py.lt a y) eqn:E.
    + apply lt_iff in E. destruct (IH y) as (Hm & Hle & Hub).
      split; [right; destruct Hm as [->|Hm]; [left | by right]; done|].
      split; [lra|]. intros x [->|Hx]%elem_of_cons; [done | by apply Hub].
    + apply lt_false_iff in E. destruct (IH a) as (Hm & Hle & Hub).
      split; [destruct Hm as [->|Hm]; [by left | by right; right]|].
      split; [done|]. intros x [->|Hx]%elem_of_cons; [lra | by apply Hub].
Qed.

Lemma foldl_min_spec (l : list Q) (a : Q) :
  let m := foldl (λ m y, if Py.lt y m then y else m) a l in
  (m = a ∨ m ∈ l) ∧ m <= a ∧ ∀ x, x ∈ l → m <= x.
Proof.
  revert a. induction l as [|y l IH]; intros a; simpl.
  - split; [by left|]. split; [lra|]. intros x Hx. by apply elem_of_nil in Hx.
  - destruct (Py.lt y a) eqn:E.
    + apply lt_iff in E. destruct (IH y) as (Hm & Hle & Hub).
      split; [right; destruct Hm as [->|Hm]; [left | by right]; done|].
      split; [lra|]. intros x [->|Hx]%elem_of_cons; [done | by apply Hub].
    + apply lt_false_iff in E. destruct (IH a) as (Hm & Hle & Hub).
      split; [destruct Hm as [->|Hm]; [by left | by right; right]|].
      split; [done|]. intros x [->|Hx]%elem_of_cons; [lra | by apply Hub].
Qed.

Lemma max_Ok (l : list Q) (m : Q) :
  Py.max l = Ok m → m ∈ l ∧ ∀ x, x ∈ l → x <= m.
Proof.
  destruct l as [|a l]; [done|]. intros [= <-].
  destruct (foldl_max_spec l a) as (Hm & Hle & Hub). split.
  - destruct Hm as [->|Hm]; [left | by right].
  - intros x [->|Hx]%elem_of_cons; [done | by apply Hub].
Qed.

Lemma min_Ok (l : list Q) (m : Q) :
  Py.min l = Ok m → m ∈ l ∧ ∀ x, x ∈ l → m <= x.
Proof.
  destruct l as [|a l]; [done|]. intros [= <-].
  destruct (foldl_min_spec l a) as (Hm & Hle & Hub). split.
  - destruct Hm as [->|Hm]; [left | by right].
  - intros x [->|Hx]%elem_of_cons; [done | by apply Hub].
Qed.

Lemma max_is_Ok (l : list Q) : l ≠ [] → ∃ m, Py.max l = Ok m.
Proof. destruct l; [done | by eexists]. Qed.

Lemma min_is_Ok (l : list Q) : l ≠ [] → ∃ m, Py.min l = Ok m.
Proof. destruct l; [done | by eexists]. Qed.

Lemma insert_reverse_Permutation {A} (x : Q * A) l :
  Py.insert_reverse x l ≡ₚ x :: l.
Proof.
  induction l as [|y l IH]; simpl; [done|].
  destruct (Py.lt x.1 y.1); [|done].
  rewrite IH. apply Permutation_swap.
Qed.

Lemma sort_reverse_Permutation {A} (l : list (Q * A)) : Py.sort_reverse l ≡ₚ l.
Proof.
  induction l as [|x l IH]; simpl; [done|].
  by rewrite insert_reverse_Permutation, IH.
Qed.

Lemma elem_of_sort_reverse {A} (l : list (Q * A)) x :
  x ∈ Py.sort_reverse l ↔ x ∈ l.
Proof. by rewrite sort_reverse_Permutation. Qed.

Lemma sort_reverse_nil_inv {A} (l : list (Q * A)) : Py.sort_reverse l = [] → l = [].
Proof.
  intros H. apply Permutation_nil_r. by rewrite <- H, sort_reverse_Permutation.
Qed.

Lemma assert_not_none_Ok {A} (o : option A) (a : A) :
  Py.assert_not_none o = Ok a ↔ o = Some a.
Proof. destruct o; simpl; split; congruence. Qed.

Lemma result_bind_Ok {A B} (m : result A) (f : A → result B) (b : B) :
  m ≫= f = Ok b ↔ ∃ a, m = Ok a ∧ f a = Ok b.
Proof.
  destruct m as [a|e]; cbn; split.
  - by exists a.
  - by intros (? & [= <-] & ?).
  - done.
  - by intros (? & [=] & _).
Qed.

Lemma result_bind_Raise {A B} (m : result A) (f : A → result B) (e : exn) :
  m ≫= f = Raise e ↔ m = Raise e ∨ ∃ a, m = Ok a ∧ f a = Raise e.
Proof.
  destruct m as [a|e']; cbn; split.
  - right. by exists a.
  - by intros [[=]|(? & [= <-] & ?)].
  - intros [= ->]. by left.
  - by intros [[= ->]|(? & [=] & _)].
Qed.

Lemma slice_to_take {A} (k : Z) (l : list A) : ∃ n, Py.slice_to k l = take n l.
Proof. unfold Py.slice_to. destruct (k <? 0)%Z; by eexists. Qed.

Lemma slice_to_length {A} (k : Z) (l : list A) :
  (0 ≤ k)%Z → (Z.of_nat (length (Py.slice_to k l)) ≤ k)%Z.
Proof.
  intros Hk. unfold Py.slice_to.
  destruct (Z.ltb_spec k 0); [lia|]. rewrite length_take. lia.
Qed.

Lemma StronglySorted_take {A} (R : relation A) (n : nat) (l : list A) :
  StronglySorted R l → StronglySorted R (take n l).
Proof.
  intros H. rewrite <- (take_drop n l) in H. by apply StronglySorted_app_1_l in H.
Qed.

End PyFacts.

(** ** Facts about [relative_score_fusion] *)

Section FusionFacts.

Import Fusion.
Local Open Scope list_scope.
Local Open Scope Q_scope.

(** *** The dict of all nodes *)

Lemma elem_of_setitem_keys {V} (k k' : string) (v : V) (d : Py.dict V) :
  k' ∈ (Py.setitem k v d).*1 ↔ k' = k ∨ k' ∈ d.*1.
Proof.
  induction d as [|[k0 v0] d IH]; simpl.
  - rewrite list_elem_of_singleton. set_solver.
  - destruct (decide (k0 = k)) as [->|Hne]; simpl.
    + set_solver.
    + rewrite !elem_of_cons, IH. naive_solver.
Qed.

Lemma setitem_NoDup {V} (k : string) (v : V) (d : Py.dict V) :
  NoDup d.*1 → NoDup (Py.setitem k v d).*1.
Proof.
  induction d as [|[k0 v0] d IH]; simpl.
  - intros _. apply NoDup_singleton.
  - intros [Hk0 Hd]%NoDup_cons. destruct (decide (k0 = k)) as [->|Hne]; simpl.
    + by apply NoDup_cons.
    + apply NoDup_cons. split; [|by apply IH].
      rewrite elem_of_setitem_keys. naive_solver.
Qed.

Lemma elem_of_setitem {V} (k k' : string) (v v' : V) (d : Py.dict V) :
  (k', v') ∈ Py.setitem k v d → (k' = k ∧ v' = v) ∨ (k', v') ∈ d.
Proof.
  induction d as [|[k0 v0] d IH]; simpl.
  - intros [= -> ->]%list_elem_of_singleton. by left.
  - destruct (decide (k0 = k)) as [->|Hne].
    + intros [[= -> ->]|H]%elem_of_cons; [by left | right; by right].
    + intros [[= -> ->]|H]%elem_of_cons; [right; by left|].
      destruct (IH H) as [?|?]; [by left | right; by right].
Qed.

Lemma setitem_ok pool d x :
  x ∈ pool → node_dict_ok pool d → node_dict_ok pool (Py.setitem (node_id x) x d).
Proof.
  intros Hx [Hnd Hd]. split; [by apply setitem_NoDup|].
  intros k v [[-> ->]|H]%elem_of_setitem; [done | by apply Hd].
Qed.

Lemma foldl_nodes_ok pool (step : Py.dict BaseNode → BaseNode → Py.dict BaseNode) :
  (∀ d x, x ∈ pool → node_dict_ok pool d → node_dict_ok pool (step d x)) →
  (∀ d x k, k ∈ (step d x).*1 ↔ k = node_id x ∨ k ∈ d.*1) →
  ∀ l d, (∀ x, x ∈ l → x ∈ pool) → node_dict_ok pool d →
    node_dict_ok pool (foldl step d l)
    ∧ ∀ k, k ∈ (foldl step d l).*1 ↔ k ∈ d.*1 ∨ k ∈ node_id <$> l.
Proof.
  intros Hok Hkeys l. induction l as [|x l IH]; intros d Hl Hd; simpl.
  - split; [done|]. intros k. rewrite elem_of_nil. tauto.
  - destruct (IH (step d x)) as [Hok' Hkeys'].
    + intros y Hy. apply Hl. by right.
    + apply Hok; [apply Hl; by left | done].
    + split; [done|]. intros k. rewrite Hkeys', Hkeys, elem_of_cons. naive_solver.
Qed.

Lemma all_nodes_dict_spec dn sn :
  node_dict_ok (dn ++ sn) (all_nodes_dict dn sn)
  ∧ ∀ k, k ∈ (all_nodes_dict dn sn).*1 ↔ k ∈ node_id <$> (dn ++ sn).
Proof.
  unfold all_nodes_dict.
  set (step1 := λ (d : Py.dict BaseNode) x, Py.setitem (node_id x) x d).
  set (step2 := λ (d : Py.dict BaseNode) node,
                  if Py.contains (node_id node) d then d
                  else Py.setitem (node_id node) node d).
  assert (node_dict_ok (dn ++ sn) (foldl step1 [] dn)
          ∧ ∀ k, k ∈ (foldl step1 [] dn).*1 ↔ k ∈ [] ∨ k ∈ node_id <$> dn)
    as [Hok1 Hk1].
  { apply (foldl_nodes_ok (dn ++ sn) step1).
    - intros d x. apply setitem_ok.
    - intros d x k. apply elem_of_setitem_keys.
    - intros x Hx. apply elem_of_app. by left.
    - split; [constructor|]. intros k v Hkv. by apply elem_of_nil in Hkv. }
  assert (node_dict_ok (dn ++ sn) (foldl step2 (foldl step1 [] dn) sn)
          ∧ ∀ k, k ∈ (foldl step2 (foldl step1 [] dn) sn).*1
                 ↔ k ∈ (foldl step1 [] dn).*1 ∨ k ∈ node_id <$> sn)
    as [Hok2 Hk2].
  { apply (foldl_nodes_ok (dn ++ sn) step2).
    - intros d x Hx Hd. unfold step2.
      destruct (Py.contains (node_id x) d); [done | by apply setitem_ok].
    - intros d x k. unfold step2, Py.contains. case_bool_decide as Hin.
      + split; [by right | by intros [->|?]].
      + apply elem_of_setitem_keys.
    - intros x Hx. apply elem_of_app. by right.
    - done. }
  split; [done|]. intros k. rewrite Hk2, Hk1, fmap_app, elem_of_app.
  rewrite elem_of_nil. tauto.
Qed.

(** *** Largest and smallest similarity *)

(** *** Normalisation *)

Lemma normalize_Ok mn mx x :
  ¬ mx == mn → normalize mn mx x = Ok (normalized_value mn mx x).
Proof.
  intros Hne. unfold normalize, Py.truediv.
  destruct (Qeq_bool (Py.sub mx mn) 0) eqn:E; [|done].
  apply Qeq_bool_iff in E. rewrite sub_correct in E. exfalso. apply Hne. lra.
Qed.

Lemma normalize_Raise mn mx x :
  mx == mn → normalize mn mx x = Raise ZeroDivisionError.
Proof.
  intros Heq. unfold normalize, Py.truediv.
  destruct (Qeq_bool (Py.sub mx mn) 0) eqn:E; [done|].
  apply Qeq_bool_neq in E. rewrite sub_correct in E. exfalso. apply E. lra.
Qed.

Lemma mapM_result_cons {A B} (f : A → result B) (x : A) (l : list A) :
  mapM f (x :: l) = y ← f x; k ← mapM f l; mret (y :: k).
Proof. reflexivity. Qed.

Lemma mapM_normalize_Ok mn mx (l : list Q) :
  ¬ mx == mn → mapM (normalize mn mx) l = Ok (normalized_value mn mx <$> l).
Proof.
  intros Hne. induction l as [|x l IH]; [done|].
  by rewrite mapM_result_cons, normalize_Ok, IH.
Qed.

Lemma mapM_normalize_Raise mn mx (l : list Q) :
  l ≠ [] → mx == mn → mapM (normalize mn mx) l = Raise ZeroDivisionError.
Proof.
  intros Hl Heq. destruct l as [|x l]; [done|].
  by rewrite mapM_result_cons, normalize_Raise.
Qed.

(** The three ways in which the normalisation of one side ends. *)
Lemma normalized_per_node_cases (result_tuples : list (Q * BaseNode)) :
  (result_tuples = [] ∧ normalized_per_node result_tuples = Raise ValueError)
  ∨ ∃ mn mx,
      result_tuples ≠ []
      ∧ Py.max result_tuples.*1 = Ok mx ∧ Py.min result_tuples.*1 = Ok mn
      ∧ ((mx == mn ∧ normalized_per_node result_tuples = Raise ZeroDivisionError)
         ∨ (¬ mx == mn
            ∧ normalized_per_node result_tuples
              = Ok (per_node result_tuples
                      (normalized_value mn mx <$> result_tuples.*1)))).
Proof.
  destruct result_tuples as [|t l]; [by left|]. right.
  destruct (max_is_Ok ((t :: l).*1)) as [mx Hmx]; [done|].
  destruct (min_is_Ok ((t :: l).*1)) as [mn Hmn]; [done|].
  exists mn, mx. split; [done|]. split; [done|]. split; [done|].
  unfold normalized_per_node. rewrite Hmx, Hmn. cbn -[mapM].
  destruct (Qeq_dec mx mn) as [Heq|Hne].
  - left. split; [done|]. by rewrite mapM_normalize_Raise.
  - right. split; [done|]. by rewrite mapM_normalize_Ok.
Qed.

(** *** The per-node dicts *)

Lemma last_occurrence {A} (f : A → string) (l : list A) (k : string) :
  k ∈ f <$> l → ∃ l1 t l2, l = l1 ++ t :: l2 ∧ f t = k ∧ k ∉ (f <$> l2).
Proof.
  induction l as [|t l IH]; intros Hk.
  - by apply elem_of_nil in Hk.
  - destruct (decide (k ∈ f <$> l)) as [Hin|Hnin].
    + destruct (IH Hin) as (l1 & t' & l2 & -> & ? & ?).
      by exists (t :: l1), t', l2.
    + apply elem_of_cons in Hk as [->|?]; [|done]. by exists [], t, l.
Qed.

(** *** The fused list and the answer *)

Lemma fused_similarities_Ok dn ds sn ss alpha fused :
  fused_similarities dn ds sn ss alpha = Ok fused ↔
  ∃ sparse_per_node dense_per_node,
    normalized_per_node (Py.sort_reverse (zip ss sn)) = Ok sparse_per_node
    ∧ normalized_per_node (Py.sort_reverse (zip ds dn)) = Ok dense_per_node
    ∧ fused = fuse_the_scores alpha (all_nodes_dict dn sn)
                sparse_per_node dense_per_node.
Proof.
  unfold fused_similarities. split.
  - intros (sp & Hsp & (dp & Hdp & [= <-])%result_bind_Ok)%result_bind_Ok.
    by exists sp, dp.
  - intros (sp & dp & -> & -> & ->). done.
Qed.

Lemma relative_score_fusion_Ok d s alpha top_k r :
  relative_score_fusion d s alpha top_k = Ok r ↔
  ∃ dn ds sn ss fused,
    nodes d = Some dn ∧ similarities d = Some ds
    ∧ nodes s = Some sn ∧ similarities s = Some ss
    ∧ fused_similarities dn ds sn ss alpha = Ok fused
    ∧ r = make_result (Py.slice_to top_k (Py.sort_reverse fused)).
Proof.
  unfold relative_score_fusion. split.
  - intros (dn & Hdn%assert_not_none_Ok & (ds & Hds%assert_not_none_Ok
      & (sn & Hsn%assert_not_none_Ok & (ss & Hss%assert_not_none_Ok
      & (fused & Hfused & [= <-])%result_bind_Ok)%result_bind_Ok)%result_bind_Ok)
      %result_bind_Ok)%result_bind_Ok.
    by exists dn, ds, sn, ss, fused.
  - intros (dn & ds & sn & ss & fused & -> & -> & -> & -> & Hfused & ->).
    cbn. by rewrite Hfused.
Qed.

Lemma fuse_the_scores_nodes alpha all sp dp :
  (fuse_the_scores alpha all sp dp).*2 = all.*2.
Proof. unfold fuse_the_scores. by rewrite <- list_fmap_compose. Qed.

Lemma fuse_the_scores_ids pool alpha all sp dp :
  node_dict_ok pool all →
  (λ x, node_id x.2) <$> fuse_the_scores alpha all sp dp = all.*1.
Proof.
  intros [_ Hall]. unfold fuse_the_scores. rewrite <- list_fmap_compose.
  apply list_fmap_ext. intros i [k v] Hi. simpl.
  apply list_elem_of_lookup_2 in Hi. by apply Hall in Hi as [? _].
Qed.

Lemma elem_of_slice_to {A} (k : Z) (l : list A) (x : A) :
  x ∈ Py.slice_to k l → x ∈ l.
Proof.
  destruct (slice_to_take k l) as [n ->]. intros Hx.
  eapply elem_of_sublist; [done | apply sublist_take].
Qed.

Lemma normalized_per_node_is_Ok sims ns :
  two_distinct (zip sims ns).*1 →
  ∃ m, normalized_per_node (Py.sort_reverse (zip sims ns)) = Ok m.
Proof.
  intros (x & y & Hx & Hy & Hxy).
  assert ((Py.sort_reverse (zip sims ns)).*1 ≡ₚ (zip sims ns).*1) as Hp
    by (by rewrite sort_reverse_Permutation).
  destruct (normalized_per_node_cases (Py.sort_reverse (zip sims ns)))
    as [[Hnil _]|(mn & mx & _ & Hmx & Hmn & [[Heq _]|[_ ->]])].
  - rewrite Hnil in Hp. apply Permutation_nil_l in Hp. rewrite <- Hp in Hx.
    by apply elem_of_nil in Hx.
  - exfalso. apply Hxy. rewrite <- Hp in Hx, Hy.
    apply max_Ok in Hmx as [_ Hub]. apply min_Ok in Hmn as [_ Hlb].
    pose proof (Hub x Hx). pose proof (Hub y Hy).
    pose proof (Hlb x Hx). pose proof (Hlb y Hy). lra.
  - by eexists.
Qed.

Lemma normalized_per_node_zero_division sims ns :
  zip sims ns ≠ [] → all_equal (zip sims ns).*1 →
  normalized_per_node (Py.sort_reverse (zip sims ns)) = Raise ZeroDivisionError.
Proof.
  intros Hne Heq.
  assert ((Py.sort_reverse (zip sims ns)).*1 ≡ₚ (zip sims ns).*1) as Hp
    by (by rewrite sort_reverse_Permutation).
  destruct (normalized_per_node_cases (Py.sort_reverse (zip sims ns)))
    as [[Hnil _]|(mn & mx & _ & Hmx & Hmn & [[_ ->]|[Hd _]])]; [|done|].
  - by apply sort_reverse_nil_inv in Hnil.
  - exfalso. apply Hd. apply max_Ok in Hmx as [Hmx _].
    apply min_Ok in Hmn as [Hmn _]. rewrite Hp in Hmx, Hmn. by apply Heq.
Qed.

Lemma normalized_per_node_Ok_inv sims ns m :
  normalized_per_node (Py.sort_reverse (zip sims ns)) = Ok m →
  two_distinct (zip sims ns).*1.
Proof.
  assert ((Py.sort_reverse (zip sims ns)).*1 ≡ₚ (zip sims ns).*1) as Hp
    by (by rewrite sort_reverse_Permutation).
  destruct (normalized_per_node_cases (Py.sort_reverse (zip sims ns)))
    as [[_ ->]|(mn & mx & _ & Hmx & Hmn & [[_ ->]|[Hd _]])]; [done..|].
  intros _. apply max_Ok in Hmx as [Hmx _]. apply min_Ok in Hmn as [Hmn _].
  rewrite Hp in Hmx, Hmn. by exists mx, mn.
Qed.

Lemma normalized_per_node_empty (sims : list Q) (ns : list BaseNode) :
  zip sims ns = [] →
  normalized_per_node (Py.sort_reverse (zip sims ns)) = Raise ValueError.
Proof. by intros ->. Qed.

(** A list of similarities is empty, or constant, or has two distinct
    values. *)
Lemma similarities_trichotomy (l : list Q) :
  l = [] ∨ (l ≠ [] ∧ all_equal l) ∨ two_distinct l.
Proof.
  destruct l as [|a l]; [by left|]. right.
  destruct (Forall_Exists_dec (λ x, x == a) (λ x, ¬ x == a)
              (λ x, Qeq_dec x a) l) as [Hall|Hex].
  - left. split; [done|]. intros x y Hx Hy.
    assert (∀ z, z ∈ a :: l → z == a) as Ha.
    { intros z [->|Hz]%elem_of_cons; [reflexivity|].
      by eapply (proj1 (Forall_forall _ _) Hall). }
    rewrite (Ha x Hx), (Ha y Hy). reflexivity.
  - right. apply Exists_exists in Hex as (x & Hx & Hne).
    exists x, a. split; [by right|]. split; [by left | done].
Qed.

(** X1: [relative_score_fusion] returns exactly when no field is [None] and
    each side has two distinct similarities among those paired with a
    node. *)
Lemma fusion_returns_iff d s alpha top_k :
  (∃ r, relative_score_fusion d s alpha top_k = Ok r) ↔
  ∃ dn ds sn ss,
    nodes d = Some dn ∧ similarities d = Some ds
    ∧ nodes s = Some sn ∧ similarities s = Some ss
    ∧ two_distinct (zip ss sn).*1 ∧ two_distinct (zip ds dn).*1.
Proof.
  split.
  - intros (r & (dn & ds & sn & ss & fused & Hdn & Hds & Hsn & Hss & Hfused & _)
      %relative_score_fusion_Ok).
    apply fused_similarities_Ok in Hfused as (sp & dp & Hsp & Hdp & _).
    exists dn, ds, sn, ss. repeat (split; [done|]).
    split; by eapply normalized_per_node_Ok_inv.
  - intros (dn & ds & sn & ss & Hdn & Hds & Hsn & Hss & Hsparse & Hdense).
    destruct (normalized_per_node_is_Ok ss sn Hsparse) as [sp Hsp].
    destruct (normalized_per_node_is_Ok ds dn Hdense) as [dp Hdp].
    eexists. apply relative_score_fusion_Ok. exists dn, ds, sn, ss.
    eexists. repeat (split; [done|]). split; [|done].
    apply fused_similarities_Ok. by exists sp, dp.
Qed.


Lemma fused_similarities_Raise dn ds sn ss alpha e :
  fused_similarities dn ds sn ss alpha = Raise e →
  e = ValueError ∨ e = ZeroDivisionError.
Proof.
  unfold fused_similarities. intros [H|(sp & _ & [H|(? & _ & [=])]
    %result_bind_Raise)]%result_bind_Raise.
  - destruct (normalized_per_node_cases (Py.sort_reverse (zip ss sn)))
      as [[_ H']|(? & ? & _ & _ & _ & [[_ H']|[_ H']])];
      rewrite H' in H; naive_solver.
  - destruct (normalized_per_node_cases (Py.sort_reverse (zip ds dn)))
      as [[_ H']|(? & ? & _ & _ & _ & [[_ H']|[_ H']])];
      rewrite H' in H; naive_solver.
Qed.

(** *** Fused scores *)

Lemma fused_similarities_ids dn ds sn ss alpha fused :
  fused_similarities dn ds sn ss alpha = Ok fused →
  NoDup ((λ x, node_id x.2) <$> fused)
  ∧ ∀ id, id ∈ (λ x, node_id x.2) <$> fused ↔ id ∈ node_id <$> (dn ++ sn).
Proof.
  intros (sp & dp & _ & _ & ->)%fused_similarities_Ok.
  destruct (all_nodes_dict_spec dn sn) as [Hall Hkeys].
  rewrite (fuse_the_scores_ids (dn ++ sn)) by done. split; [apply Hall | done].
Qed.

Example sample_fusion :
  relative_score_fusion sample_dense sample_sparse (1 # 2) 2
  = Ok {| nodes := Some [node_a; node_b];
          similarities := Some [1 # 2; 1 # 2];
          ids := Some ["a"; "b"] |}.
Proof. reflexivity. Qed.

(** Two distinct similarities, of which [zip] drops the second: the one
    pair left makes the normalisation divide by zero. *)
Example unpaired_fusion :
  relative_score_fusion unpaired unpaired (1 # 2) 2 = Raise ZeroDivisionError.
Proof. reflexivity. Qed.

(** An empty result makes [max] fail. *)
Example empty_fusion :
  relative_score_fusion sample_dense (query_result [] []) (1 # 2) 2
  = Raise ValueError.
Proof. reflexivity. Qed.

(** C8: [relative_score_fusion] raises [ZeroDivisionError] on valid input:
    whenever the sparse similarities that are paired with a node are not
    empty and all equal (a single retrieved node, say), and likewise when the
    sparse side has two distinct values and it is the dense side that is not
    empty and all equal; the normalisation divides by max - min unguarded. *)
Theorem fusion_zero_division d s alpha top_k dn ds sn ss :
  nodes d = Some dn → similarities d = Some ds →
  nodes s = Some sn → similarities s = Some ss →
  (zip ss sn ≠ [] ∧ all_equal (zip ss sn).*1)
  ∨ (two_distinct (zip ss sn).*1
     ∧ zip ds dn ≠ [] ∧ all_equal (zip ds dn).*1) →
  relative_score_fusion d s alpha top_k = Raise ZeroDivisionError.
Proof.
  intros Hdn Hds Hsn Hss Hcase. unfold relative_score_fusion.
  rewrite Hdn, Hds, Hsn, Hss. cbn. unfold fused_similarities.
  destruct Hcase as [[Hne Heq]|(Hsparse & Hne & Heq)].
  - by rewrite (normalized_per_node_zero_division ss sn Hne Heq).
  - destruct (normalized_per_node_is_Ok ss sn Hsparse) as [sp ->]. cbn.
    by rewrite (normalized_per_node_zero_division ds dn Hne Heq).
Qed.

Lemma fusion_zero_division_witness :
  relative_score_fusion sample_dense single_hit (1 # 2) 2
  = Raise ZeroDivisionError.
Proof.
  apply (fusion_zero_division sample_dense single_hit (1 # 2) 2
           [node_a; node_b] [3; 1] [node_a] [3]); try reflexivity.
  left. split; [done|].
  intros x y ->%list_elem_of_singleton ->%list_elem_of_singleton. reflexivity.
Defined.

(** The same on the dense side. *)
Example dense_single_hit_fusion :
  relative_score_fusion single_hit sample_sparse (1 # 2) 2
  = Raise ZeroDivisionError.
Proof. reflexivity. Qed.

(** C6, as amended: the one precondition that the code checks is that of
    [relative_score_fusion] on its two results: it raises [AssertionError]
    exactly when [nodes] or [similarities] of the dense or of the sparse
    result is [None]. *)
Theorem fusion_assertion_iff d s alpha top_k :
  relative_score_fusion d s alpha top_k = Raise AssertionError ↔
  nodes d = None ∨ similarities d = None
  ∨ nodes s = None ∨ similarities s = None.
Proof.
  unfold relative_score_fusion.
  destruct (nodes d) as [dn|]; cbn; [|by split; [left|]].
  destruct (similarities d) as [ds|]; cbn; [|by split; [right; left|]].
  destruct (nodes s) as [sn|]; cbn; [|by split; [right; right; left|]].
  destruct (similarities s) as [ss|]; cbn; [|by split; [right; right; right|]].
  split; [|naive_solver].
  destruct (fused_similarities dn ds sn ss alpha) as [fused|e] eqn:E; cbn;
    [done|].
  intros [= ->]. apply fused_similarities_Raise in E. naive_solver.
Qed.

(** C6 as stated fails: a result without nodes is rejected by the first
    sanity check. *)
Lemma fusion_asserts_nodes :
  relative_score_fusion no_nodes sample_sparse (1 # 2) 2 = Raise AssertionError.
Proof. reflexivity. Qed.

End FusionFacts.

(** ** Facts about [GetTrustworthinessScore.handle] *)

Section HandlerFacts.

Import Handler.
Local Open Scope list_scope.

(** C10, as amended: [handle] changes the handler only on completion-end
    events.  On any other event it returns with the store as it was.  On an
    [LLMCompletionEndEvent] whose [additional_kwargs] has the key
    ["trustworthiness_score"] it stores that value in the field of [self]
    (and of no other instance) and appends the event to the shared [events].
    On one without the key it raises [KeyError] and changes nothing. *)
Theorem handle_effect (self : nat) (event : BaseEvent) (σ : store) :
  match event with
  | LLMCompletionEndEvent _ response =>
      match additional_kwargs response !! "trustworthiness_score" with
      | Some score =>
          ∃ σ', handle self event σ = (Ok (), σ')
                ∧ trustworthiness_score σ' !! self = Some score
                ∧ (∀ other, other ≠ self →
                     trustworthiness_score σ' !! other
                     = trustworthiness_score σ !! other)
                ∧ events σ' = events σ ++ [event]
      | None =>
          handle self event σ = (Raise (KeyError "trustworthiness_score"), σ)
      end
  | _ => handle self event σ = (Ok (), σ)
  end.
Proof.
  destruct event as [prompt|prompt response|query]; [done| |done].
  unfold handle, getitem.
  destruct (additional_kwargs response !! "trustworthiness_score")
    as [score|]; [|done].
  eexists. split; [reflexivity|]. simpl. split; [apply lookup_insert_eq|].
  split; [|done]. intros other Hother. by apply lookup_insert_ne.
Qed.

(** C10 as stated fails for a completion-end event that carries no score:
    [handle] raises, the event is not appended and the score stays. *)
Lemma handle_unscored_completion :
  handle 0 plain_event sample_store
  = (Raise (KeyError "trustworthiness_score"), sample_store).
Proof. reflexivity. Qed.

Example handle_scored_completion :
  handle 0 tlm_event sample_store
  = (Ok (),
     {| events := [QueryEndEvent "earlier"; tlm_event];
        trustworthiness_score :=
          <[0%nat := Float (99 # 100)]> (trustworthiness_score sample_store) |}).
Proof. reflexivity. Qed.

End HandlerFacts.

(** ** Facts about the agent notebook and the embeddings notebook *)

Section AgentFacts.

Import Agent.

Lemma stateful_bind_Ok {S A B} (m : stateful S A) (f : A → stateful S B) σ a σ' :
  m σ = (Ok a, σ') → (m ≫= f) σ = f a σ'.
Proof. intros H. unfold mbind, stateful_bind. by rewrite H. Qed.

Lemma stateful_bind_Raise {S A B} (m : stateful S A) (f : A → stateful S B) σ e σ' :
  m σ = (Raise e, σ') → (m ≫= f) σ = (Raise e, σ').
Proof. intros H. unfold mbind, stateful_bind. by rewrite H. Qed.

(** Loading one index: it binds the index when both calls answer, and
    raises what the failing call raised otherwise. *)
Lemma load_index_spec api dir set_index g :
  (∃ sc index,
     StorageContext_from_defaults api dir = Ok sc
     ∧ load_index_from_storage api sc = Ok index
     ∧ load_index api dir set_index g
       = (Ok (), set_index index (set_storage_context sc g)))
  ∨ (¬ loads api dir ∧ ∃ e g', load_index api dir set_index g = (Raise e, g')).
Proof.
  unfold load_index, loads.
  destruct (StorageContext_from_defaults api dir) as [sc|e] eqn:Hsc.
  - destruct (load_index_from_storage api sc) as [index|e] eqn:Hindex.
    + left. exists sc, index. split; [done|]. split; [done|].
      unfold mbind, stateful_bind, call, modify, read. simpl. by rewrite Hindex.
    + right. split; [intros (? & ? & [= <-] & ?); congruence|].
      exists e, (set_storage_context sc g).
      unfold mbind, stateful_bind, call, modify, read. simpl. by rewrite Hindex.
  - right. split; [by intros (? & ? & [=] & _)|]. by exists e, g.
Qed.

Lemma index_loading_cell_spec api g :
  ∃ g', index_loading_cell api g = (Ok (), g')
        ∧ (index_loaded g' = Some true ↔
           loads api "./storage/march" ∧ loads api "./storage/june"
           ∧ loads api "./storage/sept")
        ∧ (index_loaded g' = Some true ∨ index_loaded g' = Some false).
Proof.
  unfold index_loading_cell, try_except.
  destruct (load_index_spec api "./storage/march" set_march_index g)
    as [(sc1 & i1 & Hsc1 & Hi1 & H1)|(Hn1 & e1 & g1 & H1)].
  2:{ rewrite (stateful_bind_Raise _ _ _ _ _ H1). eexists. split; [done|].
      simpl. split; [|by right]. split; [done | tauto]. }
  rewrite (stateful_bind_Ok _ _ _ _ _ H1).
  destruct (load_index_spec api "./storage/june" set_june_index
              (set_march_index i1 (set_storage_context sc1 g)))
    as [(sc2 & i2 & Hsc2 & Hi2 & H2)|(Hn2 & e2 & g2 & H2)].
  2:{ rewrite (stateful_bind_Raise _ _ _ _ _ H2). eexists. split; [done|].
      simpl. split; [|by right]. split; [done | tauto]. }
  rewrite (stateful_bind_Ok _ _ _ _ _ H2).
  destruct (load_index_spec api "./storage/sept" set_sept_index
              (set_june_index i2 (set_storage_context sc2
                 (set_march_index i1 (set_storage_context sc1 g)))))
    as [(sc3 & i3 & Hsc3 & Hi3 & H3)|(Hn3 & e3 & g3 & H3)].
  2:{ rewrite (stateful_bind_Raise _ _ _ _ _ H3). eexists. split; [done|].
      simpl. split; [|by right]. split; [done | tauto]. }
  rewrite (stateful_bind_Ok _ _ _ _ _ H3).
  eexists. split; [done|]. simpl. split; [|by left]. split; [|done].
  intros _. unfold loads.
  split; [by exists sc1, i1|]. split; [by exists sc2, i2 | by exists sc3, i3].
Qed.

(** Entered with [index_loaded = False], the index-building cell ends as the
    bare sequence of its SDK calls does: nothing is caught. *)
Lemma index_building_cell_uncaught api g :
  index_loaded g = Some false →
  (index_building_cell api g).1 = build_calls api.
Proof.
  intros Hloaded.
  unfold index_building_cell, build_calls, mbind, stateful_bind, result_bind,
    read, call, modify.
  rewrite Hloaded. simpl.
  repeat (match goal with
          | |- context [SimpleDirectoryReader_load_data api ?x] =>
              destruct (SimpleDirectoryReader_load_data api x); simpl
          | |- context [VectorStoreIndex_from_documents api ?x] =>
              destruct (VectorStoreIndex_from_documents api x); simpl
          | |- context [storage_context_persist api ?x ?y] =>
              destruct (storage_context_persist api x y); simpl
          end); done.
Qed.

Lemma index_building_cell_skipped api g :
  index_loaded g = Some true → index_building_cell api g = (Ok (), g).
Proof.
  intros Hloaded.
  unfold index_building_cell, mbind, stateful_bind, read. by rewrite Hloaded.
Qed.

(** What a run of [get_agent_with_context_awareness] shows. *)
Lemma run_get_agent_with_context_awareness h query retriever tools :
  run h (get_agent_with_context_awareness query retriever tools)
  = match answer_aretrieve h retriever query with
    | Ok context_nodes =>
        {| value :=
             Ok {| Agent.tools := tools;
                   llm := "gpt-4o";
                   system_prompt :=
                     system_prompt_template_format
                       (String.concat (nl ++ "----" ++ nl)
                          ((λ n, node_text (node n)) <$> context_nodes)) |};
           calls := [aretrieve retriever query];
           stdout := [] |}
    | Raise e => raised (aretrieve retriever query) e
    end.
Proof. simpl. by destruct (answer_aretrieve h retriever query). Qed.

Lemma run_main h :
  run h main
  = match answer_aget_text_embedding h "hello world" with
    | Ok async_response =>
        {| value := Ok ();
           calls := [aget_text_embedding "hello world"];
           stdout := [printed_embedding async_response] |}
    | Raise e => raised (aget_text_embedding "hello world") e
    end.
Proof. simpl. by destruct (answer_aget_text_embedding h "hello world"). Qed.

(** C1, as amended: the index-loading cell catches whatever its SDK calls
    raise: it always completes, with [index_loaded] telling whether all
    three indexes could be loaded, so that the next cell rebuilds them when
    not.  Nothing else is caught: the index-building cell ends as the bare
    sequence of its SDK calls does, and the asynchronous functions end with
    the exception of the call they await. *)
Theorem failures_caught_only_by_index_loading api g :
  (∃ g', index_loading_cell api g = (Ok (), g')
         ∧ (index_loaded g' = Some true ↔
            loads api "./storage/march" ∧ loads api "./storage/june"
            ∧ loads api "./storage/sept")
         ∧ (index_loaded g' = Some true ∨ index_loaded g' = Some false))
  ∧ (index_loaded g = Some false →
     (index_building_cell api g).1 = build_calls api)
  ∧ (∀ h query retriever tools e,
       answer_aretrieve h retriever query = Raise e →
       value (run h (get_agent_with_context_awareness query retriever tools))
       = Raise e)
  ∧ (∀ h e, answer_aget_text_embedding h "hello world" = Raise e →
            value (run h main) = Raise e).
Proof.
  split; [apply index_loading_cell_spec|].
  split; [apply index_building_cell_uncaught|]. split.
  - intros h query retriever tools e He.
    by rewrite run_get_agent_with_context_awareness, He.
  - intros h e He. by rewrite run_main, He.
Qed.

Lemma failures_caught_only_by_index_loading_witness :
  (index_building_cell service_down (set_index_loaded false unbound)).1
  = Raise (SdkError "APIConnectionError")
  ∧ value (run hosted_down main) = Raise (SdkError "APIConnectionError").
Proof.
  destruct (failures_caught_only_by_index_loading service_down
              (set_index_loaded false unbound)) as (_ & Hbuild & _ & Hmain).
  split.
  - rewrite Hbuild; reflexivity.
  - apply Hmain. reflexivity.
Defined.

(** C1 as stated fails: on a first run [StorageContext.from_defaults] raises,
    the bare [except] catches the exception, the cell completes with
    [index_loaded = False], and the next cell takes the branch that builds
    the indexes. *)
Lemma index_loading_cell_catches :
  StorageContext_from_defaults first_run "./storage/march"
  = Raise (SdkError "FileNotFoundError")
  ∧ index_loading_cell first_run unbound = (Ok (), set_index_loaded false unbound)
  ∧ ∃ g', index_building_cell first_run (set_index_loaded false unbound) = (Ok (), g')
          ∧ march_index g' = Some {| index_name := "built" |}.
Proof. split; [done|]. split; [done|]. eexists. split; reflexivity. Qed.

Example index_loading_cell_later_run :
  ∃ g', index_loading_cell later_run unbound = (Ok (), g')
        ∧ index_loaded g' = Some true
        ∧ index_building_cell later_run g' = (Ok (), g').
Proof. eexists. split; [reflexivity|]. split; reflexivity. Qed.

(** [main] awaits one call and prints what the call answered, unchanged. *)
Lemma main_is_pass_through :
  simple_pass_through main (aget_text_embedding "hello world").
Proof.
  split.
  - intros h. rewrite run_main.
    by destruct (answer_aget_text_embedding h "hello world").
  - intros h h'. rewrite !run_main. simpl.
    destruct (answer_aget_text_embedding h "hello world"),
      (answer_aget_text_embedding h' "hello world"); simpl;
      split; intros [=]; by subst.
Qed.

(** C7, as amended: every [await] of the notebooks' own asynchronous code
    issues one SDK call, with the arguments it was given, and nothing else:
    there is no retry and no batching, and an exception of the call ends the
    coroutine.  [main] is a simple pass-through: it prints what the call
    answered.  [get_agent_with_context_awareness] is not: from the retrieved
    nodes it keeps the texts, joins them with a separator line, puts them in
    the system prompt template and returns an agent with that prompt. *)
Theorem awaits_issue_one_call :
  simple_pass_through main (aget_text_embedding "hello world")
  ∧ ∀ h query retriever tools,
      calls (run h (get_agent_with_context_awareness query retriever tools))
      = [aretrieve retriever query]
      ∧ stdout (run h (get_agent_with_context_awareness query retriever tools))
        = []
      ∧ value (run h (get_agent_with_context_awareness query retriever tools))
        = (λ context_nodes,
             {| Agent.tools := tools;
                llm := "gpt-4o";
                system_prompt :=
                  system_prompt_template_format
                    (String.concat (nl ++ "----" ++ nl)
                       ((λ n, node_text (node n)) <$> context_nodes)) |})
          <$> answer_aretrieve h retriever query.
Proof.
  split; [apply main_is_pass_through|].
  intros h query retriever tools. rewrite run_get_agent_with_context_awareness.
  by destruct (answer_aretrieve h retriever query).
Qed.

(** C7 as stated fails for [get_agent_with_context_awareness]: awaiting it
    is not equivalent to awaiting any SDK call.  Two answers of the
    retriever that differ in the scores of the nodes lead to the same
    agent. *)
Lemma get_agent_is_not_pass_through :
  answer_of hosted_a (aretrieve sample_retriever sample_query)
  ≠ answer_of hosted_b (aretrieve sample_retriever sample_query)
  ∧ run hosted_a (get_agent_with_context_awareness sample_query
                    sample_retriever sample_tools)
    = run hosted_b (get_agent_with_context_awareness sample_query
                      sample_retriever sample_tools)
  ∧ ¬ ∃ c, simple_pass_through
             (get_agent_with_context_awareness sample_query sample_retriever
                sample_tools) c.
Proof.
  split; [done|]. split; [done|]. intros (c & Hcalls & Hequiv).
  specialize (Hcalls hosted_a). injection Hcalls as <-.
  specialize (Hequiv hosted_a hosted_b). destruct Hequiv as [Hsame _].
  specialize (Hsame eq_refl). discriminate Hsame.
Qed.

End AgentFacts.

(** ** More on [relative_score_fusion] *)

Section FusionBehaviour.

Import Fusion.
Local Open Scope list_scope.
Local Open Scope Q_scope.

(** X3: [relative_score_fusion] raises [ZeroDivisionError] exactly when no
    field is [None] and the paired sparse similarities are not empty and all
    equal, or the sparse side has two distinct similarities and the paired
    dense similarities are not empty and all equal. *)
Theorem zero_division_exactly_when_constant d s alpha top_k :
  relative_score_fusion d s alpha top_k = Raise ZeroDivisionError ↔
  ∃ dn ds sn ss,
    nodes d = Some dn ∧ similarities d = Some ds
    ∧ nodes s = Some sn ∧ similarities s = Some ss
    ∧ ((zip ss sn ≠ [] ∧ all_equal (zip ss sn).*1)
       ∨ (two_distinct (zip ss sn).*1
          ∧ zip ds dn ≠ [] ∧ all_equal (zip ds dn).*1)).
Proof.
  unfold relative_score_fusion. split.
  - destruct (nodes d) as [dn|]; [|done].
    destruct (similarities d) as [ds|]; [|done].
    destruct (nodes s) as [sn|]; [|done].
    destruct (similarities s) as [ss|]; [|done]. cbn.
    intros H. exists dn, ds, sn, ss. repeat (split; [done|]).
    unfold fused_similarities in H.
    destruct (similarities_trichotomy (zip ss sn).*1) as [Hnil|[[Hne Heq]|Htwo]].
    + apply fmap_nil_inv in Hnil.
      by rewrite (normalized_per_node_empty ss sn Hnil) in H.
    + left. split; [|done]. intros Hnil. by rewrite Hnil in Hne.
    + right. split; [done|].
      destruct (normalized_per_node_is_Ok ss sn Htwo) as [sp Hsp].
      rewrite Hsp in H. cbn in H.
      destruct (similarities_trichotomy (zip ds dn).*1)
        as [Hnil|[[Hne Heq]|Htwo']].
      * apply fmap_nil_inv in Hnil.
        by rewrite (normalized_per_node_empty ds dn Hnil) in H.
      * split; [|done]. intros Hnil. by rewrite Hnil in Hne.
      * destruct (normalized_per_node_is_Ok ds dn Htwo') as [dp Hdp].
        by rewrite Hdp in H.
  - intros (dn & ds & sn & ss & -> & -> & -> & -> & Hcase). cbn.
    unfold fused_similarities.
    destruct Hcase as [[Hne Heq]|(Htwo & Hne & Heq)].
    + by rewrite (normalized_per_node_zero_division ss sn Hne Heq).
    + destruct (normalized_per_node_is_Ok ss sn Htwo) as [sp ->]. cbn.
      by rewrite (normalized_per_node_zero_division ds dn Hne Heq).
Qed.

Lemma slice_to_length_eq {A} (k : Z) (l : list A) :
  Z.of_nat (length (Py.slice_to k l))
  = if (k <? 0)%Z then Z.max 0 (Z.of_nat (length l) + k)
    else Z.min k (Z.of_nat (length l)).
Proof.
  unfold Py.slice_to. destruct (Z.ltb_spec k 0); rewrite length_take; lia.
Qed.

(** X5: the answer has as many nodes as there are distinct node ids in the
    two results, cut to [top_k]; a negative [top_k] drops that many from the
    end instead. *)
Theorem fusion_result_length d s alpha top_k r ns dn sn :
  relative_score_fusion d s alpha top_k = Ok r →
  nodes r = Some ns → nodes d = Some dn → nodes s = Some sn →
  Z.of_nat (length ns)
  = if (top_k <? 0)%Z
    then Z.max 0 (Z.of_nat (length (remove_dups (node_id <$> (dn ++ sn)))) + top_k)
    else Z.min top_k (Z.of_nat (length (remove_dups (node_id <$> (dn ++ sn))))).
Proof.
  intros (dn' & ds' & sn' & ss' & fused & Hdn & Hds & Hsn & Hss & Hfused & ->)
    %relative_score_fusion_Ok [= <-] Hdn' Hsn'.
  assert (dn' = dn) as -> by congruence. assert (sn' = sn) as -> by congruence.
  destruct (fused_similarities_ids _ _ _ _ _ _ Hfused) as [Hnd Hids].
  assert (length (remove_dups (node_id <$> (dn ++ sn)))
          = length (Py.sort_reverse fused)) as ->.
  { rewrite sort_reverse_Permutation.
    rewrite <- (length_fmap (λ x : Q * BaseNode, node_id x.2) fused).
    apply Permutation_length, NoDup_Permutation;
      [apply NoDup_remove_dups | done |].
    intros id. by rewrite elem_of_remove_dups, Hids. }
  rewrite length_fmap. apply slice_to_length_eq.
Qed.

Lemma fusion_result_length_witness :
  Z.of_nat (length [node_a; node_b])
  = Z.min 2 (Z.of_nat (length (remove_dups
       (node_id <$> ([node_a; node_b] ++ [node_b; node_c; node_a]))))).
Proof.
  apply (fusion_result_length sample_dense sample_sparse (1 # 2) 2
           {| nodes := Some [node_a; node_b];
              similarities := Some [1 # 2; 1 # 2];
              ids := Some ["a"; "b"] |}); reflexivity.
Defined.

Lemma setitem_lookup_eq {V} (k : string) (x v : V) (d : Py.dict V) :
  NoDup d.*1 → (k, v) ∈ Py.setitem k x d → v = x.
Proof.
  induction d as [|[k0 v0] d IH]; simpl.
  - by intros _ [= ->]%list_elem_of_singleton.
  - intros [Hk0 Hd]%NoDup_cons. destruct (decide (k0 = k)) as [->|Hne].
    + intros [[= ->]|Hin]%elem_of_cons; [done|].
      exfalso. apply Hk0. apply list_elem_of_fmap. by exists (k, v).
    + intros [[= <- _]|Hin]%elem_of_cons; [done | by apply IH].
Qed.

(** After the dict comprehension, a key of the list is bound to the last
    node of the list with that id. *)
Lemma foldl_setitem_last (l : list BaseNode) (d : Py.dict BaseNode) k v :
  NoDup d.*1 →
  (k, v) ∈ foldl (λ d x, Py.setitem (node_id x) x d) d l →
  (∃ l1 l2, l = l1 ++ v :: l2 ∧ node_id v = k ∧ k ∉ node_id <$> l2)
  ∨ ((k ∉ node_id <$> l) ∧ (k, v) ∈ d).
Proof.
  revert d. induction l as [|x l IH]; intros d Hd Hin; simpl in *.
  - right. split; [apply not_elem_of_nil | done].
  - destruct (IH _ (setitem_NoDup (node_id x) x d Hd) Hin)
      as [(l1 & l2 & -> & Hv & Hl2)|[Hnin Hin']].
    + left. by exists (x :: l1), l2.
    + destruct (decide (k = node_id x)) as [->|Hne].
      * apply setitem_lookup_eq in Hin' as ->; [|done].
        left. by exists [], l.
      * right. split.
        -- by intros [?|?]%elem_of_cons.
        -- by apply elem_of_setitem in Hin' as [[? _]|?].
Qed.

(** The loop over the sparse nodes leaves the nodes it finds in place. *)
Lemma foldl_sparse_keeps (l : list BaseNode) (d : Py.dict BaseNode) k v :
  (k, v) ∈ foldl (λ d node, if Py.contains (node_id node) d then d
                            else Py.setitem (node_id node) node d) d l →
  (k, v) ∈ d ∨ (k ∉ d.*1).
Proof.
  revert d. induction l as [|x l IH]; intros d Hin; simpl in *; [by left|].
  apply IH in Hin. unfold Py.contains in Hin.
  case_bool_decide as Hx; [done|].
  destruct Hin as [[[-> ->]|Hin]%elem_of_setitem|Hnin].
  - by right.
  - by left.
  - right. intros Hk. apply Hnin. apply elem_of_setitem_keys. by right.
Qed.

(** X6: when both searches found a node id, the node returned for it is the
    one of the dense result, and the last one of the dense nodes with that
    id. *)
Theorem fusion_prefers_dense_node d s alpha top_k r ns dn n :
  relative_score_fusion d s alpha top_k = Ok r →
  nodes r = Some ns → nodes d = Some dn →
  n ∈ ns → node_id n ∈ node_id <$> dn →
  ∃ l1 l2, dn = l1 ++ n :: l2 ∧ (node_id n ∉ node_id <$> l2).
Proof.
  intros (dn' & ds & sn & ss & fused & Hdn & _ & _ & _ & Hfused & ->)
    %relative_score_fusion_Ok [= <-] Hdn' Hn Hid.
  assert (dn' = dn) as -> by congruence.
  apply list_elem_of_fmap in Hn as ([f n'] & -> & Hin%elem_of_slice_to).
  apply (proj1 (elem_of_sort_reverse _ _)) in Hin. simpl in *.
  apply fused_similarities_Ok in Hfused as (sp & dp & _ & _ & ->).
  assert (n' ∈ (fuse_the_scores alpha (all_nodes_dict dn sn) sp dp).*2) as Hn.
  { apply list_elem_of_fmap. by exists (f, n'). }
  rewrite fuse_the_scores_nodes in Hn.
  apply list_elem_of_fmap in Hn as ([k v] & -> & Hkv). simpl in *.
  destruct (all_nodes_dict_spec dn sn) as [[_ Hall] _].
  destruct (Hall _ _ Hkv) as [<- _]. unfold all_nodes_dict in Hkv.
  apply foldl_sparse_keeps in Hkv as [Hkv|Hnin].
  - apply foldl_setitem_last in Hkv as [(l1 & l2 & -> & _ & Hl2)|[_ Hnil]];
      [by exists l1, l2 | by apply elem_of_nil in Hnil | constructor].
  - exfalso. apply Hnin.
    apply (foldl_nodes_ok dn (λ d x, Py.setitem (node_id x) x d)).
    + intros d' x. apply setitem_ok.
    + intros d' x k. apply elem_of_setitem_keys.
    + done.
    + split; [constructor|]. intros k v' Hkv'. by apply elem_of_nil in Hkv'.
    + by right.
Qed.

Lemma fusion_prefers_dense_node_witness :
  ∃ l1 l2, [node_a; node_b] = l1 ++ node_b :: l2 ∧ (node_id node_b ∉ node_id <$> l2).
Proof.
  apply (fusion_prefers_dense_node sample_dense sample_sparse (1 # 2) 2
           {| nodes := Some [node_a; node_b];
              similarities := Some [1 # 2; 1 # 2];
              ids := Some ["a"; "b"] |} [node_a; node_b]); try reflexivity.
  - right. by left.
  - right. by left.
Defined.

Lemma slice_to_fmap {A B} (f : A → B) (k : Z) (l : list A) :
  f <$> Py.slice_to k l = Py.slice_to k (f <$> l).
Proof.
  unfold Py.slice_to. rewrite length_fmap.
  destruct (k <? 0)%Z; by rewrite fmap_take.
Qed.

(** X8: the two searches enter the fused score alike: with the dense and
    the sparse result exchanged, every node id gets the same fused
    similarity. *)
Theorem fused_scores_symmetric dn ds sn ss alpha fused :
  fused_similarities dn ds sn ss alpha = Ok fused →
  ∃ fused',
    fused_similarities sn ss dn ds alpha = Ok fused'
    ∧ ∀ f n, (f, n) ∈ fused →
        ∃ n', (f, n') ∈ fused' ∧ node_id n' = node_id n.
Proof.
  intros (sp & dp & Hsp & Hdp & ->)%fused_similarities_Ok.
  eexists. split.
  { apply fused_similarities_Ok. by exists dp, sp. }
  intros f n ([k v] & [= -> ->] & Hkv)%list_elem_of_fmap. simpl.
  destruct (all_nodes_dict_spec dn sn) as [[_ Hall] Hkeys].
  destruct (all_nodes_dict_spec sn dn) as [[_ Hall'] Hkeys'].
  apply Hall in Hkv as Hv. destruct Hv as [<- _].
  assert (node_id v ∈ (all_nodes_dict sn dn).*1) as Hk.
  { apply Hkeys'. rewrite fmap_app, elem_of_app.
    assert (node_id v ∈ node_id <$> (dn ++ sn)) as Hin.
    { apply Hkeys. apply list_elem_of_fmap. by exists (node_id v, v). }
    rewrite fmap_app, elem_of_app in Hin. tauto. }
  apply list_elem_of_fmap in Hk as ([k' v'] & Hk' & Hkv'). simpl in Hk'.
  apply Hall' in Hkv' as Hv'. destruct Hv' as [<- _].
  exists v'. split; [|done]. apply list_elem_of_fmap.
  exists (node_id v', v'). split; [|done]. simpl. rewrite <- Hk'. f_equal.
  unfold fused_sim, Py.add. f_equal. apply Qred_complete. ring.
Qed.

Lemma fused_scores_symmetric_witness :
  ∃ fused',
    fused_similarities [node_b; node_c; node_a] [4; 2; 0] [node_a; node_b] [3; 1]
      (1 # 2) = Ok fused'
    ∧ ∀ f n, (f, n) ∈ [(1 # 2, node_a); (1 # 2, node_b); (1 # 4, node_c)] →
        ∃ n', (f, n') ∈ fused' ∧ node_id n' = node_id n.
Proof.
  apply (fused_scores_symmetric [node_a; node_b] [3; 1]
           [node_b; node_c; node_a] [4; 2; 0] (1 # 2)).
  reflexivity.
Defined.

(** *** A change of scale *)

(** *** Ties *)

End FusionBehaviour.

(** ** Facts about floats *)

Section FloatFacts.

Import Float.
Local Open Scope list_scope.
Local Open Scope Z_scope.

(** *** Rounding *)

Lemma rne_floor (q : Q) : Qfloor q ≤ rne q ≤ Qfloor q + 1.
Proof. unfold rne. destruct (_ ?= _)%Q; [destruct (Z.even _)|..]; lia. Qed.

Lemma rne_ge (n : Z) (q : Q) : (inject_Z n <= q)%Q → n ≤ rne q.
Proof.
  intros H%Qfloor_resp_le. rewrite Qfloor_Z in H.
  pose proof (rne_floor q). lia.
Qed.

Lemma rne_le (n : Z) (q : Q) : (q <= inject_Z n)%Q → rne q ≤ n.
Proof.
  intros H. pose proof (Qfloor_resp_le _ _ H) as Hf. rewrite Qfloor_Z in Hf.
  destruct (decide (Qfloor q = n)) as [Heq|Hne].
  - unfold rne. rewrite Heq.
    destruct (Qcompare_spec (q - inject_Z n) (1 # 2)) as [E|E|E]; [| lia |];
      pose proof (Qfloor_le q) as Hq; rewrite Heq in Hq; lra.
  - pose proof (rne_floor q). lia.
Qed.

Lemma rne_mono (q q' : Q) : (q <= q')%Q → rne q ≤ rne q'.
Proof.
  intros H. pose proof (Qfloor_resp_le _ _ H) as Hf.
  destruct (decide (Qfloor q = Qfloor q')) as [Heq|Hne].
  - unfold rne. rewrite <- Heq.
    destruct (Qcompare_spec (q - inject_Z (Qfloor q)) (1 # 2)),
      (Qcompare_spec (q' - inject_Z (Qfloor q)) (1 # 2));
      try destruct (Z.even (Qfloor q)); try lia; lra.
  - pose proof (rne_floor q). pose proof (rne_floor q'). lia.
Qed.

Lemma inject_Z_pos (n : Z) : 0 < n → (0 < inject_Z n)%Q.
Proof. intros Hn. change 0%Q with (inject_Z 0). by rewrite <- Zlt_Qlt. Qed.

Lemma inject_Z_nonneg (n : Z) : 0 ≤ n → (0 <= inject_Z n)%Q.
Proof. intros Hn. change 0%Q with (inject_Z 0). by rewrite <- Zle_Qle. Qed.

Lemma inject_Z_pow_pos (k : Z) : 0 ≤ k → (0 < inject_Z (2 ^ k))%Q.
Proof. intros Hk. by apply inject_Z_pos, Z.pow_pos_nonneg. Qed.

Lemma Qdiv_le_mono (q q' c : Q) : (0 < c)%Q → (q <= q')%Q → (q / c <= q' / c)%Q.
Proof.
  intros Hc H. apply Qle_shift_div_l; [done|].
  assert (q / c * c == q)%Q as -> by (field; lra). done.
Qed.

(** Below [2 ^ (k + 53)] a magnitude rounds to at most [2 ^ (k + 53)] ... *)
Lemma round_pos_exponent (q : Q) :
  (0 <= q)%Q →
  let k := Z.max (Z.log2 (Qfloor q) - 52) 0 in
  (q < inject_Z (2 ^ (k + 53)))%Q ∧ (0 < k → (inject_Z (2 ^ (k + 52)) <= q)%Q).
Proof.
  intros Hq k.
  assert (0 ≤ Qfloor q) as Hf.
  { apply Qfloor_resp_le in Hq. exact Hq. }
  split.
  - apply Qlt_le_trans with (inject_Z (Qfloor q + 1)); [apply Qlt_floor|].
    rewrite <- Zle_Qle.
    destruct (decide (Qfloor q = 0)) as [->|Hne].
    + transitivity (2 ^ 0); [simpl; lia|]. apply Z.pow_le_mono_r; lia.
    + destruct (Z.log2_spec (Qfloor q)) as [_ Hlt]; [lia|].
      assert (2 ^ Z.succ (Z.log2 (Qfloor q)) ≤ 2 ^ (k + 53)); [|lia].
      apply Z.pow_le_mono_r; lia.
  - intros Hk. apply Qle_trans with (inject_Z (Qfloor q)); [|apply Qfloor_le].
    rewrite <- Zle_Qle. assert (k + 52 = Z.log2 (Qfloor q)) as -> by lia.
    apply Z.log2_spec. destruct (decide (Qfloor q = 0)) as [E|]; [|lia].
    unfold k in Hk. rewrite E in Hk. simpl in Hk. lia.
Qed.

Lemma round_pos_mono (q q' : Q) :
  (0 <= q)%Q → (q <= q')%Q → round_pos q ≤ round_pos q'.
Proof.
  intros Hq H. assert (0 <= q')%Q as Hq' by lra.
  destruct (round_pos_exponent q Hq) as [Hub _].
  destruct (round_pos_exponent q' Hq') as [_ Hlb].
  unfold round_pos.
  set (k := Z.max (Z.log2 (Qfloor q) - 52) 0) in *.
  set (k' := Z.max (Z.log2 (Qfloor q') - 52) 0) in *.
  assert (0 ≤ k) as Hk by lia.
  assert (k ≤ k') as Hkk'.
  { pose proof (Z.log2_le_mono _ _ (Qfloor_resp_le _ _ H)). lia. }
  destruct (decide (k = k')) as [<-|Hne].
  - apply Z.mul_le_mono_nonneg_r; [by apply Z.pow_nonneg|].
    apply rne_mono, Qdiv_le_mono; [by apply inject_Z_pow_pos | done].
  - transitivity (2 ^ 53 * 2 ^ k).
    + apply Z.mul_le_mono_nonneg_r; [by apply Z.pow_nonneg|].
      apply rne_le, Qle_shift_div_r; [by apply inject_Z_pow_pos|].
      rewrite <- inject_Z_mult, <- Z.pow_add_r, Z.add_comm by lia.
      by apply Qlt_le_weak.
    + transitivity (2 ^ 52 * 2 ^ k').
      * rewrite <- !Z.pow_add_r by lia. apply Z.pow_le_mono_r; lia.
      * apply Z.mul_le_mono_nonneg_r; [apply Z.pow_nonneg; lia|].
        apply rne_ge, Qle_shift_div_l; [apply inject_Z_pow_pos; lia|].
        rewrite <- inject_Z_mult, <- Z.pow_add_r, Z.add_comm by lia.
        apply Hlb. lia.
Qed.

Lemma round_pos_nonneg (q : Q) : (0 <= q)%Q → 0 ≤ round_pos q.
Proof.
  intros Hq. unfold round_pos. apply Z.mul_nonneg_nonneg; [|apply Z.pow_nonneg; lia].
  apply (rne_ge 0). apply Qle_shift_div_l; [apply inject_Z_pow_pos; lia|].
  change (inject_Z 0) with 0%Q. by rewrite Qmult_0_l.
Qed.

Lemma Qnum_neg (q : Q) : (Qnum q <? 0) = true ↔ (q < 0)%Q.
Proof. rewrite Z.ltb_lt. unfold Qlt. simpl. lia. Qed.

Lemma Qnum_nonneg (q : Q) : (Qnum q <? 0) = false ↔ (0 <= q)%Q.
Proof. rewrite Z.ltb_ge. unfold Qle. simpl. lia. Qed.

(** Rounding is monotone. *)
Lemma round_mono (q q' : Q) : (q <= q')%Q → le (round q) (round q') = true.
Proof.
  intros H. unfold round.
  pose proof (round_pos_nonneg (Qabs q) (Qabs_nonneg q)) as Hn.
  pose proof (round_pos_nonneg (Qabs q') (Qabs_nonneg q')) as Hn'.
  destruct (Qnum q <? 0) eqn:Es, (Qnum q' <? 0) eqn:Es';
    try apply Qnum_neg in Es; try apply Qnum_neg in Es';
    try apply Qnum_nonneg in Es; try apply Qnum_nonneg in Es'.
  - assert (round_pos (Qabs q') ≤ round_pos (Qabs q)) as Hm.
    { apply round_pos_mono; [apply Qabs_nonneg|].
      rewrite !Qabs_neg by lra. lra. }
    repeat case_match; simpl; try done; lia.
  - repeat case_match; simpl; try done; lia.
  - lra.
  - assert (round_pos (Qabs q) ≤ round_pos (Qabs q')) as Hm.
    { apply round_pos_mono; [apply Qabs_nonneg|].
      rewrite !Qabs_pos by lra. lra. }
    repeat case_match; simpl; try done; lia.
Qed.

Lemma round_0 : round 0 = Fin 0.
Proof. reflexivity. Qed.

Lemma round_1 : round (inject_Z 1) = Fin 1.
Proof. by vm_compute. Qed.

Lemma round_m1 : round (inject_Z (-1)) = Fin (-1).
Proof. by vm_compute. Qed.

Lemma round_one : round (inject_Z one) = Fin one.
Proof. by vm_compute. Qed.

Lemma round_not_nan (q : Q) : round q ≠ NaN.
Proof. unfold round. by case_match. Qed.

(** *** The order of the floats *)

Lemma le_refl (x : float) : x ≠ NaN → le x x = true.
Proof. destruct x as [|[]|n]; simpl; try done. intros _. lia. Qed.

Lemma le_trans (x y z : float) : le x y = true → le y z = true → le x z = true.
Proof.
  destruct x as [|[]|a], y as [|[]|b], z as [|[]|c]; simpl; try done.
  rewrite !Z.leb_le. lia.
Qed.

Lemma le_antisym (x y : float) : le x y = true → le y x = true → x = y.
Proof.
  destruct x as [|[]|a], y as [|[]|b]; simpl; try done.
  rewrite !Z.leb_le. intros. f_equal. lia.
Qed.

Lemma lt_le (x y : float) : lt x y = true → le x y = true.
Proof.
  destruct x as [|[]|a], y as [|[]|b]; simpl; try done.
  rewrite Z.ltb_lt, Z.leb_le. lia.
Qed.

Lemma lt_false_le (x y : float) :
  x ≠ NaN → y ≠ NaN → lt x y = false → le y x = true.
Proof.
  destruct x as [|[]|a], y as [|[]|b]; simpl; try done.
  rewrite Z.ltb_ge, Z.leb_le. lia.
Qed.

Lemma lt_irrefl_le (x y : float) : lt x y = true → le y x = true → False.
Proof.
  destruct x as [|[]|a], y as [|[]|b]; simpl; try done.
  rewrite Z.ltb_lt, Z.leb_le. lia.
Qed.

(** A float between two finite floats is finite. *)
Lemma le_sandwich (a b : Z) (x : float) :
  le (Fin a) x = true → le x (Fin b) = true → ∃ n, x = Fin n ∧ a ≤ n ≤ b.
Proof.
  destruct x as [|[]|n]; simpl; try done. rewrite !Z.leb_le. by exists n.
Qed.

(** *** Arithmetic on finite floats *)

Lemma add_mono (a a' b b' : Z) :
  a ≤ a' → b ≤ b' → le (add (Fin a) (Fin b)) (add (Fin a') (Fin b')) = true.
Proof. intros. apply round_mono. rewrite <- Zle_Qle. lia. Qed.

Lemma sub_mono (a a' b b' : Z) :
  a ≤ a' → b' ≤ b → le (sub (Fin a) (Fin b)) (sub (Fin a') (Fin b')) = true.
Proof. intros. apply round_mono. rewrite <- Zle_Qle. lia. Qed.

Lemma sub_diag (a : Z) : sub (Fin a) (Fin a) = Fin 0.
Proof. unfold sub. simpl. by rewrite Z.add_opp_diag_r. Qed.

(** Two floats that differ have a difference that is not zero: the
    difference of two multiples of the smallest float is at least that. *)
Lemma sub_is_zero (a b : Z) : is_zero (sub (Fin a) (Fin b)) = true ↔ a = b.
Proof.
  split; [|intros ->; by rewrite sub_diag].
  intros H. destruct (Z.lt_trichotomy a b) as [Hlt|[?|Hgt]]; [|done|].
  - pose proof (round_mono (inject_Z (a + - b)) (inject_Z (-1))) as Hr.
    rewrite round_m1 in Hr. unfold sub in H. simpl in H, Hr.
    destruct (round (inject_Z (a + - b))) as [|[]|[]]; try done.
    discriminate Hr. rewrite <- Zle_Qle. lia.
  - pose proof (round_mono (inject_Z 1) (inject_Z (a + - b))) as Hr.
    rewrite round_1 in Hr. unfold sub in H. simpl in H, Hr.
    destruct (round (inject_Z (a + - b))) as [|[]|[]]; try done.
    discriminate Hr. rewrite <- Zle_Qle. lia.
Qed.

Lemma mul_mono (a b b' : Z) :
  0 ≤ a → b ≤ b' → le (mul (Fin a) (Fin b)) (mul (Fin a) (Fin b')) = true.
Proof.
  intros Ha Hb. apply round_mono, Qdiv_le_mono; [done|].
  rewrite <- Zle_Qle. by apply Z.mul_le_mono_nonneg_l.
Qed.

Lemma mul_not_nan (a b : Z) : mul (Fin a) (Fin b) ≠ NaN.
Proof. apply round_not_nan. Qed.

(** A quotient of a part by the whole lies between 0 and 1. *)
Lemma div_unit_interval (p d : Z) :
  0 ≤ p ≤ d → 0 < d → ∃ n, div (Fin p) (Fin d) = Fin n ∧ 0 ≤ n ≤ one.
Proof.
  intros Hp Hd. apply le_sandwich.
  - rewrite <- round_0. apply round_mono.
    apply Qle_shift_div_l; [by apply inject_Z_pos|].
    rewrite Qmult_0_l. apply inject_Z_nonneg. apply Z.mul_nonneg_nonneg; [lia|done].
  - rewrite <- round_one. apply round_mono.
    apply Qle_shift_div_r; [by apply inject_Z_pos|].
    rewrite <- inject_Z_mult, <- Zle_Qle. rewrite Z.mul_comm.
    apply Z.mul_le_mono_nonneg_l; [done | lia].
Qed.


(** *** [max], [min] and [sort] on lists without NaN *)

Lemma float_foldl_max_spec (l : list float) (a : float) :
  a ≠ NaN → Forall (λ x, x ≠ NaN) l →
  let m := foldl (λ m y, if lt m y then y else m) a l in
  (m = a ∨ m ∈ l) ∧ le a m = true ∧ ∀ x, x ∈ l → le x m = true.
Proof.
  revert a. induction l as [|y l IH]; intros a Ha Hl; simpl.
  - split; [by left|]. split; [by apply le_refl|].
    intros x Hx. by apply elem_of_nil in Hx.
  - apply Forall_cons in Hl as [Hy Hl]. destruct (lt a y) eqn:E.
    + apply lt_le in E. destruct (IH y Hy Hl) as (Hm & Hle & Hub).
      split; [right; destruct Hm as [->|Hm]; [left | by right]; done|].
      split; [by eapply le_trans|].
      intros x [->|Hx]%elem_of_cons; [done | by apply Hub].
    + apply lt_false_le in E; [|done..].
      destruct (IH a Ha Hl) as (Hm & Hle & Hub).
      split; [destruct Hm as [->|Hm]; [by left | by right; right]|].
      split; [done|].
      intros x [->|Hx]%elem_of_cons; [by eapply le_trans | by apply Hub].
Qed.

Lemma float_foldl_min_spec (l : list float) (a : float) :
  a ≠ NaN → Forall (λ x, x ≠ NaN) l →
  let m := foldl (λ m y, if lt y m then y else m) a l in
  (m = a ∨ m ∈ l) ∧ le m a = true ∧ ∀ x, x ∈ l → le m x = true.
Proof.
  revert a. induction l as [|y l IH]; intros a Ha Hl; simpl.
  - split; [by left|]. split; [by apply le_refl|].
    intros x Hx. by apply elem_of_nil in Hx.
  - apply Forall_cons in Hl as [Hy Hl]. destruct (lt y a) eqn:E.
    + apply lt_le in E. destruct (IH y Hy Hl) as (Hm & Hle & Hub).
      split; [right; destruct Hm as [->|Hm]; [left | by right]; done|].
      split; [by eapply le_trans|].
      intros x [->|Hx]%elem_of_cons; [done | by apply Hub].
    + apply lt_false_le in E; [|done..].
      destruct (IH a Ha Hl) as (Hm & Hle & Hub).
      split; [destruct Hm as [->|Hm]; [by left | by right; right]|].
      split; [done|].
      intros x [->|Hx]%elem_of_cons; [by eapply le_trans | by apply Hub].
Qed.

Lemma float_max_Ok (l : list float) (m : float) :
  Forall (λ x, x ≠ NaN) l → Float.max l = Ok m →
  m ∈ l ∧ ∀ x, x ∈ l → le x m = true.
Proof.
  destruct l as [|a l]; [done|]. intros [Ha Hl]%Forall_cons [= <-].
  destruct (float_foldl_max_spec l a Ha Hl) as (Hm & Hle & Hub). split.
  - destruct Hm as [->|Hm]; [left | by right].
  - intros x [->|Hx]%elem_of_cons; [done | by apply Hub].
Qed.

Lemma float_min_Ok (l : list float) (m : float) :
  Forall (λ x, x ≠ NaN) l → Float.min l = Ok m →
  m ∈ l ∧ ∀ x, x ∈ l → le m x = true.
Proof.
  destruct l as [|a l]; [done|]. intros [Ha Hl]%Forall_cons [= <-].
  destruct (float_foldl_min_spec l a Ha Hl) as (Hm & Hle & Hub). split.
  - destruct Hm as [->|Hm]; [left | by right].
  - intros x [->|Hx]%elem_of_cons; [done | by apply Hub].
Qed.

(** Whatever the keys, sorting rearranges the list. *)
Lemma float_insert_reverse_Permutation {A} (x : float * A) l :
  insert_reverse x l ≡ₚ x :: l.
Proof.
  induction l as [|y l IH]; simpl; [done|].
  destruct (lt x.1 y.1); [|done].
  rewrite IH. apply Permutation_swap.
Qed.

Lemma float_sort_reverse_Permutation {A} (l : list (float * A)) :
  sort_reverse l ≡ₚ l.
Proof.
  induction l as [|x l IH]; simpl; [done|].
  by rewrite float_insert_reverse_Permutation, IH.
Qed.

Lemma float_elem_of_sort_reverse {A} (l : list (float * A)) x :
  x ∈ sort_reverse l ↔ x ∈ l.
Proof. by rewrite float_sort_reverse_Permutation. Qed.

Lemma float_insert_reverse_sorted {A} (x : float * A) l :
  x.1 ≠ NaN → Forall (λ y, y.1 ≠ NaN) l →
  StronglySorted descending l → StronglySorted descending (insert_reverse x l).
Proof.
  intros Hx Hl. induction 1 as [|y l Hs IH Hy]; simpl.
  - repeat constructor.
  - apply Forall_cons in Hl as [Hy' Hl]. destruct (lt x.1 y.1) eqn:E.
    + apply lt_le in E. constructor; [by apply IH|].
      rewrite float_insert_reverse_Permutation. by constructor.
    + apply lt_false_le in E; [|done..]. constructor; [by constructor|].
      constructor; [done|].
      eapply Forall_impl; [exact Hy|]. unfold descending. intros z Hz.
      by eapply le_trans.
Qed.

(** Keys without NaN are left in non-increasing order. *)
Lemma float_sort_reverse_sorted {A} (l : list (float * A)) :
  Forall (λ y, y.1 ≠ NaN) l → StronglySorted descending (sort_reverse l).
Proof.
  induction l as [|x l IH]; simpl; [constructor|].
  intros [Hx Hl]%Forall_cons. apply float_insert_reverse_sorted; [done| |by apply IH].
  apply Forall_forall. intros y Hy.
  apply (proj1 (float_elem_of_sort_reverse _ _)) in Hy.
  by eapply (proj1 (Forall_forall _ _) Hl).
Qed.

End FloatFacts.

(** ** Facts about [relative_score_fusion] on floats *)

Section Fusion64Facts.

Import Fusion Float Fusion64.
Local Open Scope list_scope.
Local Open Scope Z_scope.

(** *** Normalisation *)

Lemma float_normalize_Ok mn mx x :
  is_zero (sub mx mn) = false →
  normalize mn mx x = Ok (normalized_value mn mx x).
Proof. intros H. unfold normalize, truediv. by rewrite H. Qed.

Lemma float_normalize_Raise mn mx x :
  is_zero (sub mx mn) = true → normalize mn mx x = Raise ZeroDivisionError.
Proof. intros H. unfold normalize, truediv. by rewrite H. Qed.

Lemma float_mapM_normalize_Ok mn mx (l : list float) :
  is_zero (sub mx mn) = false →
  mapM (normalize mn mx) l = Ok (normalized_value mn mx <$> l).
Proof.
  intros Hne. induction l as [|x l IH]; [done|].
  by rewrite mapM_result_cons, float_normalize_Ok, IH.
Qed.

Lemma float_mapM_normalize_Raise mn mx (l : list float) :
  l ≠ [] → is_zero (sub mx mn) = true →
  mapM (normalize mn mx) l = Raise ZeroDivisionError.
Proof.
  intros Hl Heq. destruct l as [|x l]; [done|].
  by rewrite mapM_result_cons, float_normalize_Raise.
Qed.

(** The three ways in which the normalisation of one side ends. *)
Lemma float_normalized_per_node_cases (result_tuples : list (float * BaseNode)) :
  (result_tuples = [] ∧ normalized_per_node result_tuples = Raise ValueError)
  ∨ ∃ mn mx,
      result_tuples ≠ []
      ∧ Float.max result_tuples.*1 = Ok mx ∧ Float.min result_tuples.*1 = Ok mn
      ∧ ((is_zero (sub mx mn) = true
          ∧ normalized_per_node result_tuples = Raise ZeroDivisionError)
         ∨ (is_zero (sub mx mn) = false
            ∧ normalized_per_node result_tuples
              = Ok (per_node result_tuples
                      (normalized_value mn mx <$> result_tuples.*1)))).
Proof.
  destruct result_tuples as [|t l]; [by left|]. right.
  destruct (Float.max ((t :: l).*1)) as [mx|] eqn:Hmx; [|done].
  destruct (Float.min ((t :: l).*1)) as [mn|] eqn:Hmn; [|done].
  exists mn, mx. split; [done|]. split; [done|]. split; [done|].
  unfold normalized_per_node. rewrite Hmx, Hmn. cbn -[mapM].
  destruct (is_zero (sub mx mn)) eqn:E.
  - left. split; [done|]. by rewrite float_mapM_normalize_Raise.
  - right. split; [done|]. by rewrite float_mapM_normalize_Ok.
Qed.

(** *** The per-node dicts *)

Lemma float_foldl_insert_not_in (l : list (string * float))
    (m : gmap string float) (k : string) :
  k ∉ l.*1 → foldl (λ m kv, <[kv.1 := kv.2]> m) m l !! k = m !! k.
Proof.
  revert m. induction l as [|[k' v'] l IH]; intros m Hk; simpl in *; [done|].
  apply not_elem_of_cons in Hk as [Hne Hk].
  rewrite IH by done. by rewrite lookup_insert_ne.
Qed.

(** The pair that comes last among those with a key is the one that stays. *)
Lemma float_foldl_insert_last (l1 l2 : list (string * float))
    (m : gmap string float) k v :
  k ∉ l2.*1 →
  foldl (λ m kv, <[kv.1 := kv.2]> m) m (l1 ++ (k, v) :: l2) !! k = Some v.
Proof.
  intros Hk. rewrite foldl_app. simpl.
  rewrite float_foldl_insert_not_in by done. apply lookup_insert_eq.
Qed.

Lemma float_per_node_fmap (result_tuples : list (float * BaseNode))
    (g : float → float) :
  per_node result_tuples (g <$> result_tuples.*1)
  = foldl (λ m kv, <[kv.1 := kv.2]> m) ∅
          ((λ t, (node_id t.2, g t.1)) <$> result_tuples).
Proof.
  unfold per_node. f_equal.
  induction result_tuples as [|t l IH]; [done|]. cbn. f_equal. exact IH.
Qed.

Lemma float_per_node_lookup (result_tuples : list (float * BaseNode))
    (g : float → float) (id : string) :
  ((id ∉ (λ t, node_id t.2) <$> result_tuples)
   ∧ per_node result_tuples (g <$> result_tuples.*1) !! id = None)
  ∨ ∃ l1 t l2,
      result_tuples = l1 ++ t :: l2 ∧ node_id t.2 = id
      ∧ (id ∉ (λ t, node_id t.2) <$> l2)
      ∧ per_node result_tuples (g <$> result_tuples.*1) !! id = Some (g t.1).
Proof.
  rewrite float_per_node_fmap.
  destruct (decide (id ∈ (λ t : float * BaseNode, node_id t.2) <$> result_tuples))
    as [Hin|Hnin].
  - right. destruct (last_occurrence _ _ _ Hin) as (l1 & t & l2 & -> & Hid & Hl2).
    exists l1, t, l2. split; [done|]. split; [done|]. split; [done|].
    rewrite fmap_app, fmap_cons, Hid. apply float_foldl_insert_last.
    by rewrite <- list_fmap_compose.
  - left. split; [done|]. rewrite float_foldl_insert_not_in; [done|].
    by rewrite <- list_fmap_compose.
Qed.

Lemma paired_sorted (sims : list float) (ns : list BaseNode) :
  (sort_reverse (zip sims ns)).*1 ≡ₚ paired sims ns.
Proof. unfold paired. by rewrite float_sort_reverse_Permutation. Qed.

Lemma paired_subset (sims : list float) (ns : list BaseNode) (x : float) :
  x ∈ paired sims ns → x ∈ sims.
Proof.
  intros ([y n] & -> & Hin)%list_elem_of_fmap. by apply elem_of_zip_l in Hin.
Qed.

Lemma paired_no_nan (sims : list float) (ns : list BaseNode) :
  no_nan sims → no_nan (paired sims ns).
Proof.
  intros H. apply Forall_forall. intros x Hx%paired_subset.
  by apply (proj1 (Forall_forall _ _) H).
Qed.

Lemma zip_no_nan (sims : list float) (ns : list BaseNode) :
  no_nan sims → Forall (λ y : float * BaseNode, y.1 ≠ NaN) (zip sims ns).
Proof.
  intros H. apply Forall_forall. intros [x n] Hx%elem_of_zip_l.
  by apply (proj1 (Forall_forall _ _) H).
Qed.

Lemma sorted_no_nan (sims : list float) (ns : list BaseNode) :
  no_nan sims →
  Forall (λ y : float * BaseNode, y.1 ≠ NaN) (sort_reverse (zip sims ns)).
Proof.
  intros H. apply Forall_forall. intros [x n] Hx. simpl.
  apply (proj1 (float_elem_of_sort_reverse _ _)) in Hx.
  apply elem_of_zip_l in Hx. by apply (proj1 (Forall_forall _ _) H).
Qed.

(** What [max] and [min] of the sorted similarities are. *)
Lemma sorted_extremes (sims : list float) (ns : list BaseNode) (mn mx : float) :
  no_nan sims →
  Float.max (sort_reverse (zip sims ns)).*1 = Ok mx →
  Float.min (sort_reverse (zip sims ns)).*1 = Ok mn →
  least (paired sims ns) mn ∧ greatest (paired sims ns) mx.
Proof.
  intros Hnan Hmx Hmn.
  assert (Forall (λ x, x ≠ NaN) (sort_reverse (zip sims ns)).*1) as Hnan'.
  { rewrite paired_sorted. by apply paired_no_nan. }
  apply float_max_Ok in Hmx as [Hmx Hub]; [|done].
  apply float_min_Ok in Hmn as [Hmn Hlb]; [|done].
  unfold least, greatest. rewrite <- !paired_sorted.
  split; (split; [done|]); intros x Hx.
  - apply Hlb. by rewrite paired_sorted.
  - apply Hub. by rewrite paired_sorted.
Qed.

(** What a per-node dict of normalised similarities answers for an id. *)
Lemma float_normalized_side_score sims ns (m : gmap string float) (id : string) :
  no_nan sims →
  normalized_per_node (sort_reverse (zip sims ns)) = Ok m →
  side_score sims ns id (default (Fin 0) (m !! id)).
Proof.
  intros Hnan.
  pose proof (float_sort_reverse_sorted _ (zip_no_nan sims ns Hnan)) as Hsorted.
  destruct (float_normalized_per_node_cases (sort_reverse (zip sims ns)))
    as [[_ ->]|(mn & mx & _ & Hmx & Hmn & [[_ ->]|[Hne ->]])]; [done..|].
  intros [= <-].
  destruct (float_per_node_lookup (sort_reverse (zip sims ns))
              (normalized_value mn mx) id)
    as [[Hnin ->]|(l1 & t & l2 & Ht & Hid & Hl2 & ->)].
  - left. split; [|reflexivity]. intros (x & n & Hin & Hn). apply Hnin.
    apply list_elem_of_fmap. exists (x, n). split; [done|].
    by apply float_elem_of_sort_reverse.
  - right. exists t.1. split; [|split].
    + exists t.2. split; [|done]. apply float_elem_of_sort_reverse. rewrite Ht.
      destruct t. apply elem_of_app. right. by left.
    + intros x' (n' & Hin & Hn). apply float_elem_of_sort_reverse in Hin.
      rewrite Ht in Hin, Hsorted.
      apply elem_of_app in Hin as [Hin|Hin].
      * apply (StronglySorted_app_1_elem_of _ _ _ (x', n') t) in Hsorted;
          [exact Hsorted | done | by left].
      * apply elem_of_cons in Hin as [<-|Hin].
        -- simpl. apply le_refl.
           assert ((x', n') ∈ sort_reverse (zip sims ns)) as Hin'.
           { rewrite Ht. apply elem_of_app. right. by left. }
           by apply (proj1 (Forall_forall _ _) (sorted_no_nan sims ns Hnan))
             in Hin'.
        -- exfalso. apply Hl2. apply list_elem_of_fmap. by exists (x', n').
    + destruct (sorted_extremes sims ns mn mx Hnan Hmx Hmn) as [Hl Hg].
      exists mn, mx. split; [done|]. split; [done|].
      simpl. unfold truediv. by rewrite Hne.
Qed.

(** *** The fused list and the answer *)

Lemma float_fused_similarities_Ok dn ds sn ss alpha fused :
  fused_similarities dn ds sn ss alpha = Ok fused ↔
  ∃ sparse_per_node dense_per_node,
    normalized_per_node (sort_reverse (zip ss sn)) = Ok sparse_per_node
    ∧ normalized_per_node (sort_reverse (zip ds dn)) = Ok dense_per_node
    ∧ fused = fuse_the_scores alpha (all_nodes_dict dn sn)
                sparse_per_node dense_per_node.
Proof.
  unfold fused_similarities. split.
  - intros (sp & Hsp & (dp & Hdp & [= <-])%result_bind_Ok)%result_bind_Ok.
    by exists sp, dp.
  - intros (sp & dp & -> & -> & ->). done.
Qed.

Lemma float_relative_score_fusion_Ok d s alpha top_k r :
  relative_score_fusion d s alpha top_k = Ok r ↔
  ∃ dn ds sn ss fused,
    nodes d = Some dn ∧ similarities d = Some ds
    ∧ nodes s = Some sn ∧ similarities s = Some ss
    ∧ fused_similarities dn ds sn ss alpha = Ok fused
    ∧ r = make_result (Py.slice_to top_k (sort_reverse fused)).
Proof.
  unfold relative_score_fusion. split.
  - intros (dn & Hdn%assert_not_none_Ok & (ds & Hds%assert_not_none_Ok
      & (sn & Hsn%assert_not_none_Ok & (ss & Hss%assert_not_none_Ok
      & (fused & Hfused & [= <-])%result_bind_Ok)%result_bind_Ok)%result_bind_Ok)
      %result_bind_Ok)%result_bind_Ok.
    by exists dn, ds, sn, ss, fused.
  - intros (dn & ds & sn & ss & fused & -> & -> & -> & -> & Hfused & ->).
    cbn. by rewrite Hfused.
Qed.

Lemma float_fuse_the_scores_nodes alpha all sp dp :
  (fuse_the_scores alpha all sp dp).*2 = all.*2.
Proof. unfold fuse_the_scores. by rewrite <- list_fmap_compose. Qed.

Lemma float_fuse_the_scores_ids pool alpha all sp dp :
  node_dict_ok pool all →
  (λ x, node_id x.2) <$> fuse_the_scores alpha all sp dp = all.*1.
Proof.
  intros [_ Hall]. unfold fuse_the_scores. rewrite <- list_fmap_compose.
  apply list_fmap_ext. intros i [k v] Hi. simpl.
  apply list_elem_of_lookup_2 in Hi. by apply Hall in Hi as [? _].
Qed.

(** Every pair that the loop appends carries a node of the inputs and the
    fused score of the two normalised similarities of its id. *)
Lemma float_fused_similarities_entry dn ds sn ss alpha fused f n :
  no_nan ds → no_nan ss →
  fused_similarities dn ds sn ss alpha = Ok fused → (f, n) ∈ fused →
  n ∈ dn ++ sn
  ∧ ∃ S D, side_score ss sn (node_id n) S ∧ side_score ds dn (node_id n) D
           ∧ f = fused_sim alpha S D.
Proof.
  intros Hds Hss (sp & dp & Hsp & Hdp & ->)%float_fused_similarities_Ok Hin.
  apply list_elem_of_fmap in Hin as ([k v] & [= -> ->] & Hkv).
  destruct (all_nodes_dict_spec dn sn) as [[_ Hall] _].
  apply Hall in Hkv as [<- Hv]. split; [done|]. simpl.
  exists (default (Fin 0) (sp !! node_id v)), (default (Fin 0) (dp !! node_id v)).
  split; [by apply float_normalized_side_score|].
  split; [by apply float_normalized_side_score | done].
Qed.

Lemma float_fused_similarities_ids dn ds sn ss alpha fused :
  fused_similarities dn ds sn ss alpha = Ok fused →
  NoDup ((λ x, node_id x.2) <$> fused)
  ∧ ∀ id, id ∈ (λ x, node_id x.2) <$> fused ↔ id ∈ node_id <$> (dn ++ sn).
Proof.
  intros (sp & dp & _ & _ & ->)%float_fused_similarities_Ok.
  destruct (all_nodes_dict_spec dn sn) as [Hall Hkeys].
  rewrite (float_fuse_the_scores_ids (dn ++ sn)) by done.
  split; [apply Hall | done].
Qed.


(** The pairs that the answer holds are pairs of the fused list. *)
Lemma make_result_pairs (fused : list (float * BaseNode)) (top_k : Z) :
  ∃ sims ns,
    similarities (make_result (Py.slice_to top_k (sort_reverse fused))) = Some sims
    ∧ nodes (make_result (Py.slice_to top_k (sort_reverse fused))) = Some ns
    ∧ length sims = length ns
    ∧ ∀ p, p ∈ zip sims ns → p ∈ fused.
Proof.
  eexists _, _. split; [done|]. split; [done|].
  rewrite !length_fmap. split; [done|]. rewrite zip_fst_snd.
  intros p Hp%elem_of_slice_to.
  by apply (proj1 (float_elem_of_sort_reverse _ _)) in Hp.
Qed.

(** The ids that the answer holds are the first [top_k] of some arrangement
    of the ids of the two results, each of them once. *)
Lemma make_result_ids dn ds sn ss alpha fused (top_k : Z) :
  fused_similarities dn ds sn ss alpha = Ok fused →
  ∃ candidates,
    candidates ≡ₚ remove_dups (node_id <$> (dn ++ sn))
    ∧ (λ x : float * BaseNode, node_id x.2)
        <$> Py.slice_to top_k (sort_reverse fused)
      = Py.slice_to top_k candidates.
Proof.
  intros [Hnd Hids]%float_fused_similarities_ids.
  exists ((λ x : float * BaseNode, node_id x.2) <$> sort_reverse fused). split.
  - rewrite float_sort_reverse_Permutation.
    apply NoDup_Permutation; [done | apply NoDup_remove_dups|].
    intros id. by rewrite elem_of_remove_dups, Hids.
  - by rewrite slice_to_fmap.
Qed.

(** C2: [relative_score_fusion] combines the two results.  Every node that
    it returns occurs among the nodes of the dense result or among the nodes
    of the sparse result; the ids of the returned nodes are the first [top_k]
    of an arrangement of all the ids of both results, each of them once; and
    the answer is computed from the nodes and the similarities of the two
    results, [alpha] and [top_k] alone: it is the same for any two results
    that have these nodes and similarities. *)
Theorem fusion_combines_results d s alpha top_k r ns :
  relative_score_fusion d s alpha top_k = Ok r →
  nodes r = Some ns →
  ∃ dn sn,
    nodes d = Some dn ∧ nodes s = Some sn
    ∧ (∀ n, n ∈ ns → n ∈ dn ∨ n ∈ sn)
    ∧ (∃ candidates,
         candidates ≡ₚ remove_dups (node_id <$> (dn ++ sn))
         ∧ node_id <$> ns = Py.slice_to top_k candidates)
    ∧ ∀ d' s',
        nodes d' = nodes d → similarities d' = similarities d →
        nodes s' = nodes s → similarities s' = similarities s →
        relative_score_fusion d' s' alpha top_k = Ok r.
Proof.
  intros Hr Hns.
  pose proof Hr as (dn & ds & sn & ss & fused & Hdn & Hds & Hsn & Hss & Hfused & ->)
    %float_relative_score_fusion_Ok.
  injection Hns as <-. exists dn, sn. split; [done|]. split; [done|].
  split; [|split].
  - intros n ([f n'] & -> & Hin%elem_of_slice_to)%list_elem_of_fmap.
    apply (proj1 (float_elem_of_sort_reverse _ _)) in Hin.
    apply float_fused_similarities_Ok in Hfused as (sp & dp & _ & _ & ->).
    assert (n' ∈ (fuse_the_scores alpha (all_nodes_dict dn sn) sp dp).*2) as Hn.
    { apply list_elem_of_fmap. by exists (f, n'). }
    rewrite float_fuse_the_scores_nodes in Hn.
    apply list_elem_of_fmap in Hn as ([k v] & -> & Hkv).
    destruct (all_nodes_dict_spec dn sn) as [[_ Hall] _].
    apply Hall in Hkv as [_ Hv]. by apply elem_of_app in Hv.
  - destruct (make_result_ids _ _ _ _ _ _ top_k Hfused) as (c & Hc & Hids).
    exists c. split; [done|]. rewrite <- Hids.
    by rewrite <- list_fmap_compose.
  - intros d' s' Hdn' Hds' Hsn' Hss'. rewrite <- Hr.
    unfold relative_score_fusion. by rewrite Hdn', Hds', Hsn', Hss'.
Qed.

Lemma fusion_combines_results_witness :
  ∃ dn sn,
    nodes sample_dense = Some dn ∧ nodes sample_sparse = Some sn
    ∧ (∀ n, n ∈ [node_a; node_b] → n ∈ dn ∨ n ∈ sn)
    ∧ (∃ candidates,
         candidates ≡ₚ remove_dups (node_id <$> (dn ++ sn))
         ∧ node_id <$> [node_a; node_b] = Py.slice_to 2 candidates)
    ∧ ∀ d' s',
        nodes d' = nodes sample_dense →
        similarities d' = similarities sample_dense →
        nodes s' = nodes sample_sparse →
        similarities s' = similarities sample_sparse →
        relative_score_fusion d' s' (of_Q (1 # 2)) 2
        = Ok {| nodes := Some [node_a; node_b];
                similarities := Some [of_Q (1 # 2); of_Q (1 # 2)];
                ids := Some ["a"; "b"] |}.
Proof.
  apply (fusion_combines_results sample_dense sample_sparse (of_Q (1 # 2)) 2
           {| nodes := Some [node_a; node_b];
              similarities := Some [of_Q (1 # 2); of_Q (1 # 2)];
              ids := Some ["a"; "b"] |});
    [vm_compute; reflexivity | reflexivity].
Defined.


(** *** Scores between 0 and 1 *)

Lemma finite_not_nan (x : float) : finite x → x ≠ NaN.
Proof. by intros [n ->]. Qed.

Lemma all_finite_no_nan (l : list float) : all_finite l → no_nan l.
Proof. intros H. eapply Forall_impl; [exact H | apply finite_not_nan]. Qed.

Lemma add_0_0 : add (Fin 0) (Fin 0) = Fin 0.
Proof. reflexivity. Qed.

Lemma add_one_one : add (Fin one) (Fin one) = Fin (2 * one).
Proof. by vm_compute. Qed.

Lemma add_unit_interval (S D : float) :
  unit_interval S → unit_interval D →
  ∃ u, add S D = Fin u ∧ 0 ≤ u ≤ 2 * one.
Proof.
  intros (s & -> & Hs) (d & -> & Hd). apply le_sandwich.
  - rewrite <- add_0_0. apply add_mono; lia.
  - rewrite <- add_one_one. apply add_mono; lia.
Qed.

Lemma fused_sim_not_nan (a : Z) (S D : float) :
  unit_interval S → unit_interval D → fused_sim (Fin a) S D ≠ NaN.
Proof.
  intros HS HD. destruct (add_unit_interval S D HS HD) as (u & Hu & _).
  unfold fused_sim. rewrite Hu. apply mul_not_nan.
Qed.

(** For an [alpha] that is not negative, the fused score lies between 0 and
    twice [alpha]. *)
Lemma fused_sim_bounds (a : Z) (S D : float) :
  0 ≤ a → unit_interval S → unit_interval D →
  le (Fin 0) (fused_sim (Fin a) S D) = true
  ∧ le (fused_sim (Fin a) S D) (mul (Fin a) (Fin (2 * one))) = true.
Proof.
  intros Ha HS HD. destruct (add_unit_interval S D HS HD) as (u & Hu & Hu').
  unfold fused_sim. rewrite Hu. split.
  - rewrite <- round_0. apply round_mono.
    apply Qle_shift_div_l; [done|]. rewrite Qmult_0_l.
    apply inject_Z_nonneg. apply Z.mul_nonneg_nonneg; lia.
  - apply mul_mono; lia.
Qed.

(** ... and does not decrease when a normalised score increases. *)
Lemma fused_sim_monotone (a : Z) (S S' D D' : float) :
  0 ≤ a →
  unit_interval S → unit_interval S' → unit_interval D → unit_interval D' →
  le S S' = true → le D D' = true →
  le (fused_sim (Fin a) S D) (fused_sim (Fin a) S' D') = true.
Proof.
  intros Ha HS HS' HD HD' Hle Hle'.
  destruct (add_unit_interval S D HS HD) as (u & Hu & _).
  destruct (add_unit_interval S' D' HS' HD') as (u' & Hu' & _).
  destruct HS as (s & -> & _), HS' as (s' & -> & _),
    HD as (d & -> & _), HD' as (d' & -> & _).
  simpl in Hle, Hle'. apply Z.leb_le in Hle, Hle'.
  pose proof (add_mono s s' d d' Hle Hle') as Hadd.
  unfold fused_sim. rewrite Hu, Hu' in *. simpl in Hadd.
  apply Z.leb_le in Hadd. by apply mul_mono.
Qed.

(** Among finite similarities whose differences do not overflow, a
    normalised similarity lies between 0 and 1. *)
Lemma side_score_unit_interval sims ns id v :
  all_finite sims → no_overflow (paired sims ns) →
  side_score sims ns id v → unit_interval v.
Proof.
  intros Hfin Hover [[_ ->]|(x & (n & Hx & _) & _ & mn & mx & [Hmn Hlb]
                             & [Hmx Hub] & Hv)].
  { exists 0. split; [done|]. unfold one. lia. }
  assert (x ∈ paired sims ns) as Hx'.
  { apply list_elem_of_fmap. by exists (x, n). }
  pose proof (Hlb x Hx') as Hle. pose proof (Hub x Hx') as Hle'.
  destruct (Hover x mn Hx' Hmn) as [p Hp].
  destruct (Hover mx mn Hmx Hmn) as [d Hd].
  destruct (proj1 (Forall_forall _ _) Hfin x (paired_subset _ _ _ Hx'))
    as [a ->].
  destruct (proj1 (Forall_forall _ _) Hfin mn (paired_subset _ _ _ Hmn))
    as [m ->].
  destruct (proj1 (Forall_forall _ _) Hfin mx (paired_subset _ _ _ Hmx))
    as [M ->].
  simpl in Hle, Hle'. apply Z.leb_le in Hle, Hle'.
  pose proof (sub_mono m a m m Hle (Z.le_refl m)) as H0.
  pose proof (sub_mono a M m m Hle' (Z.le_refl m)) as H1.
  rewrite sub_diag, Hp in H0. rewrite Hp, Hd in H1. simpl in H0, H1.
  apply Z.leb_le in H0, H1.
  unfold truediv in Hv. rewrite Hp, Hd in Hv.
  destruct (is_zero (Fin d)) eqn:Ez; [done|]. injection Hv as <-.
  apply div_unit_interval; [lia|]. destruct d; simpl in Ez; [done|lia|lia].
Qed.

(** *** When the function returns *)

Lemma float_normalized_per_node_is_Ok sims ns :
  all_finite sims → two_distinct (paired sims ns) →
  ∃ m, normalized_per_node (sort_reverse (zip sims ns)) = Ok m.
Proof.
  intros Hfin (x & y & Hx & Hy & Hxy).
  pose proof (all_finite_no_nan _ Hfin) as Hnan.
  destruct (float_normalized_per_node_cases (sort_reverse (zip sims ns)))
    as [[Hnil _]|(mn & mx & _ & Hmx & Hmn & [[Heq _]|[_ ->]])].
  - rewrite <- paired_sorted, Hnil in Hx. by apply elem_of_nil in Hx.
  - exfalso. apply Hxy.
    destruct (sorted_extremes sims ns mn mx Hnan Hmx Hmn)
      as [[Hmn' Hlb] [Hmx' Hub]].
    destruct (proj1 (Forall_forall _ _) Hfin mn (paired_subset _ _ _ Hmn'))
      as [m ->].
    destruct (proj1 (Forall_forall _ _) Hfin mx (paired_subset _ _ _ Hmx'))
      as [M ->].
    apply sub_is_zero in Heq as ->.
    transitivity (Fin m); [|symmetry]; apply le_antisym; auto.
  - by eexists.
Qed.

(** The scores that the loop computes from well-behaved similarities are
    fused scores of numbers between 0 and 1. *)
Lemma float_fused_similarities_scores dn ds sn ss alpha fused f n :
  all_finite ds → all_finite ss →
  no_overflow (paired ss sn) → no_overflow (paired ds dn) →
  fused_similarities dn ds sn ss alpha = Ok fused → (f, n) ∈ fused →
  ∃ S D, side_score ss sn (node_id n) S ∧ side_score ds dn (node_id n) D
         ∧ unit_interval S ∧ unit_interval D
         ∧ f = fused_sim alpha S D.
Proof.
  intros Hds Hss Hos Hod Hfused Hin.
  destruct (float_fused_similarities_entry dn ds sn ss alpha fused f n)
    as (_ & S & D & HS & HD & ->); [by apply all_finite_no_nan..|done|done|].
  exists S, D. split; [done|]. split; [done|].
  split; [by apply (side_score_unit_interval ss sn (node_id n))|].
  split; [by apply (side_score_unit_interval ds dn (node_id n)) | done].
Qed.

Lemma float_make_result_well_formed (fused : list (float * BaseNode)) (top_k : Z) :
  NoDup ((λ x, node_id x.2) <$> fused) →
  Forall (λ x, x.1 ≠ NaN) fused → 0 ≤ top_k →
  well_formed top_k (make_result (Py.slice_to top_k (sort_reverse fused))).
Proof.
  intros Hnd Hnan Hk.
  eexists _, _, _. split; [done|]. split; [done|]. split; [done|].
  rewrite !length_fmap. split; [done|]. split; [done|].
  split; [by apply slice_to_length|].
  destruct (slice_to_take top_k (sort_reverse fused)) as [k ->].
  split; [|split].
  - apply (StronglySorted_fmap _ descending); [done|].
    by apply StronglySorted_take, float_sort_reverse_sorted.
  - by rewrite <- list_fmap_compose.
  - eapply sublist_NoDup;
      [|apply (fmap_sublist (λ x : float * BaseNode, node_id x.2)), sublist_take].
    by rewrite float_sort_reverse_Permutation.
Qed.

(** C9, as amended: when no field is [None], [top_k] is not negative, the
    similarities and [alpha] are finite, and on each side the similarities
    that [zip] pairs with a node contain two distinct values and have no
    difference that overflows, [relative_score_fusion] returns, and its
    answer is well formed: [nodes], [similarities] and [ids] have one length,
    at most [top_k]; the similarities are in non-increasing order; [ids] are
    the ids of [nodes], position by position; and no id occurs twice. *)
Theorem fusion_result_well_formed d s alpha top_k dn ds sn ss :
  nodes d = Some dn → similarities d = Some ds →
  nodes s = Some sn → similarities s = Some ss →
  all_finite ds → all_finite ss → finite alpha →
  two_distinct (paired ss sn) → two_distinct (paired ds dn) →
  no_overflow (paired ss sn) → no_overflow (paired ds dn) →
  0 ≤ top_k →
  ∃ r, relative_score_fusion d s alpha top_k = Ok r ∧ well_formed top_k r.
Proof.
  intros Hdn Hds Hsn Hss Hfd Hfs [a ->] Hsparse Hdense Hos Hod Hk.
  destruct (float_normalized_per_node_is_Ok ss sn Hfs Hsparse) as [sp Hsp].
  destruct (float_normalized_per_node_is_Ok ds dn Hfd Hdense) as [dp Hdp].
  assert (fused_similarities dn ds sn ss (Fin a)
          = Ok (fuse_the_scores (Fin a) (all_nodes_dict dn sn) sp dp)) as Hfused.
  { apply float_fused_similarities_Ok. by exists sp, dp. }
  eexists. split.
  - apply float_relative_score_fusion_Ok. exists dn, ds, sn, ss.
    eexists. by repeat (split; [done|]).
  - apply float_make_result_well_formed; [|  |done].
    + by apply float_fused_similarities_ids in Hfused as [? _].
    + apply Forall_forall. intros [f n] Hin. simpl.
      destruct (float_fused_similarities_scores _ _ _ _ _ _ _ _
                  Hfd Hfs Hos Hod Hfused Hin) as (S & D & _ & _ & HS & HD & ->).
      by apply fused_sim_not_nan.
Qed.


(** Checking hypotheses on sample inputs. *)
Lemma no_overflow_Forall (l : list float) :
  Forall (λ x, Forall (λ y, finite (sub x y)) l) l → no_overflow l.
Proof.
  intros H x y Hx Hy.
  by apply (proj1 (Forall_forall _ _) (proj1 (Forall_forall _ _) H x Hx)).
Qed.

Lemma fusion_result_well_formed_witness :
  ∃ r, relative_score_fusion sample_dense sample_sparse (of_Q (1 # 2)) 2 = Ok r
       ∧ well_formed 2 r.
Proof.
  apply (fusion_result_well_formed sample_dense sample_sparse (of_Q (1 # 2)) 2
           [node_a; node_b] (of_Q <$> [3; 1]%Q)
           [node_b; node_c; node_a] (of_Q <$> [4; 2; 0]%Q));
    try reflexivity.
  - repeat constructor; eexists; vm_compute; reflexivity.
  - repeat constructor; eexists; vm_compute; reflexivity.
  - eexists; vm_compute; reflexivity.
  - exists (of_Q 4), (of_Q 2). split; [by left|]. split; [right; by left|].
    by vm_compute.
  - exists (of_Q 3), (of_Q 1). split; [by left|]. split; [right; by left|].
    by vm_compute.
  - apply no_overflow_Forall.
    repeat constructor; eexists; vm_compute; reflexivity.
  - apply no_overflow_Forall.
    repeat constructor; eexists; vm_compute; reflexivity.
  - done.
Defined.

(** C9 as stated fails twice.  For a negative [top_k] the slice [[:-1]]
    drops the last of the three fused pairs and leaves two, more than
    [top_k].  And finite scores whose difference overflows give a node the
    fused similarity NaN, which is in no order with the other
    similarities. *)
Lemma fusion_not_well_formed :
  (two_distinct (of_Q <$> [3; 1]%Q) ∧ two_distinct (of_Q <$> [4; 2; 0]%Q)
   ∧ ∃ r, relative_score_fusion sample_dense sample_sparse (of_Q (1 # 2)) (-1)
          = Ok r
          ∧ ¬ well_formed (-1) r)
  ∧ (all_finite (of_Q <$> [15 * 10 ^ 307; 0; - (15 * 10 ^ 307)]%Q)
     ∧ two_distinct (of_Q <$> [15 * 10 ^ 307; 0; - (15 * 10 ^ 307)]%Q)
     ∧ ∃ r sims,
         relative_score_fusion wide_dense sample_sparse (of_Q (1 # 2)) 3 = Ok r
         ∧ similarities r = Some sims ∧ NaN ∈ sims
         ∧ ¬ well_formed 3 r).
Proof.
  split; [split; [|split] | split; [|split]].
  - exists (of_Q 3), (of_Q 1). split; [by left|]. split; [right; by left|].
    by vm_compute.
  - exists (of_Q 4), (of_Q 2). split; [by left|]. split; [right; by left|].
    by vm_compute.
  - eexists. split; [vm_compute; reflexivity|].
    intros (ns & sims & idl & [= <-] & _ & _ & _ & _ & Hlen & _).
    simpl in Hlen. lia.
  - repeat constructor; eexists; vm_compute; reflexivity.
  - exists (of_Q 0), (of_Q (15 * 10 ^ 307)).
    split; [right; by left|]. split; [by left|]. by vm_compute.
  - eexists _, _. split; [vm_compute; reflexivity|]. split; [reflexivity|].
    split; [by left|].
    intros (ns & sims & idl & _ & [= <-] & _ & _ & _ & _ & Hsorted & _).
    apply StronglySorted_inv in Hsorted as [_ Hhd].
    by apply Forall_cons in Hhd as [Hhd _].
Qed.

(** Rounding decides a rank: with [alpha = 1.0] the fused score of [node_b]
    is 0.1 + 0.2 = 0.30000000000000004, above the 0.3 + 0.0 of [node_c],
    which comes first in the dict. *)
Example rounding_decides_rank :
  relative_score_fusion tenths_dense tenths_sparse (of_Q 1) 2
  = Ok {| nodes := Some [node_a; node_b];
          similarities := Some [of_Q 2; of_Q (30000000000000004 # 10 ^ 17)];
          ids := Some ["a"; "b"] |}
  ∧ add (of_Q (1 # 10)) (of_Q (2 # 10)) = of_Q (30000000000000004 # 10 ^ 17)
  ∧ lt (of_Q (3 # 10)) (add (of_Q (1 # 10)) (of_Q (2 # 10))) = true.
Proof. by vm_compute. Qed.


(** C3, as amended: the list that the fusing loop builds has exactly one
    pair for every node id of the two results; the fused similarity of the
    pair is the float product of [alpha] and the float sum of the normalised
    sparse and the normalised dense similarity of the id ([side_score]: 0 on
    a side where the id was not retrieved); the pairs of the answer are pairs
    of this list.  When [alpha] is not negative, the fused score of
    normalised scores between 0 and 1 does not decrease when one of them
    increases. *)
Theorem fused_score_formula d s alpha top_k r dn ds sn ss :
  relative_score_fusion d s alpha top_k = Ok r →
  nodes d = Some dn → similarities d = Some ds →
  nodes s = Some sn → similarities s = Some ss →
  no_nan ds → no_nan ss →
  ∃ fused,
    fused_similarities dn ds sn ss alpha = Ok fused
    ∧ NoDup ((λ x, node_id x.2) <$> fused)
    ∧ (∀ f n, (f, n) ∈ fused → n ∈ dn ++ sn)
    ∧ (∀ id, id ∈ node_id <$> (dn ++ sn) →
         ∃ f n S D,
           (f, n) ∈ fused ∧ node_id n = id
           ∧ side_score ss sn id S ∧ side_score ds dn id D
           ∧ f = mul alpha (add S D))
    ∧ (∃ sims ns,
         similarities r = Some sims ∧ nodes r = Some ns
         ∧ length sims = length ns
         ∧ ∀ p, p ∈ zip sims ns → p ∈ fused)
    ∧ (∀ a, alpha = Fin a → 0 ≤ a →
       ∀ S S' D D',
         unit_interval S → unit_interval S' →
         unit_interval D → unit_interval D' →
         le S S' = true → le D D' = true →
         le (mul alpha (add S D)) (mul alpha (add S' D')) = true).
Proof.
  intros (dn' & ds' & sn' & ss' & fused & Hdn & Hds & Hsn & Hss & Hfused & ->)
    %float_relative_score_fusion_Ok Hdn' Hds' Hsn' Hss' Hnd Hns.
  assert (dn' = dn) as -> by congruence. assert (ds' = ds) as -> by congruence.
  assert (sn' = sn) as -> by congruence. assert (ss' = ss) as -> by congruence.
  exists fused. split; [done|].
  destruct (float_fused_similarities_ids _ _ _ _ _ _ Hfused) as [Hnodup Hids].
  split; [done|]. split; [|split; [|split]].
  - intros f n Hin.
    by destruct (float_fused_similarities_entry _ _ _ _ _ _ _ _
                   Hnd Hns Hfused Hin) as [? _].
  - intros id ([f n] & Hid & Hin)%Hids%list_elem_of_fmap. simpl in Hid.
    destruct (float_fused_similarities_entry _ _ _ _ _ _ _ _
                Hnd Hns Hfused Hin) as (_ & S & D & HS & HD & ->).
    exists (fused_sim alpha S D), n, S, D. rewrite Hid.
    by repeat (split; [done|]).
  - apply make_result_pairs.
  - intros a -> Ha S S' D D'. by apply fused_sim_monotone.
Qed.

Lemma fused_score_formula_witness :
  ∃ f S D, side_score (of_Q <$> [4; 2; 0]%Q) [node_b; node_c; node_a] "c" S
           ∧ side_score (of_Q <$> [3; 1]%Q) [node_a; node_b] "c" D
           ∧ f = mul (of_Q (1 # 2)) (add S D).
Proof.
  destruct (fused_score_formula sample_dense sample_sparse (of_Q (1 # 2)) 2
              {| nodes := Some [node_a; node_b];
                 similarities := Some [of_Q (1 # 2); of_Q (1 # 2)];
                 ids := Some ["a"; "b"] |}
              [node_a; node_b] (of_Q <$> [3; 1]%Q)
              [node_b; node_c; node_a] (of_Q <$> [4; 2; 0]%Q))
    as (fused & _ & _ & _ & Hformula & _);
    [vm_compute; reflexivity | reflexivity.. | | |].
  - repeat constructor; by vm_compute.
  - repeat constructor; by vm_compute.
  - destruct (Hformula "c") as (f & n & S & D & _ & _ & HS & HD & Hf).
    + apply list_elem_of_fmap. exists node_c. split; [done|].
      do 3 right. by left.
    + exists f, S, D. split; [exact HS|]. split; [exact HD | exact Hf].
Defined.

(** C3 as stated fails for a negative [alpha]: the fused score then falls
    when a normalised score rises.  Both searches rank [node_a] first, with
    normalised scores 1 and 1, against 0.5 and 0 for the two other nodes;
    the fusion with [alpha = -1] scores [node_a] at -2, below the others at
    -0.5, and does not return it among the best two. *)
Lemma fused_score_falls_for_negative_alpha :
  relative_score_fusion agreeing_dense agreeing_sparse (of_Q (-1)) 2
  = Ok {| nodes := Some [node_b; node_c];
          similarities := Some [of_Q (- (1 # 2)); of_Q (- (1 # 2))];
          ids := Some ["b"; "c"] |}
  ∧ le (of_Q (1 # 2)) (of_Q 1) = true
  ∧ fused_sim (of_Q (-1)) (of_Q (1 # 2)) (of_Q (1 # 2)) = of_Q (-1)
  ∧ fused_sim (of_Q (-1)) (of_Q 1) (of_Q (1 # 2)) = of_Q (- (3 # 2))
  ∧ ¬ (∀ alpha S S' D,
         le S S' = true →
         le (fused_sim alpha S D) (fused_sim alpha S' D) = true).
Proof.
  split; [by vm_compute|]. split; [by vm_compute|].
  split; [by vm_compute|]. split; [by vm_compute|].
  intros H.
  specialize (H (of_Q (-1)) (of_Q (1 # 2)) (of_Q 1) (of_Q (1 # 2))).
  vm_compute in H. by specialize (H eq_refl).
Qed.

(** C5, as amended: [relative_score_fusion] is a data transformation of the
    repository's own.  Given finite similarities on any scale (each side
    with two distinct values and no difference that overflows) and a finite
    [alpha] that is not negative, it returns, and every similarity it returns
    is a score of its own computation for the node it comes with: [alpha]
    times the sum of the node's normalised sparse and dense similarities,
    which lie between 0 and 1, so that the score lies between 0 and twice
    [alpha]. *)
Theorem fusion_rescores_nodes d s top_k dn ds sn ss a :
  nodes d = Some dn → similarities d = Some ds →
  nodes s = Some sn → similarities s = Some ss →
  all_finite ds → all_finite ss → 0 ≤ a →
  two_distinct (paired ss sn) → two_distinct (paired ds dn) →
  no_overflow (paired ss sn) → no_overflow (paired ds dn) →
  ∃ r sims ns,
    relative_score_fusion d s (Fin a) top_k = Ok r
    ∧ similarities r = Some sims ∧ nodes r = Some ns
    ∧ length sims = length ns
    ∧ ∀ x n, (x, n) ∈ zip sims ns →
        (n ∈ dn ∨ n ∈ sn)
        ∧ ∃ S D,
            side_score ss sn (node_id n) S ∧ side_score ds dn (node_id n) D
            ∧ unit_interval S ∧ unit_interval D
            ∧ x = mul (Fin a) (add S D)
            ∧ le (Fin 0) x = true
            ∧ le x (mul (Fin a) (Fin (2 * one))) = true.
Proof.
  intros Hdn Hds Hsn Hss Hfd Hfs Ha Hsparse Hdense Hos Hod.
  destruct (float_normalized_per_node_is_Ok ss sn Hfs Hsparse) as [sp Hsp].
  destruct (float_normalized_per_node_is_Ok ds dn Hfd Hdense) as [dp Hdp].
  assert (fused_similarities dn ds sn ss (Fin a)
          = Ok (fuse_the_scores (Fin a) (all_nodes_dict dn sn) sp dp)) as Hfused.
  { apply float_fused_similarities_Ok. by exists sp, dp. }
  destruct (make_result_pairs
              (fuse_the_scores (Fin a) (all_nodes_dict dn sn) sp dp) top_k)
    as (sims & ns & Hsims & Hns & Hlen & Hpairs).
  eexists _, sims, ns. split.
  { apply float_relative_score_fusion_Ok. exists dn, ds, sn, ss.
    eexists. by repeat (split; [done|]). }
  split; [done|]. split; [done|]. split; [done|].
  intros x n Hin%Hpairs.
  destruct (float_fused_similarities_entry _ _ _ _ _ _ _ _
              (all_finite_no_nan _ Hfd) (all_finite_no_nan _ Hfs) Hfused Hin)
    as [Hn%elem_of_app _]. split; [done|].
  destruct (float_fused_similarities_scores _ _ _ _ _ _ _ _
              Hfd Hfs Hos Hod Hfused Hin) as (S & D & HS & HD & HS' & HD' & ->).
  exists S, D. repeat (split; [done|]). by apply fused_sim_bounds.
Qed.

Lemma fusion_rescores_nodes_witness :
  ∃ r sims ns,
    relative_score_fusion sample_dense sample_sparse (Fin (2 ^ 1073)) 2 = Ok r
    ∧ similarities r = Some sims ∧ nodes r = Some ns
    ∧ length sims = length ns
    ∧ ∀ x n, (x, n) ∈ zip sims ns →
        (n ∈ [node_a; node_b] ∨ n ∈ [node_b; node_c; node_a])
        ∧ ∃ S D,
            side_score (of_Q <$> [4; 2; 0]%Q) [node_b; node_c; node_a]
              (node_id n) S
            ∧ side_score (of_Q <$> [3; 1]%Q) [node_a; node_b] (node_id n) D
            ∧ unit_interval S ∧ unit_interval D
            ∧ x = mul (Fin (2 ^ 1073)) (add S D)
            ∧ le (Fin 0) x = true
            ∧ le x (mul (Fin (2 ^ 1073)) (Fin (2 * one))) = true.
Proof.
  apply (fusion_rescores_nodes sample_dense sample_sparse 2
           [node_a; node_b] (of_Q <$> [3; 1]%Q)
           [node_b; node_c; node_a] (of_Q <$> [4; 2; 0]%Q) (2 ^ 1073));
    try reflexivity.
  - repeat constructor; eexists; vm_compute; reflexivity.
  - repeat constructor; eexists; vm_compute; reflexivity.
  - by vm_compute.
  - exists (of_Q 4), (of_Q 2). split; [by left|]. split; [right; by left|].
    by vm_compute.
  - exists (of_Q 3), (of_Q 1). split; [by left|]. split; [right; by left|].
    by vm_compute.
  - apply no_overflow_Forall.
    repeat constructor; eexists; vm_compute; reflexivity.
  - apply no_overflow_Forall.
    repeat constructor; eexists; vm_compute; reflexivity.
Defined.

(** C5 as stated fails: the callback answers with neither of the results it
    was given; it picks and reorders nodes and replaces the retrieval scores
    3, 1 and 4, 2, 0 by the scores 0.5, 0.5 of its own computation. *)
Lemma fusion_transforms_data :
  ∃ r, relative_score_fusion sample_dense sample_sparse (of_Q (1 # 2)) 2 = Ok r
       ∧ r ≠ sample_dense ∧ r ≠ sample_sparse
       ∧ nodes r = Some [node_a; node_b]
       ∧ similarities r = Some [of_Q (1 # 2); of_Q (1 # 2)].
Proof.
  eexists. split; [vm_compute; reflexivity|].
  split; [intros H; vm_compute in H; discriminate H|].
  split; [intros H; vm_compute in H; discriminate H|].
  split; [reflexivity | by vm_compute].
Qed.

(** *** The order of the answer *)

(** A list that is already in non-increasing order is left as it is: pairs
    with equal keys are not swapped. *)
Lemma float_sort_reverse_sorted_id {A} (l : list (float * A)) :
  StronglySorted descending l → sort_reverse l = l.
Proof.
  induction 1 as [|x l Hl IH Hx]; simpl; [done|]. rewrite IH.
  destruct l as [|y l']; simpl; [done|].
  apply Forall_cons in Hx as [Hxy _]. unfold descending in Hxy.
  destruct (lt x.1 y.1) eqn:E; [|done]. by destruct (lt_irrefl_le _ _ E).
Qed.

(** Sorting keeps the pairs of one key in the order they had. *)
Lemma float_insert_reverse_filter {A} (c : float) (x : float * A)
    (l : list (float * A)) :
  filter (λ p, p.1 = c) (insert_reverse x l) = filter (λ p, p.1 = c) (x :: l).
Proof.
  induction l as [|y l IH]; [done|]. simpl.
  destruct (lt x.1 y.1) eqn:E; [|done].
  rewrite filter_cons, IH, !filter_cons.
  repeat case_decide; try done.
  exfalso. assert (x.1 = y.1) as Heq by congruence. rewrite Heq in E.
  apply (lt_irrefl_le _ _ E), le_refl. by destruct y.1.
Qed.

Lemma float_sort_reverse_filter {A} (c : float) (l : list (float * A)) :
  filter (λ p, p.1 = c) (sort_reverse l) = filter (λ p, p.1 = c) l.
Proof.
  induction l as [|x l IH]; [done|]. simpl.
  by rewrite float_insert_reverse_filter, !filter_cons, IH.
Qed.

(** X4: when no fused similarity is NaN, the truncation keeps the best
    nodes: a fused pair whose node is not returned has a fused similarity no
    greater than any similarity that is returned. *)
Theorem fusion_keeps_best d s alpha top_k r dn ds sn ss fused sims idl f n x :
  relative_score_fusion d s alpha top_k = Ok r →
  nodes d = Some dn → similarities d = Some ds →
  nodes s = Some sn → similarities s = Some ss →
  fused_similarities dn ds sn ss alpha = Ok fused →
  Forall (λ p, p.1 ≠ NaN) fused →
  similarities r = Some sims → ids r = Some idl →
  (f, n) ∈ fused → node_id n ∉ idl → x ∈ sims →
  le f x = true.
Proof.
  intros (dn' & ds' & sn' & ss' & fused' & Hdn & Hds & Hsn & Hss & Hfused & ->)
    %float_relative_score_fusion_Ok Hdn' Hds' Hsn' Hss' Hfused' Hnan
    [= <-] [= <-] Hin Hid Hx.
  assert (dn' = dn) as -> by congruence. assert (ds' = ds) as -> by congruence.
  assert (sn' = sn) as -> by congruence. assert (ss' = ss) as -> by congruence.
  assert (fused' = fused) as -> by congruence.
  pose proof (float_sort_reverse_sorted fused Hnan) as Hsorted.
  destruct (slice_to_take top_k (sort_reverse fused)) as [m Hm].
  rewrite Hm in Hid, Hx.
  rewrite <- (take_drop m (sort_reverse fused)) in Hsorted.
  apply list_elem_of_fmap in Hx as ([x' n'] & -> & Hx).
  apply (StronglySorted_app_1_elem_of _ _ _ (x', n') (f, n)) in Hsorted;
    [done | done |].
  apply (proj2 (float_elem_of_sort_reverse _ _)) in Hin.
  rewrite <- (take_drop m (sort_reverse fused)) in Hin.
  apply elem_of_app in Hin as [Hin|Hin]; [|done].
  exfalso. apply Hid. apply list_elem_of_fmap. by exists (f, n).
Qed.

Lemma fusion_keeps_best_witness : le (of_Q (1 # 4)) (of_Q (1 # 2)) = true.
Proof.
  apply (fusion_keeps_best sample_dense sample_sparse (of_Q (1 # 2)) 2
           {| nodes := Some [node_a; node_b];
              similarities := Some [of_Q (1 # 2); of_Q (1 # 2)];
              ids := Some ["a"; "b"] |}
           [node_a; node_b] (of_Q <$> [3; 1]%Q)
           [node_b; node_c; node_a] (of_Q <$> [4; 2; 0]%Q)
           [(of_Q (1 # 2), node_a); (of_Q (1 # 2), node_b);
            (of_Q (1 # 4), node_c)]
           [of_Q (1 # 2); of_Q (1 # 2)] ["a"; "b"] (of_Q (1 # 4)) node_c
           (of_Q (1 # 2)));
    try (vm_compute; reflexivity).
  - repeat constructor; by vm_compute.
  - do 2 right. by left.
  - simpl. intros [[=]|[[=]|[]%elem_of_nil]%elem_of_cons]%elem_of_cons.
  - by left.
Defined.

(** X10: when no fused similarity is NaN, ties are broken by the order of
    retrieval: the returned pairs with a given similarity are the first of
    the fused pairs with that similarity, in the order in which the loop
    appended them (dense nodes first, then the nodes only the sparse search
    found). *)
Theorem fusion_ties_in_retrieval_order d s alpha top_k r dn ds sn ss fused ns
    sims c :
  relative_score_fusion d s alpha top_k = Ok r →
  nodes d = Some dn → similarities d = Some ds →
  nodes s = Some sn → similarities s = Some ss →
  fused_similarities dn ds sn ss alpha = Ok fused →
  Forall (λ p, p.1 ≠ NaN) fused →
  nodes r = Some ns → similarities r = Some sims →
  filter (λ p, p.1 = c) (zip sims ns) `prefix_of` filter (λ p, p.1 = c) fused.
Proof.
  intros (dn' & ds' & sn' & ss' & fused' & Hdn & Hds & Hsn & Hss & Hfused & ->)
    %float_relative_score_fusion_Ok Hdn' Hds' Hsn' Hss' Hfused' _
    [= <-] [= <-].
  assert (dn' = dn) as -> by congruence. assert (ds' = ds) as -> by congruence.
  assert (sn' = sn) as -> by congruence. assert (ss' = ss) as -> by congruence.
  assert (fused' = fused) as -> by congruence.
  rewrite zip_fst_snd.
  destruct (slice_to_take top_k (sort_reverse fused)) as [m ->].
  rewrite <- (float_sort_reverse_filter c fused).
  rewrite <- (take_drop m (sort_reverse fused)) at 2.
  rewrite filter_app. by eexists.
Qed.

Lemma fusion_ties_in_retrieval_order_witness :
  filter (λ p, p.1 = of_Q (1 # 2))
    (zip [of_Q (1 # 2); of_Q (1 # 2)] [node_a; node_b])
  `prefix_of` filter (λ p, p.1 = of_Q (1 # 2))
                [(of_Q (1 # 2), node_a); (of_Q (1 # 2), node_b);
                 (of_Q (1 # 4), node_c)].
Proof.
  apply (fusion_ties_in_retrieval_order sample_dense sample_sparse
           (of_Q (1 # 2)) 2
           {| nodes := Some [node_a; node_b];
              similarities := Some [of_Q (1 # 2); of_Q (1 # 2)];
              ids := Some ["a"; "b"] |}
           [node_a; node_b] (of_Q <$> [3; 1]%Q)
           [node_b; node_c; node_a] (of_Q <$> [4; 2; 0]%Q)
           [(of_Q (1 # 2), node_a); (of_Q (1 # 2), node_b);
            (of_Q (1 # 4), node_c)]);
    try (vm_compute; reflexivity).
  repeat constructor; by vm_compute.
Defined.

Lemma mul_zero_l (u : Z) : mul (Fin 0) (Fin u) = Fin 0.
Proof. unfold mul. rewrite Z.mul_0_l. by vm_compute. Qed.

(** X7: with [alpha = 0.0] and finite similarities whose differences do not
    overflow, every returned similarity is 0 and the returned nodes are the
    first [top_k] nodes in the order of [all_nodes_dict] (dense nodes first,
    then the nodes only the sparse search found). *)
Theorem fusion_alpha_zero d s top_k r dn ds sn ss :
  relative_score_fusion d s (Fin 0) top_k = Ok r →
  nodes d = Some dn → similarities d = Some ds →
  nodes s = Some sn → similarities s = Some ss →
  all_finite ds → all_finite ss →
  no_overflow (paired ss sn) → no_overflow (paired ds dn) →
  nodes r = Some (Py.slice_to top_k (all_nodes_dict dn sn).*2)
  ∧ ∃ sims, similarities r = Some sims ∧ ∀ x, x ∈ sims → x = Fin 0.
Proof.
  intros (dn' & ds' & sn' & ss' & fused & Hdn & Hds & Hsn & Hss & Hfused & ->)
    %float_relative_score_fusion_Ok Hdn' Hds' Hsn' Hss' Hfd Hfs Hos Hod.
  assert (dn' = dn) as -> by congruence. assert (ds' = ds) as -> by congruence.
  assert (sn' = sn) as -> by congruence. assert (ss' = ss) as -> by congruence.
  pose proof Hfused as (sp & dp & _ & _ & Heq)%float_fused_similarities_Ok.
  set (all := all_nodes_dict dn sn) in *.
  assert (fused = (λ kv : string * BaseNode, (Fin 0, kv.2)) <$> all) as Hfuse.
  { rewrite Heq. unfold fuse_the_scores. apply list_fmap_ext. intros i kv Hi.
    f_equal.
    assert ((fused_sim (Fin 0) (default (Fin 0) (sp !! kv.1))
               (default (Fin 0) (dp !! kv.1)), kv.2) ∈ fused) as Hin.
    { rewrite Heq. apply list_elem_of_fmap. exists kv. split; [done|].
      by eapply list_elem_of_lookup_2. }
    destruct (float_fused_similarities_scores _ _ _ _ _ _ _ _
                Hfd Hfs Hos Hod Hfused Hin) as (S & D & _ & _ & HS & HD & ->).
    destruct (add_unit_interval S D HS HD) as (u & Hu & _).
    unfold fused_sim. rewrite Hu. apply mul_zero_l. }
  assert (sort_reverse fused = fused) as Hsort.
  { rewrite Hfuse. apply float_sort_reverse_sorted_id.
    apply (StronglySorted_fmap _ (λ _ _, True)); [|clear; induction all].
    - by intros x y _.
    - constructor.
    - constructor; [done|]. by apply Forall_forall. }
  unfold make_result. simpl. rewrite Hsort, Hfuse. split.
  - f_equal. rewrite slice_to_fmap. f_equal. by rewrite <- list_fmap_compose.
  - eexists. split; [done|].
    intros x ([f n] & -> & Hin%elem_of_slice_to)%list_elem_of_fmap.
    by apply list_elem_of_fmap in Hin as (kv & [= -> _] & _).
Qed.

Lemma fusion_alpha_zero_witness :
  nodes {| nodes := Some [node_a; node_b];
           similarities := Some [Fin 0; Fin 0]; ids := Some ["a"; "b"] |}
  = Some (Py.slice_to 2
            (all_nodes_dict [node_a; node_b] [node_b; node_c; node_a]).*2)
  ∧ ∃ sims, Some [Fin 0; Fin 0] = Some sims ∧ ∀ x, x ∈ sims → x = Fin 0.
Proof.
  apply (fusion_alpha_zero sample_dense sample_sparse 2
           {| nodes := Some [node_a; node_b];
              similarities := Some [Fin 0; Fin 0]; ids := Some ["a"; "b"] |}
           [node_a; node_b] (of_Q <$> [3; 1]%Q)
           [node_b; node_c; node_a] (of_Q <$> [4; 2; 0]%Q));
    try (vm_compute; reflexivity).
  - repeat constructor; eexists; vm_compute; reflexivity.
  - repeat constructor; eexists; vm_compute; reflexivity.
  - apply no_overflow_Forall.
    repeat constructor; eexists; vm_compute; reflexivity.
  - apply no_overflow_Forall.
    repeat constructor; eexists; vm_compute; reflexivity.
Defined.

End Fusion64Facts.

(** ** Facts about [relative_score_fusion] on a heap of objects *)

Section ObjectsFacts.

Import Fusion Float Objects.
Local Open Scope list_scope.

(** *** Reading and writing *)

Lemma floats_at_app (h k : heap) (r : ref) :
  r < length h → floats_at (h ++ k) r = floats_at h r.
Proof. intros H. unfold floats_at, heap, ref in *. by rewrite lookup_app_l. Qed.

Lemma nodes_at_app (h k : heap) (r : ref) :
  r < length h → nodes_at (h ++ k) r = nodes_at h r.
Proof. intros H. unfold nodes_at, heap, ref in *. by rewrite lookup_app_l. Qed.

Lemma tuples_at_app (h k : heap) (r : ref) :
  r < length h → tuples_at (h ++ k) r = tuples_at h r.
Proof. intros H. unfold tuples_at, heap, ref in *. by rewrite lookup_app_l. Qed.

Lemma dict_at_app (h k : heap) (r : ref) :
  r < length h → dict_at (h ++ k) r = dict_at h r.
Proof. intros H. unfold dict_at, heap, ref in *. by rewrite lookup_app_l. Qed.

Lemma tuples_at_new (h : heap) (l : list (float * BaseNode)) :
  tuples_at (h ++ [list_of_tuples l]) (length h) = l.
Proof. unfold tuples_at, heap, ref in *. by rewrite list_lookup_middle. Qed.

Lemma dict_at_new (h : heap) (d : Py.dict BaseNode) :
  dict_at (h ++ [dict_of_nodes d]) (length h) = d.
Proof. unfold dict_at, heap, ref in *. by rewrite list_lookup_middle. Qed.

(** Changing the newest object. *)
Lemma insert_new (h : heap) (o o' : object) :
  <[length h := o']> (h ++ [o]) = h ++ [o'].
Proof.
  unfold heap, ref in *.
  rewrite <- (Nat.add_0_r (length h)) at 1. by rewrite insert_app_r.
Qed.

(** A list made by [list(zip(...))] and then sorted. *)
Lemma new_sorted {A} (l : list (float * BaseNode)) (k : ref → stateful heap A)
    (h : heap) :
  (r ← new (list_of_tuples l); _ ← sort r; k r) h
  = k (length h) (h ++ [list_of_tuples (sort_reverse l)]).
Proof.
  unfold mbind, stateful_bind, new, sort, modify. simpl.
  by rewrite tuples_at_new, insert_new.
Qed.

(** The loop over the sparse nodes changes the dict of all nodes, and
    nothing else. *)
Lemma for_each_sparse_node (ns : list BaseNode) (h : heap)
    (d : Py.dict BaseNode) :
  for_each ns (λ node,
    d ← get dict_at (length h);
    if Py.contains (node_id node) d then mret ()
    else setitem (length h) (node_id node) node) (h ++ [dict_of_nodes d])
  = (Ok (),
     h ++ [dict_of_nodes
             (foldl (λ d node, if Py.contains (node_id node) d then d
                               else Py.setitem (node_id node) node d) d ns)]).
Proof.
  revert d. induction ns as [|node ns IH]; intros d; [done|].
  cbn [for_each foldl]. unfold mbind at 1, stateful_bind.
  unfold mbind at 1, stateful_bind, get. rewrite dict_at_new.
  destruct (Py.contains (node_id node) d); cbn.
  - apply IH.
  - rewrite dict_at_new, insert_new. apply IH.
Qed.

(** The fusing loop appends one pair per item of the dict, and changes
    nothing else. *)
Lemma for_each_item (d : Py.dict BaseNode) (g : string * BaseNode → float * BaseNode)
    (h : heap) (l : list (float * BaseNode)) :
  for_each d (λ kv, append (length h) (g kv)) (h ++ [list_of_tuples l])
  = (Ok (), h ++ [list_of_tuples (l ++ (g <$> d))]).
Proof.
  revert l. induction d as [|kv d IH]; intros l.
  - by rewrite app_nil_r.
  - cbn [for_each]. unfold mbind at 1, stateful_bind, append, modify.
    rewrite tuples_at_new, insert_new, IH. by rewrite <- app_assoc.
Qed.

(** *** Running the steps *)

Lemma bind_call {A B} (r : result A) (k : A → stateful heap B) (h : heap) :
  (call r ≫= k) h
  = match r with Ok a => k a h | Raise e => (Raise e, h) end.
Proof. by destruct r. Qed.

Lemma bind_get {A B} (at_ : heap → ref → A) (r : ref)
    (k : A → stateful heap B) (h : heap) :
  (get at_ r ≫= k) h = k (at_ h r) h.
Proof. reflexivity. Qed.

Lemma bind_new {B} (o : object) (k : ref → stateful heap B) (h : heap) :
  (new o ≫= k) h = k (length h) (h ++ [o]).
Proof. reflexivity. Qed.

Lemma bind_Ok {A B} (m : stateful heap A) (k : A → stateful heap B)
    (h h' : heap) (a : A) :
  m h = (Ok a, h') → (m ≫= k) h = k a h'.
Proof. intros H. unfold mbind, stateful_bind. by rewrite H. Qed.

(** What the function returns is what [Fusion64.relative_score_fusion]
    computes from the lists that the two results refer to, and the heap
    after the call is the heap before it, followed by the objects that the
    call made. *)
Lemma relative_score_fusion_on_heap d s alpha top_k (h : heap) :
  valid h d → valid h s →
  ∃ made,
    relative_score_fusion d s alpha top_k h
    = (Fusion64.relative_score_fusion (contents h d) (contents h s) alpha top_k,
       h ++ made).
Proof.
  intros [Hdn Hds] [Hsn Hss]. unfold relative_score_fusion, contents.
  unfold Fusion64.relative_score_fusion. cbn [Fusion64.nodes Fusion64.similarities].
  destruct (nodes d) as [dn|]; [|exists []; by rewrite app_nil_r].
  destruct (similarities d) as [ds|]; [|exists []; by rewrite app_nil_r].
  destruct (nodes s) as [sn|]; [|exists []; by rewrite app_nil_r].
  destruct (similarities s) as [ss|]; [|exists []; by rewrite app_nil_r].
  specialize (Hdn dn eq_refl). specialize (Hds ds eq_refl).
  specialize (Hsn sn eq_refl). specialize (Hss ss eq_refl).
  cbn [fmap option_fmap option_map Py.assert_not_none].
  rewrite !bind_call, !bind_get, new_sorted, !bind_get, new_sorted.
  rewrite bind_get, bind_new, bind_get.
  rewrite !floats_at_app, !nodes_at_app by (rewrite ?length_app; simpl; lia).
  set (sd := floats_at h ds). set (nd := nodes_at h dn).
  set (ss' := floats_at h ss). set (ns := nodes_at h sn).
  erewrite bind_Ok by apply for_each_sparse_node.
  rewrite bind_get, tuples_at_app, tuples_at_app, tuples_at_new
    by (rewrite ?length_app; simpl; lia).
  rewrite bind_call. cbn [mbind result_bind].
  unfold Fusion64.fused_similarities.
  fold (all_nodes_dict nd ns).
  destruct (Fusion64.normalized_per_node (sort_reverse (zip ss' ns)))
    as [sp|e]; [|eexists; by rewrite <- !app_assoc].
  rewrite bind_get, tuples_at_app, tuples_at_new
    by (rewrite ?length_app; simpl; lia).
  rewrite bind_call. cbn [mbind result_bind].
  destruct (Fusion64.normalized_per_node (sort_reverse (zip sd nd)))
    as [dp|e]; [|eexists; by rewrite <- !app_assoc].
  rewrite bind_new, bind_get, dict_at_app, dict_at_new
    by (rewrite ?length_app; simpl; lia).
  erewrite bind_Ok by apply for_each_item.
  erewrite bind_Ok by (unfold sort, modify; by rewrite tuples_at_new, insert_new).
  rewrite bind_get, tuples_at_new. eexists. cbn.
  by rewrite <- !app_assoc.
Qed.

(** Objects that existed before a call are read through the same references
    after it. *)
Lemma contents_app (h made : heap) (r : VectorStoreQueryResult) :
  valid h r → contents (h ++ made) r = contents h r.
Proof.
  intros [Hn Hs]. unfold contents.
  destruct (nodes r) as [n|], (similarities r) as [m|]; simpl;
    rewrite ?nodes_at_app, ?floats_at_app; auto.
Qed.

Lemma valid_app (h made : heap) (r : VectorStoreQueryResult) :
  valid h r → valid (h ++ made) r.
Proof.
  intros [Hn Hs]. split; intros n Hr; rewrite length_app.
  - specialize (Hn n Hr). lia.
  - specialize (Hs n Hr). lia.
Qed.

(** C4, as amended: the repository does define deterministic logic of its
    own.  [relative_score_fusion], called on two results, returns what
    [Fusion64.relative_score_fusion] computes from the lists that the
    results refer to, [alpha] and [top_k]; it changes no object that existed
    before the call (what it sorts are lists of its own making); so a second
    call on the same two results returns the same.  What
    [get_agent_with_context_awareness] and [main] show does depend on what
    the hosted services answer. *)
Theorem local_logic_is_deterministic :
  (∀ h d s alpha top_k,
     valid h d → valid h s →
     ∃ made made',
       relative_score_fusion d s alpha top_k h
       = (Fusion64.relative_score_fusion (contents h d) (contents h s)
            alpha top_k,
          h ++ made)
       ∧ relative_score_fusion d s alpha top_k (h ++ made)
         = (Fusion64.relative_score_fusion (contents h d) (contents h s)
              alpha top_k,
            (h ++ made) ++ made'))
  ∧ (∀ query retriever tools,
       Agent.depends_on_hosted_responses
         (Agent.get_agent_with_context_awareness query retriever tools))
  ∧ Agent.depends_on_hosted_responses Agent.main.
Proof.
  split; [|split].
  - intros h d s alpha top_k Hd Hs.
    destruct (relative_score_fusion_on_heap d s alpha top_k h Hd Hs)
      as [made Hrun].
    destruct (relative_score_fusion_on_heap d s alpha top_k (h ++ made)
                (valid_app _ _ _ Hd) (valid_app _ _ _ Hs)) as [made' Hrun'].
    exists made, made'. split; [done|].
    by rewrite Hrun', !contents_app.
  - intros query retriever tools. exists Agent.hosted_a, Agent.hosted_c.
    rewrite !run_get_agent_with_context_awareness. simpl. by intros [=].
  - exists Agent.hosted_a, Agent.hosted_c. rewrite !run_main. simpl.
    by intros [=].
Qed.

(** C4 as stated fails for [relative_score_fusion]: two calls in a row on
    the same two results return the same answer, computed from the lists of
    the results alone, and leave these lists as they were. *)
Lemma fusion_runs_agree :
  ∃ r made made',
    relative_score_fusion sample_dense sample_sparse (of_Q (1 # 2)) 2
      sample_heap
    = (Ok r, sample_heap ++ made)
    ∧ relative_score_fusion sample_dense sample_sparse (of_Q (1 # 2)) 2
        (sample_heap ++ made)
      = (Ok r, (sample_heap ++ made) ++ made')
    ∧ Fusion64.nodes r = Some [node_a; node_b]
    ∧ Fusion64.similarities r = Some [of_Q (1 # 2); of_Q (1 # 2)].
Proof.
  eexists _, _, _. split; [vm_compute; reflexivity|].
  split; [vm_compute; reflexivity|]. split; [reflexivity|]. by vm_compute.
Qed.


End ObjectsFacts.

(** ** Facts about the loop of [sparse_doc_vectors] and [sparse_query_vectors] *)

Section SparseVectorsFacts.

Import SparseVectors.
Local Open Scope list_scope.
Local Open Scope Q_scope.

Lemma nonzero_from_ge (i j : nat) (batch : list Q) :
  j ∈ nonzero_from i batch → (i ≤ j)%nat.
Proof.
  revert i. induction batch as [|x batch IH]; intros i; simpl.
  - by intros ?%elem_of_nil.
  - destruct (Qeq_bool x 0).
    + intros Hj%IH. lia.
    + intros [->|Hj%IH]%elem_of_cons; lia.
Qed.

Lemma nonzero_from_sorted (i : nat) (batch : list Q) :
  StronglySorted lt (nonzero_from i batch).
Proof.
  revert i. induction batch as [|x batch IH]; intros i; simpl; [constructor|].
  destruct (Qeq_bool x 0); [apply IH|].
  constructor; [apply IH|]. apply Forall_forall. intros j Hj%nonzero_from_ge. lia.
Qed.

Lemma nonzero_from_complete (i k : nat) (batch : list Q) (x : Q) :
  batch !! k = Some x → ¬ x == 0 → (i + k)%nat ∈ nonzero_from i batch.
Proof.
  revert i k. induction batch as [|y batch IH]; intros i k; [done|].
  destruct k as [|k]; simpl.
  - intros [= ->] Hx. destruct (Qeq_bool x 0) eqn:E.
    + by apply Qeq_bool_iff in E.
    + rewrite Nat.add_0_r. by left.
  - intros Hk Hx. replace (i + S k)%nat with (S i + k)%nat by lia.
    destruct (Qeq_bool y 0); [|right]; by apply IH.
Qed.

(** The positions found are those of the entries that are not zero, and the
    entries are found where they are. *)
Lemma nonzero_from_values (pre batch : list Q) :
  Forall2 (λ i v, (pre ++ batch) !! i = Some v ∧ ¬ v == 0)
          (nonzero_from (length pre) batch)
          (filter (λ x, Qeq_bool x 0 = false) batch).
Proof.
  revert pre. induction batch as [|x batch IH]; intros pre; simpl; [constructor|].
  specialize (IH (pre ++ [x])). rewrite length_app, <- app_assoc in IH.
  simpl in IH. rewrite Nat.add_1_r in IH. rewrite filter_cons.
  destruct (Qeq_bool x 0) eqn:E; case_decide; try done.
  constructor; [|done]. split.
  - by rewrite list_lookup_middle.
  - by apply Qeq_bool_neq.
Qed.

Lemma index_select_nonzero (batch : list Q) :
  index_select batch (nonzero batch)
  = Some (filter (λ x, Qeq_bool x 0 = false) batch).
Proof.
  apply mapM_Some. eapply Forall2_impl; [apply (nonzero_from_values [] batch)|].
  by intros i v [? _].
Qed.

Lemma extract_from_spec (indices : list (list nat)) (vecs tvecs : list (list Q)) :
  extract_from indices vecs tvecs
  = Some (indices ++ (nonzero <$> tvecs),
          vecs ++ (filter (λ x, Qeq_bool x 0 = false) <$> tvecs)).
Proof.
  revert indices vecs. induction tvecs as [|batch tvecs IH]; intros indices vecs.
  - simpl. by rewrite !app_nil_r.
  - simpl. unfold append_row. rewrite last_snoc. simpl.
    rewrite index_select_nonzero. simpl. rewrite IH.
    by rewrite <- !app_assoc.
Qed.

(** X11: the loop never fails, returns one list of indices and one list of
    values for every row, and for every row the indices are in ascending
    order without repetition, each value is the entry of the row at the
    index in the same position and is not zero, and no entry of the row that
    is not zero is left out. *)
Theorem sparse_vectors_well_formed (tvecs : list (list Q)) :
  ∃ indices vecs,
    extract tvecs = Some (indices, vecs)
    ∧ length indices = length tvecs ∧ length vecs = length tvecs
    ∧ ∀ b batch idx vs,
        tvecs !! b = Some batch → indices !! b = Some idx → vecs !! b = Some vs →
        StronglySorted lt idx
        ∧ Forall2 (λ i v, batch !! i = Some v ∧ ¬ v == 0) idx vs
        ∧ ∀ i x, batch !! i = Some x → ¬ x == 0 → i ∈ idx.
Proof.
  eexists _, _. split; [apply extract_from_spec|]. simpl.
  rewrite !length_fmap. split; [done|]. split; [done|].
  intros b batch idx vs Hb. rewrite !list_lookup_fmap, Hb. simpl.
  intros [= <-] [= <-]. split; [apply nonzero_from_sorted|]. split.
  - apply (nonzero_from_values [] batch).
  - intros i x Hi Hx. apply (nonzero_from_complete 0 i batch x); done.
Qed.

Lemma densify_from (i : nat) (batch : list Q) :
  Forall2 Qeq
    ((λ j, default 0 ((list_to_map
         (zip (nonzero_from i batch) (filter (λ x, Qeq_bool x 0 = false) batch))
         : gmap nat Q) !! j)) <$> seq i (length batch))
    batch.
Proof.
  revert i. induction batch as [|x batch IH]; intros i; simpl; [constructor|].
  rewrite filter_cons. destruct (Qeq_bool x 0) eqn:E; case_decide; try done.
  - constructor; [|apply IH].
    rewrite not_elem_of_list_to_map_1.
    + simpl. apply Qeq_bool_iff in E. by symmetry.
    + intros ([j v] & -> & Hin%elem_of_zip_l%nonzero_from_ge)%list_elem_of_fmap.
      simpl in *. lia.
  - simpl. constructor; [by rewrite lookup_insert_eq|].
    erewrite list_fmap_ext; [apply IH|].
    intros k j Hj%list_elem_of_lookup_2%elem_of_seq. simpl.
    rewrite lookup_insert_ne; [done | lia].
Qed.

(** X12: nothing is lost: filling the values of a row back in at their
    indices, with zero elsewhere, gives the row again. *)
Theorem sparse_vectors_round_trip (tvecs : list (list Q)) indices vecs b batch idx vs :
  extract tvecs = Some (indices, vecs) →
  tvecs !! b = Some batch → indices !! b = Some idx → vecs !! b = Some vs →
  Forall2 Qeq (densify (length batch) idx vs) batch.
Proof.
  unfold extract. rewrite extract_from_spec. simpl. intros [= <- <-] Hb.
  rewrite !list_lookup_fmap, Hb. simpl. intros [= <-] [= <-].
  apply (densify_from 0 batch).
Qed.

Lemma sparse_vectors_round_trip_witness :
  Forall2 Qeq (densify 4 [1; 3]%nat [3 # 2; 1 # 4]) [0; 3 # 2; 0; 1 # 4].
Proof.
  exact (sparse_vectors_round_trip sample_tvecs
           [[1; 3]; []; [0; 3]]%nat [[3 # 2; 1 # 4]; []; [2; 5]] 0%nat
           [0; 3 # 2; 0; 1 # 4] [1; 3]%nat [3 # 2; 1 # 4]
           eq_refl eq_refl eq_refl eq_refl).
Defined.

Example sample_sparse_vectors :
  extract sample_tvecs
  = Some ([[1; 3]; []; [0; 3]]%nat, [[3 # 2; 1 # 4]; []; [2; 5]]).
Proof. reflexivity. Qed.

End SparseVectorsFacts.

(** ** Facts about [display_response] and repeated calls of [handle] *)

Section DisplayFacts.

Import Handler Display.
Local Open Scope list_scope.

Lemma all_scored_cons event events :
  all_scored (event :: events) →
  (is_completion_end event = true → is_Some (score_of event))
  ∧ all_scored events.
Proof.
  intros H. split.
  - apply H. by left.
  - intros e He. apply H. by right.
Qed.

(** After such a run the handler holds the score of the last completion-end
    event. *)
Lemma handle_each_score (self : nat) (events' : list BaseEvent) (σ : store) :
  all_scored events' →
  ∃ σ', handle_each self events' σ = (Ok (), σ')
        ∧ trustworthiness_score σ' !! self
          = last_score (trustworthiness_score σ !! self) events'.
Proof.
  revert σ. induction events' as [|event events' IH]; intros σ Hall.
  - by exists σ.
  - apply all_scored_cons in Hall as [Hevent Hall].
    destruct event as [prompt|prompt response|query]; [by apply IH| |by apply IH].
    destruct (Hevent eq_refl) as [score Hscore]. simpl in Hscore.
    destruct (IH {| events := events σ ++ [LLMCompletionEndEvent prompt response];
                    trustworthiness_score :=
                      <[self := score]> (trustworthiness_score σ) |} Hall)
      as (σ' & Hrun & Hscore').
    exists σ'. split.
    + rewrite <- Hrun. simpl.
      unfold mbind at 1, stateful_bind, handle, getitem. rewrite Hscore.
      reflexivity.
    + rewrite Hscore'. simpl. by rewrite lookup_insert_eq, Hscore.
Qed.

(** X13: called on one event after the other, all of whose completion-end
    events carry a score, [handle] never raises; [events] grows by the
    completion-end events, in their order; the score of the handler is that
    of the last completion-end event (it stays when there is none); and the
    score of every other handler stays. *)
Theorem handle_each_scored (self : nat) (events' : list BaseEvent) (σ : store) :
  all_scored events' →
  ∃ σ', handle_each self events' σ = (Ok (), σ')
        ∧ events σ' = events σ ++ filter (λ e, is_completion_end e = true) events'
        ∧ trustworthiness_score σ' !! self
          = last_score (trustworthiness_score σ !! self) events'
        ∧ ∀ other, other ≠ self →
            trustworthiness_score σ' !! other = trustworthiness_score σ !! other.
Proof.
  revert σ. induction events' as [|event events' IH]; intros σ Hall.
  - exists σ. simpl. by rewrite app_nil_r.
  - apply all_scored_cons in Hall as [Hevent Hall].
    destruct event as [prompt|prompt response|query].
    + destruct (IH σ Hall) as (σ' & Hrun & Hev & Hscore & Hother).
      exists σ'. by rewrite filter_cons.
    + destruct (Hevent eq_refl) as [score Hscore]. simpl in Hscore.
      set (σ1 := {| events := events σ ++ [LLMCompletionEndEvent prompt response];
                    trustworthiness_score :=
                      <[self := score]> (trustworthiness_score σ) |}).
      destruct (IH σ1 Hall) as (σ' & Hrun & Hev & Hscore' & Hother).
      exists σ'. split; [|split; [|split]].
      * rewrite <- Hrun. simpl.
        unfold mbind at 1, stateful_bind, handle, getitem. rewrite Hscore.
        reflexivity.
      * rewrite Hev, filter_cons. simpl. by rewrite <- app_assoc.
      * rewrite Hscore'. simpl. by rewrite lookup_insert_eq, Hscore.
      * intros other Hne. rewrite Hother by done. simpl.
        by rewrite lookup_insert_ne.
    + destruct (IH σ Hall) as (σ' & Hrun & Hev & Hscore & Hother).
      exists σ'. by rewrite filter_cons.
Qed.

Lemma sample_events_all_scored :
  all_scored [tlm_event; QueryEndEvent "first"; later_tlm_event;
              QueryEndEvent "second"].
Proof.
  intros event Hin Hc.
  repeat (apply elem_of_cons in Hin as [->|Hin];
          [(by simpl in Hc) || (by eexists)|]).
  by apply elem_of_nil in Hin.
Qed.

Lemma handle_each_scored_witness :
  ∃ σ', handle_each 0 [tlm_event; QueryEndEvent "first"; later_tlm_event;
                       QueryEndEvent "second"] sample_store = (Ok (), σ')
        ∧ events σ' = events sample_store
                      ++ filter (λ e, is_completion_end e = true)
                           [tlm_event; QueryEndEvent "first"; later_tlm_event;
                            QueryEndEvent "second"]
        ∧ trustworthiness_score σ' !! 0%nat
          = last_score (trustworthiness_score sample_store !! 0%nat)
              [tlm_event; QueryEndEvent "first"; later_tlm_event;
               QueryEndEvent "second"]
        ∧ ∀ other, other ≠ 0%nat →
            trustworthiness_score σ' !! other
            = trustworthiness_score sample_store !! other.
Proof.
  apply (handle_each_scored 0
           [tlm_event; QueryEndEvent "first"; later_tlm_event;
            QueryEndEvent "second"] sample_store).
  apply sample_events_all_scored.
Defined.

(** X14: [display_response] shows the score that the handler stored last,
    whatever response it is given: after the handler has seen a list of
    events, it prints the response line and then the rounded score of the
    last completion-end event of the list, or of the score stored before
    when the list has none.  When the rounding raises, the response line has
    been printed already. *)
Theorem display_shows_last_score (round2 : value → result string)
    (event_handler : nat) (events' : list BaseEvent) (σ : store)
    (response : option string) (score : value) :
  all_scored events' →
  last_score (trustworthiness_score σ !! event_handler) events' = Some score →
  display_response round2 event_handler response
    (handle_each event_handler events' σ).2
  = match round2 score with
    | Ok rounded =>
        (Ok (), [("Response: " ++ format_str response)%string;
                 ("Trustworthiness score: " ++ rounded)%string])
    | Raise e => (Raise e, [("Response: " ++ format_str response)%string])
    end.
Proof.
  intros Hall Hlast.
  destruct (handle_each_score event_handler events' σ Hall)
    as (σ' & -> & Hscore).
  unfold display_response. simpl. by rewrite Hscore, Hlast.
Qed.

Lemma display_shows_last_score_witness :
  display_response sample_round2 0 (Some "$0.82")
    (handle_each 0 [later_tlm_event; tlm_event; QueryEndEvent "first"]
       sample_store).2
  = (Ok (), ["Response: $0.82"; "Trustworthiness score: 0.99"]).
Proof.
  apply (display_shows_last_score sample_round2 0
           [later_tlm_event; tlm_event; QueryEndEvent "first"] sample_store
           (Some "$0.82") (Float (99 # 100))).
  - intros event Hin Hc.
    repeat (apply elem_of_cons in Hin as [->|Hin];
            [(by simpl in Hc) || (by eexists)|]).
    by apply elem_of_nil in Hin.
  - reflexivity.
Defined.

End DisplayFacts.

(** ** More on the agent notebook *)

Section AgentBehaviour.

Import Agent.

Lemma index_loading_cell_bound api g g' :
  index_loading_cell api g = (Ok (), g') →
  index_loaded g' = Some true →
  is_Some (march_index g') ∧ is_Some (june_index g') ∧ is_Some (sept_index g').
Proof.
  unfold index_loading_cell, try_except.
  destruct (load_index_spec api "./storage/march" set_march_index g)
    as [(sc1 & i1 & _ & _ & H1)|(_ & e1 & g1 & H1)].
  2:{ rewrite (stateful_bind_Raise _ _ _ _ _ H1). by intros [= <-]. }
  rewrite (stateful_bind_Ok _ _ _ _ _ H1).
  destruct (load_index_spec api "./storage/june" set_june_index
              (set_march_index i1 (set_storage_context sc1 g)))
    as [(sc2 & i2 & _ & _ & H2)|(_ & e2 & g2 & H2)].
  2:{ rewrite (stateful_bind_Raise _ _ _ _ _ H2). by intros [= <-]. }
  rewrite (stateful_bind_Ok _ _ _ _ _ H2).
  destruct (load_index_spec api "./storage/sept" set_sept_index
              (set_june_index i2 (set_storage_context sc2
                 (set_march_index i1 (set_storage_context sc1 g)))))
    as [(sc3 & i3 & _ & _ & H3)|(_ & e3 & g3 & H3)].
  2:{ rewrite (stateful_bind_Raise _ _ _ _ _ H3). by intros [= <-]. }
  rewrite (stateful_bind_Ok _ _ _ _ _ H3).
  intros [= <-] _. simpl. eauto.
Qed.

Lemma index_building_cell_bound api g g' :
  index_loaded g = Some false →
  index_building_cell api g = (Ok (), g') →
  is_Some (march_index g') ∧ is_Some (june_index g') ∧ is_Some (sept_index g').
Proof.
  intros Hloaded.
  unfold index_building_cell, mbind, stateful_bind, read, call, modify.
  rewrite Hloaded. simpl.
  repeat (match goal with
          | |- context [SimpleDirectoryReader_load_data api ?x] =>
              destruct (SimpleDirectoryReader_load_data api x); simpl
          | |- context [VectorStoreIndex_from_documents api ?x] =>
              destruct (VectorStoreIndex_from_documents api x); simpl
          | |- context [storage_context_persist api ?x ?y] =>
              destruct (storage_context_persist api x y); simpl
          end); try (by intros [=]).
  intros [= _ <-]. simpl. eauto.
Qed.

(** X15: run one after the other, the index-loading cell and the
    index-building cell leave the three indexes bound, whether they could be
    loaded or had to be built, unless an SDK call of the build raises; then
    that exception is what the second cell ends with.  The second cell never
    finds [index_loaded] unbound. *)
Theorem cells_leave_indexes_bound api g :
  ∃ g1 r2 g2,
    index_loading_cell api g = (Ok (), g1)
    ∧ index_building_cell api g1 = (r2, g2)
    ∧ (r2 = Ok () →
       is_Some (march_index g2) ∧ is_Some (june_index g2)
       ∧ is_Some (sept_index g2))
    ∧ (∀ e, r2 = Raise e →
         build_calls api = Raise e
         ∧ ¬ (loads api "./storage/march" ∧ loads api "./storage/june"
              ∧ loads api "./storage/sept")).
Proof.
  destruct (index_loading_cell_spec api g) as (g1 & Hload & Hiff & Hloaded).
  exists g1. destruct (index_building_cell api g1) as [r2 g2] eqn:Hbuild.
  exists r2, g2. split; [done|]. split; [done|].
  destruct Hloaded as [Htrue|Hfalse].
  - rewrite (index_building_cell_skipped api g1 Htrue) in Hbuild.
    injection Hbuild as <- <-. split; [|done].
    intros _. by apply (index_loading_cell_bound api g).
  - split.
    + intros ->. by apply (index_building_cell_bound api g1).
    + intros e ->. split.
      * by rewrite <- (index_building_cell_uncaught api g1 Hfalse), Hbuild.
      * intros Hall%Hiff. congruence.
Qed.

Lemma cells_leave_indexes_bound_witness :
  ∃ g1 r2 g2,
    index_loading_cell first_run unbound = (Ok (), g1)
    ∧ index_building_cell first_run g1 = (r2, g2)
    ∧ is_Some (march_index g2) ∧ is_Some (june_index g2)
    ∧ is_Some (sept_index g2).
Proof.
  destruct (cells_leave_indexes_bound first_run unbound)
    as (g1 & r2 & g2 & Hload & Hbuild & Hbound & _).
  exists g1, r2, g2. split; [done|]. split; [done|]. apply Hbound.
  assert (index_loading_cell first_run unbound
          = (Ok (), set_index_loaded false unbound)) as Hl by reflexivity.
  rewrite Hl in Hload. injection Hload as <-.
  assert (∃ g', index_building_cell first_run (set_index_loaded false unbound)
                = (Ok (), g')) as [g' Hb] by (by eexists).
  rewrite Hb in Hbuild. by injection Hbuild as <-.
Defined.

(** X16: in the cell that asks the agent, [agent.run] is awaited only after
    the retrieval answered, with the same query and with the agent that
    [get_agent_with_context_awareness] returned; the response is printed only
    when both calls answered; an exception of either call ends the cell
    with nothing printed. *)
Theorem agent_cell_order h query retriever tools :
  match answer_aretrieve h retriever query with
  | Raise e =>
      run h (agent_cell query retriever tools) = raised (aretrieve retriever query) e
  | Ok context_nodes =>
      ∃ agent,
        value (run h (get_agent_with_context_awareness query retriever tools))
        = Ok agent
        ∧ calls (run h (agent_cell query retriever tools))
          = [aretrieve retriever query; agent_run agent query]
        ∧ match answer_agent_run h agent query with
          | Ok response =>
              value (run h (agent_cell query retriever tools)) = Ok ()
              ∧ stdout (run h (agent_cell query retriever tools))
                = [printed_str response]
          | Raise e =>
              value (run h (agent_cell query retriever tools)) = Raise e
              ∧ stdout (run h (agent_cell query retriever tools)) = []
          end
  end.
Proof.
  unfold agent_cell. simpl.
  destruct (answer_aretrieve h retriever query) as [context_nodes|e]; [|done].
  eexists. split; [done|]. simpl.
  match goal with |- context [answer_agent_run h ?a query] =>
    destruct (answer_agent_run h a query) end; done.
Qed.

Lemma string_app_assoc (s1 s2 s3 : string) : (s1 ++ s2) ++ s3 = s1 ++ s2 ++ s3.
Proof.
  induction s1 as [|c s1 IH]; [done|].
  change (String c ((s1 ++ s2) ++ s3) = String c (s1 ++ s2 ++ s3)).
  f_equal. exact IH.
Qed.

Lemma string_app_nil_r (s : string) : s ++ "" = s.
Proof.
  induction s as [|c s IH]; [done|].
  change (String c (s ++ "") = String c s).
  f_equal. exact IH.
Qed.

Lemma contains_app_l (h c t : string) :
  (∃ pre post, c = pre ++ t ++ post) → ∃ pre post, h ++ c = pre ++ t ++ post.
Proof.
  intros (pre & post & ->). exists (h ++ pre), post.
  by rewrite string_app_assoc.
Qed.

Lemma contains_app_r (c tl t : string) :
  (∃ pre post, c = pre ++ t ++ post) → ∃ pre post, c ++ tl = pre ++ t ++ post.
Proof.
  intros (pre & post & ->). exists pre, (post ++ tl).
  by rewrite !string_app_assoc.
Qed.

Lemma concat_contains (sep t : string) (l : list string) :
  t ∈ l → ∃ pre post, String.concat sep l = pre ++ t ++ post.
Proof.
  induction l as [|x l IH]; [by intros ?%elem_of_nil|].
  intros [->|Hin]%elem_of_cons.
  - destruct l as [|y l].
    + exists "", "". simpl. by rewrite string_app_nil_r.
    + by exists "", (sep ++ String.concat sep (y :: l)).
  - destruct l as [|y l]; [by apply elem_of_nil in Hin|].
    change (String.concat sep (x :: y :: l))
      with (x ++ sep ++ String.concat sep (y :: l)).
    by apply contains_app_l, contains_app_l, IH.
Qed.

(** X17: nothing of the context is dropped: the system prompt of the agent
    that [get_agent_with_context_awareness] returns contains the text of
    every retrieved node. *)
Theorem system_prompt_contains_context h query retriever tools context_nodes agent n :
  answer_aretrieve h retriever query = Ok context_nodes →
  value (run h (get_agent_with_context_awareness query retriever tools))
  = Ok agent →
  n ∈ context_nodes →
  ∃ pre post, system_prompt agent = pre ++ node_text (node n) ++ post.
Proof.
  intros Hanswer. rewrite run_get_agent_with_context_awareness, Hanswer.
  intros [= <-] Hn.
  cbv beta iota delta [system_prompt system_prompt_template_format].
  do 5 apply contains_app_l. apply contains_app_r, concat_contains.
  apply list_elem_of_fmap. by exists n.
Qed.

Lemma system_prompt_contains_context_witness :
  ∃ pre post,
    system_prompt_template_format
      ("Abbreviation: 'X' = Risk Factors" ++ nl ++ "----" ++ nl
       ++ "Abbreviation: 'Y' = Revenue")
    = pre ++ "Abbreviation: 'Y' = Revenue" ++ post.
Proof.
  apply (system_prompt_contains_context hosted_a sample_query sample_retriever
           sample_tools (abbreviations (9 # 10) (8 # 10))
           {| Agent.tools := sample_tools; llm := "gpt-4o";
              system_prompt := system_prompt_template_format
                ("Abbreviation: 'X' = Risk Factors" ++ nl ++ "----" ++ nl
                 ++ "Abbreviation: 'Y' = Revenue") |}
           {| node := {| node_text := "Abbreviation: 'Y' = Revenue";
                         node_id_ := "n2" |};
              score := Some (8 # 10) |}); try reflexivity.
  right. by left.
Defined.

End AgentBehaviour.
